(** * mtm::set: a typed, exception-raising adapter over the generic C set

    The repository consists of the C header [mtm_set.h] (the interface of
    the type-erased ordered-set engine; its implementation file is not part
    of the repository snapshot) and of [mtm_set.hpp], the class template
    [mtm::set<T, CmpFcn>] written on top of that interface.

    The development below embeds both layers:
    - the memory the program works on is an explicit [world]: the live
      engine handles, the live adapter objects, the address supply, the
      outcomes of the engine's coming allocations and the number of live
      [T] objects created by [new];
    - the engine functions are modelled from their documented contract;
    - the adapter's member functions are transcribed from [mtm_set.hpp],
      statement by statement, in a state-and-exception monad.

    The results: the order of iteration and the invariant of every
    reachable memory, the behaviour of [find], [insert], [erase] and
    [clear], the independence of copies, the assignment of a set to itself,
    the equality of positions, and what a copy assignment leaves behind
    when its copy fails. Further properties follow: construction and
    destruction, the walk of the positions, compositions of [insert],
    [erase] and [find], the count of live [T] objects and the separation
    of different sets. All are instantiated at [mtm::set<int>] at the
    end. *)

From Stdlib Require Import ZArith Lia.
From stdpp Require Import base option list sorting gmap.

Set Default Proof Using "Type".

(** ** Results and exceptions *)

(** [enum SetResult_t] of [mtm_set.h]. *)
Inductive SetResult :=
  | SET_SUCCESS
  | SET_OUT_OF_MEMORY
  | SET_NULL_ARGUMENT
  | SET_ITEM_ALREADY_EXISTS
  | SET_ITEM_DOES_NOT_EXIST.

Global Instance SetResult_eq_dec : EqDecision SetResult.
Proof. solve_decision. Defined.

(** The three exception classes nested in [mtm::set]. *)
Inductive exn :=
  | Exception
  | ElementNotFound
  | InvalidIterator.

(** How a member function ends: it returns, it throws, a failed [assert]
    aborts the program, or the loop bound given to the model is used up. *)
Inductive result (A : Type) :=
  | Ok (a : A)
  | Throw (e : exn)
  | Abort
  | OutOfFuel.
Arguments Ok {A} a.
Arguments Throw {A} e.
Arguments Abort {A}.
Arguments OutOfFuel {A}.

(** Sequencing of computations that only read the memory. *)
Definition rbind {A B} (r : result A) (k : A → result B) : result B :=
  match r with
  | Ok a => k a
  | Throw e => Throw e
  | Abort => Abort
  | OutOfFuel => OutOfFuel
  end.

Section SetCpp.

(** The element type [T], the order predicate [CmpFcn()(a, b)] and
    [T::operator==], which [find] uses. *)
Context {T : Type}.
Variable CmpFcn : T → T → bool.
Variable T_eq : T → T → bool.

(** ** Memory *)

(** [SetElement] is [void*]: [None] is [NULL], [Some t] points to a [T]
    holding [t]. [SetIterator] is [void*] as well: [Some p] is the location
    of a slot. A [Set] is a pointer to a handle. *)
Definition SetElement : Type := option T.
Definition SetIterator : Type := option positive.
Definition CSet : Type := option positive.

Record world := World {
  (** live engine handles: the ordered sequence of slots of each, a slot
      being its location and the element the engine owns there *)
  csets : gmap positive (list (positive * T));
  (** live adapter objects: the value of the member [m_CSet] of each *)
  objs : gmap positive (option positive);
  (** the next address that has never been handed out *)
  next : positive;
  (** outcomes of the engine's coming allocation requests, in order; once
      the list is used up every request succeeds *)
  oracle : list bool;
  (** number of [T] objects created by [new T] and not yet deleted *)
  live : Z
}.

Definition with_csets (f : gmap positive (list (positive * T)) →
                           gmap positive (list (positive * T))) (w : world) : world :=
  World (f (csets w)) (objs w) (next w) (oracle w) (live w).

Definition with_objs (f : gmap positive (option positive) →
                          gmap positive (option positive)) (w : world) : world :=
  World (csets w) (f (objs w)) (next w) (oracle w) (live w).

Definition with_live (f : Z → Z) (w : world) : world :=
  World (csets w) (objs w) (next w) (oracle w) (f (live w)).

(** An allocation request of the engine. *)
Definition alloc (w : world) : bool * world :=
  match oracle w with
  | [] => (true, w)
  | b :: r => (b, World (csets w) (objs w) (next w) r (live w))
  end.

(** A location that is not in use. *)
Definition fresh (w : world) : positive * world :=
  (next w, World (csets w) (objs w) (Pos.succ (next w)) (oracle w) (live w)).

(** The slots behind a handle pointer; a pointer to a handle that is not
    live is treated like [NULL]. *)
Definition slots_at (w : world) (s : CSet) : option (list (positive * T)) :=
  h ← s; csets w !! h.

(** ** The ordered-set engine *)

Section Engine.

(** The three function references handed to [setCreate]
    ([copySetElements], [freeSetElements], [compareSetElements]). They are
    fixed for a handle's lifetime, and the adapter always passes the same
    three, so they are parameters of the engine rather than fields of each
    handle. *)
Variable copyElement : SetElement → world → SetElement * world.
Variable freeElement : SetElement → world → world.
Variable compareElements : SetElement → SetElement → Z.

(** Modelled from the spec: [setCreate] (the engine's implementation file is
    missing). A new empty handle, or [NULL] when the allocation fails. *)
Definition setCreate (w : world) : CSet * world :=
  let (ok, w1) := alloc w in
  if ok then
    let (h, w2) := fresh w1 in
    (Some h, with_csets (<[h := []]>) w2)
  else (None, w1).

(** Modelled from the spec: the loop of [setDestroy] and [setClear] (the
    engine's implementation file is missing) that frees every element with
    the stored free function. *)
Definition free_slots (sl : list (positive * T)) (w : world) : world :=
  foldl (λ w' s, freeElement (Some s.2) w') w sl.

(** Modelled from the spec: [setDestroy] (the engine's implementation file is
    missing). Frees every element, then the handle; nothing on [NULL]. *)
Definition setDestroy (s : CSet) (w : world) : world :=
  match s with
  | None => w
  | Some h =>
    match csets w !! h with
    | None => w
    | Some sl => with_csets (delete h) (free_slots sl w)
    end
  end.

(** Modelled from the spec: the element copies made by [setCopy] (the
    engine's implementation file is missing). Every slot gets a new
    location and a copy of its element; when an allocation or a copy fails
    the copies made so far are freed again. *)
Fixpoint copy_slots (sl : list (positive * T)) (w : world)
  : option (list (positive * T)) * world :=
  match sl with
  | [] => (Some [], w)
  | (_, e) :: r =>
    let (ok, w1) := alloc w in
    if ok then
      let (c, w2) := copyElement (Some e) w1 in
      match c with
      | None => (None, w2)
      | Some e' =>
        let (p, w3) := fresh w2 in
        let (res, w4) := copy_slots r w3 in
        match res with
        | Some r' => (Some ((p, e') :: r'), w4)
        | None => (None, freeElement (Some e') w4)
        end
      end
    else (None, w1)
  end.

(** Modelled from the spec: [setCopy] (the engine's implementation file is
    missing). [NULL] if [NULL] was sent or an allocation failed; otherwise
    a new handle with a copy of every element, the original untouched. *)
Definition setCopy (s : CSet) (w : world) : CSet * world :=
  match slots_at w s with
  | None => (None, w)
  | Some sl =>
    let (ok, w1) := alloc w in
    if ok then
      let (h, w2) := fresh w1 in
      let (res, w3) := copy_slots sl w2 in
      match res with
      | Some sl' => (Some h, with_csets (<[h := sl']>) w3)
      | None => (None, w3)
      end
    else (None, w1)
  end.

(** Modelled from the spec: [setGetSize] (the engine's implementation file
    is missing). [-1] on [NULL], the number of elements otherwise. *)
Definition setGetSize (w : world) (s : CSet) : Z :=
  match slots_at w s with
  | None => (-1)%Z
  | Some sl => Z.of_nat (length sl)
  end.

(** Modelled from the spec: the walk over the slots behind [setGetFirst],
    [setGetNext] and [setGetElement] (the engine's implementation file is
    missing): the first position, the position after a given one, and the
    element at a given position. *)
Definition slot_first (sl : list (positive * T)) : SetIterator :=
  match sl with
  | [] => None
  | (p, _) :: _ => Some p
  end.

Fixpoint slot_next (sl : list (positive * T)) (p : positive) : SetIterator :=
  match sl with
  | [] => None
  | (q, _) :: r => if decide (q = p) then slot_first r else slot_next r p
  end.

Fixpoint slot_get (sl : list (positive * T)) (p : positive) : SetElement :=
  match sl with
  | [] => None
  | (q, e) :: r => if decide (q = p) then Some e else slot_get r p
  end.

(** Modelled from the spec: [setGetFirst] (the engine's implementation file
    is missing). The position of the minimal element; [NULL] on [NULL] or
    on an empty set. *)
Definition setGetFirst (w : world) (s : CSet) : SetIterator :=
  sl ← slots_at w s; slot_first sl.

(** Modelled from the spec: [setGetNext] (the engine's implementation file
    is missing). The position after [iter] in ascending order; [NULL] at
    the last element, on an invalid position and on [NULL] arguments. *)
Definition setGetNext (w : world) (s : CSet) (iter : SetIterator) : SetIterator :=
  sl ← slots_at w s; p ← iter; slot_next sl p.

(** Modelled from the spec: [setGetElement] (the engine's implementation
    file is missing). The element at [iter]; [NULL] on an invalid or
    past-the-end position and on [NULL] arguments. *)
Definition setGetElement (w : world) (s : CSet) (iter : SetIterator) : SetElement :=
  sl ← slots_at w s; p ← iter; slot_get sl p.

(** Modelled from the spec: the scan of [setAdd] and [setRemove] (the
    engine's implementation file is missing). It walks the ordered sequence
    and stops at the first element that is not less than the target; the
    result is the slots passed and the slots from the stopping point on. *)
Fixpoint scan (element : SetElement) (sl : list (positive * T))
  : list (positive * T) * list (positive * T) :=
  match sl with
  | [] => ([], [])
  | (p, e) :: r =>
    if (compareElements (Some e) element <? 0)%Z then
      let (before, rest) := scan element r in ((p, e) :: before, rest)
    else ([], sl)
  end.

(** Modelled from the spec: the test of [setAdd] (the engine's
    implementation file is missing) whether the scan stopped at an element
    equal to the target. *)
Definition stopped_at_equal (element : SetElement) (rest : list (positive * T)) : bool :=
  match rest with
  | [] => false
  | (_, e) :: _ => (compareElements (Some e) element =? 0)%Z
  end.

(** Modelled from the spec: [setAdd] (the engine's implementation file is
    missing). [SET_ITEM_ALREADY_EXISTS] and no change if an equal element is
    stored; otherwise a copy of the element is inserted at the ascending
    insertion point, or [SET_OUT_OF_MEMORY] and no change of the set when
    the allocation or the copy fails. *)
Definition setAdd (s : CSet) (element : SetElement) (w : world) : SetResult * world :=
  match slots_at w s with
  | None => (SET_NULL_ARGUMENT, w)
  | Some sl =>
    let (before, rest) := scan element sl in
    if stopped_at_equal element rest then (SET_ITEM_ALREADY_EXISTS, w)
    else
      let (ok, w1) := alloc w in
      if ok then
        let (c, w2) := copyElement element w1 in
        match c, s with
        | Some e, Some h =>
          let (p, w3) := fresh w2 in
          (SET_SUCCESS, with_csets (<[h := before ++ (p, e) :: rest]>) w3)
        | _, _ => (SET_OUT_OF_MEMORY, w2)
        end
      else (SET_OUT_OF_MEMORY, w1)
  end.

(** Modelled from the spec: [setRemove] (the engine's implementation file is
    missing). [SET_ITEM_DOES_NOT_EXIST] if no equal element is stored;
    otherwise the stored element is freed and its slot removed. *)
Definition setRemove (s : CSet) (element : SetElement) (w : world) : SetResult * world :=
  match slots_at w s with
  | None => (SET_NULL_ARGUMENT, w)
  | Some sl =>
    let (before, rest) := scan element sl in
    match rest, s with
    | (_, e) :: after, Some h =>
      if (compareElements (Some e) element =? 0)%Z then
        (SET_SUCCESS, with_csets (<[h := before ++ after]>) (freeElement (Some e) w))
      else (SET_ITEM_DOES_NOT_EXIST, w)
    | _, _ => (SET_ITEM_DOES_NOT_EXIST, w)
    end
  end.

(** Modelled from the spec: [setClear] (the engine's implementation file is
    missing). Frees every element and leaves the set empty. *)
Definition setClear (s : CSet) (w : world) : SetResult * world :=
  match slots_at w s, s with
  | Some sl, Some h => (SET_SUCCESS, with_csets (<[h := []]>) (free_slots sl w))
  | _, _ => (SET_NULL_ARGUMENT, w)
  end.

End Engine.

(** ** The state-and-exception monad of the adapter *)

Definition M (A : Type) : Type := world → result A * world.

Definition ret {A} (a : A) : M A := λ w, (Ok a, w).

Definition throw {A} (e : exn) : M A := λ w, (Throw e, w).

Definition bind {A B} (m : M A) (k : A → M B) : M B := λ w,
  match m w with
  | (Ok a, w') => k a w'
  | (Throw e, w') => (Throw e, w')
  | (Abort, w') => (Abort, w')
  | (OutOfFuel, w') => (OutOfFuel, w')
  end.

(** [assert(b)]. *)
Definition assert_ (b : bool) : M unit := λ w,
  if b then (Ok tt, w) else (Abort, w).

(** A call of a [const] member function or of an engine query. *)
Definition read {A} (f : world → A) : M A := λ w, (Ok (f w), w).

Definition readr {A} (f : world → result A) : M A := λ w, (f w, w).

(** A call of an engine function that changes the memory. *)
Definition call {A} (f : world → A * world) : M A := λ w,
  let (a, w') := f w in (Ok a, w').

Definition modify (f : world → world) : M unit := λ w, (Ok tt, f w).

Notation "x <- c ;; k" := (bind c (λ x, k))
  (at level 100, c at next level, right associativity).
Notation "c ;;; k" := (bind c (λ _, k))
  (at level 100, right associativity).

(** ** The adapter [mtm::set<T, CmpFcn>] *)

(** [set::CompareElementFcn]: the order predicate as a three-way sign. *)
Definition CompareElementFcn (left right : SetElement) : Z :=
  match left, right with
  | Some leftT, Some rightT =>
    if CmpFcn leftT rightT then (-1)%Z
    else if CmpFcn rightT leftT then 1%Z
    else 0%Z
  | _, _ => 0%Z
  end.

(** [set::CopyElementFcn]: [new T(lmntT)], or [NULL] on [NULL]. As for
    [new_T] below, the [new] expression is taken to succeed: a call that an
    exception of [new] or of [T]'s copy constructor ends is outside the
    runs described here. *)
Definition CopyElementFcn (lmnt : SetElement) (w : world) : SetElement * world :=
  match lmnt with
  | None => (None, w)
  | Some lmntT => (Some lmntT, with_live Z.succ w)
  end.

(** [set::DestroyElementFcn]: [delete lmntTptr], nothing on [NULL]. *)
Definition DestroyElementFcn (lmnt : SetElement) (w : world) : world :=
  match lmnt with
  | None => w
  | Some _ => with_live Z.pred w
  end.

(** [new T(data)] and [delete] in the member functions themselves. [new]
    is taken to succeed: of all allocations only those of the engine, which
    reports a failure by its result, are allowed to fail. *)
Definition new_T (data : T) : M SetElement := λ w,
  (Ok (Some data), with_live Z.succ w).

Definition delete_T (ptr : SetElement) : M unit :=
  modify (DestroyElementFcn ptr).

(** The member [m_CSet] of the object at [this]. *)
Definition m_CSet (w : world) (this : positive) : CSet :=
  default None (objs w !! this).

Definition store_m_CSet (this : positive) (s : CSet) : world → world :=
  with_objs (alter (λ _, s) this).

Definition is_null (s : CSet) : bool :=
  match s with
  | None => true
  | Some _ => false
  end.

(** [set::set()]. The storage of the new object is at a location not in
    use; an object whose constructor throws never comes to life. *)
Definition set_ctor : M positive :=
  this <- call fresh ;;
  modify (with_objs (<[this := None]>)) ;;;
  s <- call setCreate ;;
  modify (store_m_CSet this s) ;;;
  if is_null s then
    modify (with_objs (delete this)) ;;; throw Exception
  else ret this.

(** [set::set(const set& sourceSet)]. *)
Definition set_cctor (sourceSet : positive) : M positive :=
  this <- call fresh ;;
  modify (with_objs (<[this := None]>)) ;;;
  src <- read (λ w, m_CSet w sourceSet) ;;
  s <- call (setCopy CopyElementFcn DestroyElementFcn src) ;;
  modify (store_m_CSet this s) ;;;
  if is_null s then
    modify (with_objs (delete this)) ;;; throw Exception
  else ret this.

(** [set::operator=]; the result is [*this]. *)
Definition set_assign (this sourceSet : positive) : M positive :=
  if decide (this = sourceSet) then ret this
  else
    old <- read (λ w, m_CSet w this) ;;
    modify (setDestroy DestroyElementFcn old) ;;;
    src <- read (λ w, m_CSet w sourceSet) ;;
    s <- call (setCopy CopyElementFcn DestroyElementFcn src) ;;
    modify (store_m_CSet this s) ;;;
    if is_null s then throw Exception
    else ret this.

(** [set::~set()]. *)
Definition set_dtor (this : positive) : M unit :=
  old <- read (λ w, m_CSet w this) ;;
  modify (setDestroy DestroyElementFcn old) ;;;
  modify (with_objs (delete this)).

(** [set::size() const]. *)
Definition set_size (this : positive) (w : world) : result Z :=
  if is_null (m_CSet w this) then Abort
  else Ok (setGetSize w (m_CSet w this)).

(** [set::const_iterator]. *)
Record const_iterator := ConstIterator {
  m_Owner : positive;
  m_Current : SetIterator
}.

(** [set::begin() const] and [set::cbegin() const]. *)
Definition set_begin (w : world) (this : positive) : const_iterator :=
  ConstIterator this (setGetFirst w (m_CSet w this)).

Definition set_cbegin (w : world) (this : positive) : const_iterator :=
  set_begin w this.

(** [const_iterator::operator++()]. *)
Definition operator_incr (w : world) (it : const_iterator) : const_iterator :=
  ConstIterator (m_Owner it)
                (setGetNext w (m_CSet w (m_Owner it)) (m_Current it)).

(** The dereference operator of [const_iterator]. *)
Definition operator_deref (w : world) (it : const_iterator) : result T :=
  match setGetElement w (m_CSet w (m_Owner it)) (m_Current it) with
  | None => Throw InvalidIterator
  | Some t => Ok t
  end.

(** [const_iterator::operator==] and [operator!=]. *)
Definition operator_eq (it other : const_iterator) : bool :=
  bool_decide (m_Current it = m_Current other).

Definition operator_ne (it other : const_iterator) : bool :=
  negb (operator_eq it other).

(** The loop of [set::end() const]:
    [while (iterator.m_Current != NULL) ++iterator;]. *)
Fixpoint end_loop (fuel : nat) (w : world) (iterator : const_iterator)
  : result const_iterator :=
  match m_Current iterator with
  | None => Ok iterator
  | Some _ =>
    match fuel with
    | O => OutOfFuel
    | S fuel' => end_loop fuel' w (operator_incr w iterator)
    end
  end.

(** [set::end() const] and [set::cend() const]. *)
Definition set_end (fuel : nat) (w : world) (this : positive) : result const_iterator :=
  end_loop fuel w (set_begin w this).

Definition set_cend (fuel : nat) (w : world) (this : positive) : result const_iterator :=
  set_end fuel w this.

(** The loop of [set::find]:
    from [begin()], while the position differs from [end()], return the
    position if the element it refers to [==] the argument, else advance;
    after the loop, [throw ElementNotFound()]. [end()] is evaluated anew in
    every round, with the bound [gas]. *)
Fixpoint find_loop (gas fuel : nat) (this : positive) (element : T) (w : world)
    (it : const_iterator) : result const_iterator :=
  match fuel with
  | O => OutOfFuel
  | S fuel' =>
    rbind (set_end gas w this) (λ e,
      if operator_ne it e then
        rbind (operator_deref w it) (λ v,
          if T_eq v element then Ok it
          else find_loop gas fuel' this element w (operator_incr w it))
      else Throw ElementNotFound)
  end.

(** [set::find(T const&)]. *)
Definition set_find (fuel : nat) (this : positive) (element : T) (w : world)
  : result const_iterator :=
  find_loop fuel fuel this element w (set_begin w this).

(** The loop of [set::find(T const&) const], written out a second time in
    the source. *)
Fixpoint find_const_loop (gas fuel : nat) (this : positive) (element : T) (w : world)
    (it : const_iterator) : result const_iterator :=
  match fuel with
  | O => OutOfFuel
  | S fuel' =>
    rbind (set_end gas w this) (λ e,
      if operator_ne it e then
        rbind (operator_deref w it) (λ v,
          if T_eq v element then Ok it
          else find_const_loop gas fuel' this element w (operator_incr w it))
      else Throw ElementNotFound)
  end.

(** [set::find(T const&) const]. *)
Definition set_find_const (fuel : nat) (this : positive) (element : T) (w : world)
  : result const_iterator :=
  find_const_loop fuel fuel this element w (set_begin w this).

(** [set::insert]. *)
Definition set_insert (fuel : nat) (this : positive) (data : T)
  : M (const_iterator * bool) :=
  s <- read (λ w, m_CSet w this) ;;
  assert_ (negb (is_null s)) ;;;
  dataPtr <- new_T data ;;
  res <- call (setAdd CopyElementFcn CompareElementFcn s dataPtr) ;;
  delete_T dataPtr ;;;
  assert_ (negb (bool_decide (res = SET_NULL_ARGUMENT))) ;;;
  if bool_decide (res = SET_OUT_OF_MEMORY) then throw Exception
  else if bool_decide (res = SET_ITEM_ALREADY_EXISTS) then
    it <- readr (set_find fuel this data) ;; ret (it, false)
  else
    it <- readr (set_find fuel this data) ;; ret (it, true).

(** [set::erase(T const&)]. *)
Definition set_erase (this : positive) (element : T) : M unit :=
  s <- read (λ w, m_CSet w this) ;;
  assert_ (negb (is_null s)) ;;;
  lmntNew <- new_T element ;;
  res <- call (setRemove DestroyElementFcn CompareElementFcn s lmntNew) ;;
  if bool_decide (res = SET_ITEM_DOES_NOT_EXIST) then
    delete_T lmntNew ;;; throw ElementNotFound
  else delete_T lmntNew.

(** [set::erase(const_iterator)]. *)
Definition set_erase_it (this : positive) (iter : const_iterator) : M unit :=
  element <- readr (λ w, operator_deref w iter) ;;
  set_erase this element.

(** [set::clear]. *)
Definition set_clear (this : positive) : M unit :=
  s <- read (λ w, m_CSet w this) ;;
  assert_ (negb (is_null s)) ;;;
  _ <- call (setClear DestroyElementFcn s) ;;
  ret tt.

(** The iteration of the class documentation,
    [for (it = cont.cbegin(); it != cont.end(); ++it)], collecting the
    elements it visits. *)
Fixpoint traverse_loop (gas fuel : nat) (this : positive) (w : world)
    (it : const_iterator) : result (list T) :=
  match fuel with
  | O => OutOfFuel
  | S fuel' =>
    rbind (set_end gas w this) (λ e,
      if operator_ne it e then
        rbind (operator_deref w it) (λ v,
          rbind (traverse_loop gas fuel' this w (operator_incr w it)) (λ l,
            Ok (v :: l)))
      else Ok [])
  end.

Definition traverse (fuel : nat) (this : positive) (w : world) : result (list T) :=
  traverse_loop fuel fuel this w (set_cbegin w this).

(** ** Invariants *)

(** The object at [this] owns a live handle whose slots are [sl]; the slot
    locations are pairwise different and have all been handed out. *)
Definition set_inv (w : world) (this : positive) (sl : list (positive * T)) : Prop :=
  slots_at w (m_CSet w this) = Some sl
  ∧ NoDup sl.*1
  ∧ Forall (λ p, (p < next w)%positive) sl.*1.

(** Strictly ascending under the order predicate. *)
Definition ascending (l : list T) : Prop :=
  StronglySorted (λ a b, CmpFcn a b = true) l.

(** The position of the first slot whose element [==] the argument. *)
Fixpoint find_slot (element : T) (sl : list (positive * T)) : option positive :=
  match sl with
  | [] => None
  | (p, x) :: r => if T_eq x element then Some p else find_slot element r
  end.

(** The world after an element was added at the insertion point. *)
Definition added (w : world) (h : positive) (sl' : list (positive * T)) : world :=
  World (<[h := sl']> (csets w)) (objs w) (Pos.succ (next w))
        (tail (oracle w)) (Z.succ (live w)).

(** The world after the handle [h], which held the slots [sl], was
    cleared. *)
Definition cleared (w : world) (h : positive) (sl : list (positive * T)) : world :=
  World (<[h := []]> (csets w)) (objs w) (next w) (oracle w)
        (live w - Z.of_nat (length sl)).

(** The world after an allocation request was refused. *)
Definition refused (w : world) : world :=
  World (csets w) (objs w) (next w) (tail (oracle w)) (live w).

(** A sequence of [insert] calls on one set, each in the state the previous
    one left, whatever its outcome. *)
Definition run_inserts (fuel : nat) (this : positive) (vs : list T) (w : world) : world :=
  foldl (λ w' v, (set_insert fuel this v w').2) w vs.

(** The assumption of the data model on the comparison rule: a strict total
    order on [T]. With it, two values that are not ordered either way are
    the same value, and [T::operator==] is taken to be that equality. *)
Record strict_total_order : Prop := StrictTotalOrder {
  lt_irrefl : ∀ a, CmpFcn a a = false;
  lt_trans : ∀ a b c, CmpFcn a b = true → CmpFcn b c = true → CmpFcn a c = true;
  lt_total : ∀ a b, CmpFcn a b = false → CmpFcn b a = false → a = b;
  eq_spec : ∀ a b, T_eq a b = true ↔ a = b
}.

(** The calls that change a set, and a sequence of them on the object at
    [this], each in the state the previous one left, whatever its outcome. *)
Inductive mutation :=
  | MInsert (v : T)
  | MErase (v : T)
  | MEraseAt (iter : const_iterator)
  | MClear.

Definition mutate (fuel : nat) (this : positive) (m : mutation) (w : world) : world :=
  match m with
  | MInsert v => (set_insert fuel this v w).2
  | MErase v => (set_erase this v w).2
  | MEraseAt iter => (set_erase_it this iter w).2
  | MClear => (set_clear this w).2
  end.

Definition run_mutations (fuel : nat) (this : positive) (ms : list mutation)
    (w : world) : world :=
  foldl (λ w' m, mutate fuel this m w') w ms.

(** No sequence of changes of the set at [a] changes what [size], [find]
    and the iteration answer for the set at [b]. *)
Definition isolated (w : world) (a b : positive) : Prop :=
  ∀ fuel ms,
    let w' := run_mutations fuel a ms w in
    set_size b w' = set_size b w
    ∧ (∀ f v, set_find f b v w' = set_find f b v w)
    ∧ (∀ f, traverse f b w' = traverse f b w).

(** Every live object and every live handle lies at a location that has
    been handed out. *)
Definition world_wf (w : world) : Prop :=
  map_Forall (λ o _, (o < next w)%positive) (objs w)
  ∧ map_Forall (λ h _, (h < next w)%positive) (csets w).

(** The memory before anything was created. *)
Definition empty_world : world := World ∅ ∅ 1%positive [] 0%Z.

(** [w'] differs from [w] at most in the slots of the handle [s], the
    address supply, which can only have advanced, the coming allocation
    outcomes and the count of live [T] objects; no handle has come to
    life. *)
Definition same_but (s : CSet) (w w' : world) : Prop :=
  objs w' = objs w
  ∧ (∀ h', s ≠ Some h' → csets w' !! h' = csets w !! h')
  ∧ (next w ≤ next w')%positive
  ∧ (∀ h', is_Some (csets w' !! h') → is_Some (csets w !! h')).

(** The calls of a program that uses sets, and a run of them from a given
    memory, whatever the outcome of each call. *)
Inductive command :=
  | Construct
  | CopyConstruct (sourceSet : positive)
  | Assign (this sourceSet : positive)
  | Destroy (this : positive)
  | Mutate (this : positive) (m : mutation).

Definition exec (fuel : nat) (c : command) (w : world) : world :=
  match c with
  | Construct => (set_ctor w).2
  | CopyConstruct sourceSet => (set_cctor sourceSet w).2
  | Assign this sourceSet => (set_assign this sourceSet w).2
  | Destroy this => (set_dtor this w).2
  | Mutate this m => mutate fuel this m w
  end.

Definition run (fuel : nat) (cs : list command) (w : world) : world :=
  foldl (λ w' c, exec fuel c w') w cs.

(** The invariant of the whole memory: locations in use have been handed
    out, every object with a handle owns a well-formed ascending set, and
    no handle is owned by two objects. *)
Definition good (w : world) : Prop :=
  world_wf w
  ∧ (∀ o h, objs w !! o = Some (Some h) → ∃ sl, set_inv w o sl ∧ ascending sl.*2)
  ∧ (∀ o1 o2 h, objs w !! o1 = Some (Some h) → objs w !! o2 = Some (Some h) → o1 = o2).

(** The set at [cpy] is an independent copy of the set at [src], whose
    slots are [sl]: another object with another handle and other slots,
    holding the same elements in the same order, such that changes of one
    of the two sets are not seen through the other. *)
Definition copied (w : world) (src : positive) (sl : list (positive * T))
    (cpy : positive) : Prop :=
  cpy ≠ src
  ∧ m_CSet w cpy ≠ m_CSet w src
  ∧ set_inv w src sl
  ∧ (∃ slc, set_inv w cpy slc ∧ slc.*2 = sl.*2 ∧ ∀ p, p ∈ slc.*1 → p ∉ sl.*1)
  ∧ isolated w src cpy
  ∧ isolated w cpy src.

(** The set at [cpy] in [w1] was made anew since [w]: its handle was not
    live in [w], and its slots lie at locations that had not been handed
    out in [w]; they hold the elements [sl] holds, in the same order. *)
Definition made_anew (w w1 : world) (sl : list (positive * T)) (cpy : positive)
  : Prop :=
  ∃ hc slc,
    objs w1 !! cpy = Some (Some hc)
    ∧ csets w !! hc = None
    ∧ csets w1 !! hc = Some slc
    ∧ slc.*2 = sl.*2
    ∧ Forall (λ p, (next w ≤ p)%positive) slc.*1.

(** The sets at [src] and [cpy] own their elements separately: the
    destructor of either frees as many [T] objects as [sl] has elements and
    leaves the other set with all its slots. *)
Definition separately_destroyed (w1 : world) (src : positive)
    (sl : list (positive * T)) (cpy : positive) : Prop :=
  ∃ slc,
    set_inv w1 cpy slc
    ∧ length slc = length sl
    ∧ (∃ w2, set_dtor cpy w1 = (Ok tt, w2)
             ∧ live w2 = (live w1 - Z.of_nat (length sl))%Z
             ∧ objs w2 !! cpy = None
             ∧ set_inv w2 src sl)
    ∧ (∃ w2, set_dtor src w1 = (Ok tt, w2)
             ∧ live w2 = (live w1 - Z.of_nat (length sl))%Z
             ∧ objs w2 !! src = None
             ∧ set_inv w2 cpy slc).






(** [const_iterator::operator++(int)]: the result is a copy of the
    iterator as it was, the iterator itself has advanced. The pair is the
    result and the iterator afterwards. *)
Definition operator_incr_post (w : world) (it : const_iterator)
  : const_iterator * const_iterator :=
  let newIterator := it in
  (newIterator, operator_incr w it).

(** The macro [SET_FOREACH(iterator, set)] of [mtm_set.h]: the loop
    variable starts at [setGetFirst(set)], the loop runs while it is not
    [NULL] and goes on with [setGetNext(set, iterator)]. The body taken
    here records the iterator and what [setGetElement] gives for it. *)
Fixpoint SET_FOREACH_loop (fuel : nat) (w : world) (s : CSet) (iterator : SetIterator)
  : result (list (positive * SetElement)) :=
  match iterator with
  | None => Ok []
  | Some p =>
    match fuel with
    | O => OutOfFuel
    | S fuel' =>
      rbind (SET_FOREACH_loop fuel' w s (setGetNext w s iterator)) (λ l,
        Ok ((p, setGetElement w s iterator) :: l))
    end
  end.

Definition SET_FOREACH (fuel : nat) (w : world) (s : CSet)
  : result (list (positive * SetElement)) :=
  SET_FOREACH_loop fuel w s (setGetFirst w s).





(** ** Walking the slots *)

Lemma slot_get_middle (pre : list (positive * T)) p x rest :
  p ∉ pre.*1 → slot_get (pre ++ (p, x) :: rest) p = Some x.
Proof.
  induction pre as [|[q e] pre IH]; simpl; intros Hp.
  - by rewrite decide_True.
  - apply not_elem_of_cons in Hp as [Hne Hp].
    rewrite decide_False; [|congruence]. by apply IH.
Qed.

Lemma slot_next_middle (pre : list (positive * T)) p x rest :
  p ∉ pre.*1 → slot_next (pre ++ (p, x) :: rest) p = slot_first rest.
Proof.
  induction pre as [|[q e] pre IH]; simpl; intros Hp.
  - by rewrite decide_True.
  - apply not_elem_of_cons in Hp as [Hne Hp].
    rewrite decide_False; [|congruence]. by apply IH.
Qed.

Lemma slot_get_absent (sl : list (positive * T)) p :
  p ∉ sl.*1 → slot_get sl p = None.
Proof.
  induction sl as [|[q e] sl IH]; simpl; intros Hp; [done|].
  apply not_elem_of_cons in Hp as [Hne Hp].
  rewrite decide_False; [|congruence]. by apply IH.
Qed.

Lemma NoDup_middle (pre : list (positive * T)) p x rest :
  NoDup (pre ++ (p, x) :: rest).*1 → p ∉ pre.*1.
Proof.
  rewrite fmap_app. simpl. intros [_ [Hd _]]%NoDup_app Hin.
  apply (Hd p Hin). left.
Qed.

Lemma slot_next_absent (sl : list (positive * T)) p :
  p ∉ sl.*1 → slot_next sl p = None.
Proof.
  induction sl as [|[q e] sl IH]; simpl; intros Hp; [done|].
  apply not_elem_of_cons in Hp as [Hne Hp].
  rewrite decide_False; [|congruence]. by apply IH.
Qed.

Lemma SET_FOREACH_loop_suffix (w : world) (s : CSet) (sl : list (positive * T)) :
  slots_at w s = Some sl → NoDup sl.*1 →
  ∀ rest pre fuel,
    sl = pre ++ rest → length rest ≤ fuel →
    SET_FOREACH_loop fuel w s (slot_first rest)
    = Ok ((λ x, (x.1, Some x.2)) <$> rest).
Proof.
  intros Hs Hnd rest.
  induction rest as [|[p x] rest IH]; intros pre fuel E Hf; [by destruct fuel|].
  destruct fuel as [|fuel]; simpl in Hf; [lia|]. simpl.
  unfold setGetNext, setGetElement. rewrite Hs. simpl.
  assert (p ∉ pre.*1) as Hp.
  { apply (NoDup_middle pre p x rest). by rewrite <- E. }
  rewrite E, slot_next_middle, slot_get_middle by done.
  rewrite (IH (pre ++ [(p, x)])); [done | by rewrite <- app_assoc | lia].
Qed.

Section Walk.

Variables (w : world) (this : positive) (sl : list (positive * T)).
Hypothesis Hsl : slots_at w (m_CSet w this) = Some sl.
Hypothesis Hnd : NoDup sl.*1.

Lemma deref_middle pre p x rest :
  sl = pre ++ (p, x) :: rest →
  operator_deref w (ConstIterator this (Some p)) = Ok x.
Proof using Hsl Hnd.
  intros E. unfold operator_deref, setGetElement. simpl. rewrite Hsl. simpl.
  rewrite E, slot_get_middle; [done|]. apply (NoDup_middle _ _ x rest). by rewrite <- E.
Qed.

Lemma incr_middle pre p x rest :
  sl = pre ++ (p, x) :: rest →
  operator_incr w (ConstIterator this (Some p)) = ConstIterator this (slot_first rest).
Proof using Hsl Hnd.
  intros E. unfold operator_incr, setGetNext. simpl. rewrite Hsl. simpl.
  rewrite E, slot_next_middle; [done|]. apply (NoDup_middle _ _ x rest). by rewrite <- E.
Qed.

Lemma begin_eq : set_begin w this = ConstIterator this (slot_first sl).
Proof using Hsl.
  unfold set_begin, setGetFirst. by rewrite Hsl.
Qed.

Lemma end_loop_suffix rest : ∀ pre fuel,
  sl = pre ++ rest → length rest ≤ fuel →
  end_loop fuel w (ConstIterator this (slot_first rest)) = Ok (ConstIterator this None).
Proof using Hsl Hnd.
  induction rest as [|[p x] rest IH]; intros pre fuel E Hf.
  - by destruct fuel.
  - destruct fuel as [|fuel]; simpl in Hf; [lia|]. simpl.
    rewrite (incr_middle pre p x rest E).
    apply (IH (pre ++ [(p, x)])); [by rewrite <- app_assoc | lia].
Qed.

Lemma set_end_eq fuel :
  length sl ≤ fuel → set_end fuel w this = Ok (ConstIterator this None).
Proof using Hsl Hnd.
  intros Hf. unfold set_end. rewrite begin_eq. by apply (end_loop_suffix sl []).
Qed.

Lemma find_loop_suffix gas element rest : ∀ pre fuel,
  length sl ≤ gas → sl = pre ++ rest → length rest < fuel →
  find_loop gas fuel this element w (ConstIterator this (slot_first rest)) =
  match find_slot element rest with
  | Some p => Ok (ConstIterator this (Some p))
  | None => Throw ElementNotFound
  end.
Proof using Hsl Hnd.
  induction rest as [|[p x] rest IH]; intros pre fuel Hg E Hf;
    (destruct fuel as [|fuel]; simpl in Hf; [lia|]); simpl;
    rewrite (set_end_eq gas Hg); simpl; [done|].
  rewrite (deref_middle pre p x rest E). simpl.
  destruct (T_eq x element); [done|].
  rewrite (incr_middle pre p x rest E).
  apply (IH (pre ++ [(p, x)])); [done | by rewrite <- app_assoc | lia].
Qed.

Lemma set_find_eq fuel element :
  length sl < fuel →
  set_find fuel this element w =
  match find_slot element sl with
  | Some p => Ok (ConstIterator this (Some p))
  | None => Throw ElementNotFound
  end.
Proof using Hsl Hnd.
  intros Hf. unfold set_find. rewrite begin_eq.
  apply (find_loop_suffix fuel element sl []); [lia | done | done].
Qed.

Lemma traverse_loop_suffix gas rest : ∀ pre fuel,
  length sl ≤ gas → sl = pre ++ rest → length rest < fuel →
  traverse_loop gas fuel this w (ConstIterator this (slot_first rest)) = Ok rest.*2.
Proof using Hsl Hnd.
  induction rest as [|[p x] rest IH]; intros pre fuel Hg E Hf;
    (destruct fuel as [|fuel]; simpl in Hf; [lia|]); simpl;
    rewrite (set_end_eq gas Hg); simpl; [done|].
  rewrite (deref_middle pre p x rest E). simpl.
  rewrite (incr_middle pre p x rest E).
  rewrite (IH (pre ++ [(p, x)])); [done | done | by rewrite <- app_assoc | lia].
Qed.

Lemma traverse_eq fuel :
  length sl < fuel → traverse fuel this w = Ok sl.*2.
Proof using Hsl Hnd.
  intros Hf. unfold traverse, set_cbegin. rewrite begin_eq.
  apply (traverse_loop_suffix fuel sl []); [lia | done | done].
Qed.

End Walk.

(** ** The comparison trampoline and the scan *)

Arguments CompareElementFcn : simpl never.

Lemma compare_lt e v :
  (CompareElementFcn (Some e) (Some v) <? 0)%Z = CmpFcn e v.
Proof. unfold CompareElementFcn. by destruct (CmpFcn e v), (CmpFcn v e). Qed.

Lemma compare_zero_iff e v :
  CompareElementFcn (Some e) (Some v) = 0%Z ↔ CmpFcn e v = false ∧ CmpFcn v e = false.
Proof.
  unfold CompareElementFcn. destruct (CmpFcn e v), (CmpFcn v e); split; intros H;
    try done; by destruct H.
Qed.

Lemma compare_eqb e v :
  (CompareElementFcn (Some e) (Some v) =? 0)%Z = negb (CmpFcn e v) && negb (CmpFcn v e).
Proof. unfold CompareElementFcn. by destruct (CmpFcn e v), (CmpFcn v e). Qed.

Lemma scan_spec v sl : ∀ before rest,
  scan CompareElementFcn (Some v) sl = (before, rest) →
  sl = before ++ rest
  ∧ Forall (λ s, CmpFcn s.2 v = true) before
  ∧ (∀ q e after, rest = (q, e) :: after → CmpFcn e v = false).
Proof.
  induction sl as [|[p e] sl IH]; simpl; intros before rest E.
  - injection E as <- <-. split_and!; [done | constructor | done].
  - rewrite compare_lt in E. destruct (CmpFcn e v) eqn:Hlt.
    + destruct (scan CompareElementFcn (Some v) sl) as [b r] eqn:Hs.
      injection E as <- <-. destruct (IH b r eq_refl) as (-> & Hb & Hr).
      split_and!; [done | by constructor | done].
    + injection E as <- <-. split_and!; [done | constructor |].
      intros q e' after [= <- <- <-]. done.
Qed.

(** ** What the engine calls of the adapter do *)

Lemma slots_at_Some w h : slots_at w (Some h) = csets w !! h.
Proof. done. Qed.

Lemma world_eta (w : world) :
  World (csets w) (objs w) (next w) (oracle w) (live w) = w.
Proof. by destruct w. Qed.

Lemma setAdd_eq w h sl v before rest :
  csets w !! h = Some sl →
  scan CompareElementFcn (Some v) sl = (before, rest) →
  setAdd CopyElementFcn CompareElementFcn (Some h) (Some v) w =
  if stopped_at_equal CompareElementFcn (Some v) rest then (SET_ITEM_ALREADY_EXISTS, w)
  else match oracle w with
       | false :: _ => (SET_OUT_OF_MEMORY, refused w)
       | _ => (SET_SUCCESS, added w h (before ++ (next w, v) :: rest))
       end.
Proof.
  intros Hh Hs. unfold setAdd. rewrite slots_at_Some, Hh, Hs.
  destruct (stopped_at_equal _ _ _); [done|].
  unfold alloc, added, refused. destruct w as [c o n orc l]. simpl.
  destruct orc as [|[] orc]; done.
Qed.

Lemma setRemove_eq w h sl v before rest :
  csets w !! h = Some sl →
  scan CompareElementFcn (Some v) sl = (before, rest) →
  setRemove DestroyElementFcn CompareElementFcn (Some h) (Some v) w =
  match rest with
  | (_, e) :: after =>
    if (CompareElementFcn (Some e) (Some v) =? 0)%Z then
      (SET_SUCCESS, with_csets (<[h := before ++ after]>) (with_live Z.pred w))
    else (SET_ITEM_DOES_NOT_EXIST, w)
  | [] => (SET_ITEM_DOES_NOT_EXIST, w)
  end.
Proof.
  intros Hh Hs. unfold setRemove. rewrite slots_at_Some, Hh, Hs.
  by destruct rest as [|[q e] after].
Qed.

Lemma m_CSet_eq w this (s : option positive) :
  objs w !! this = Some s → m_CSet w this = s.
Proof. unfold m_CSet. by intros ->. Qed.

(** [set::insert], case by case. *)
Lemma set_insert_eq fuel w this h sl v before rest :
  objs w !! this = Some (Some h) →
  csets w !! h = Some sl →
  scan CompareElementFcn (Some v) sl = (before, rest) →
  set_insert fuel this v w =
  if stopped_at_equal CompareElementFcn (Some v) rest then
    (rbind (set_find fuel this v w) (λ it, Ok (it, false)), w)
  else match oracle w with
       | false :: _ => (Throw Exception, refused w)
       | _ =>
         let w' := added w h (before ++ (next w, v) :: rest) in
         (rbind (set_find fuel this v w') (λ it, Ok (it, true)), w')
       end.
Proof.
  intros Ho Hh Hs. unfold set_insert, bind, read, assert_, new_T, call. simpl.
  rewrite (m_CSet_eq _ _ _ Ho). simpl.
  rewrite (setAdd_eq (with_live Z.succ w) h sl v before rest Hh Hs).
  destruct (stopped_at_equal _ _ _); simpl.
  - unfold with_live. simpl. rewrite Z.pred_succ, world_eta.
    unfold readr, ret. by destruct (set_find fuel this v w).
  - destruct (oracle w) as [|[] orc] eqn:Horc; simpl;
      unfold with_live, added, refused; simpl; rewrite ?Z.pred_succ, ?Horc; simpl;
      try done;
      unfold readr, ret;
      match goal with |- context [set_find ?f ?t ?x ?y] => by destruct (set_find f t x y) end.
Qed.

Lemma set_inv_handle w this sl :
  set_inv w this sl →
  ∃ h, objs w !! this = Some (Some h) ∧ csets w !! h = Some sl.
Proof.
  intros (Hs & _ & _). unfold slots_at, m_CSet in Hs.
  destruct (objs w !! this) as [[h|]|] eqn:Ho; simpl in Hs; try done.
  by exists h.
Qed.

Lemma set_inv_intro w this h sl :
  objs w !! this = Some (Some h) → csets w !! h = Some sl →
  NoDup sl.*1 → Forall (λ p, (p < next w)%positive) sl.*1 →
  set_inv w this sl.
Proof.
  intros Ho Hh Hnd Hlt. split_and!; [|done|done].
  by rewrite (m_CSet_eq _ _ _ Ho), slots_at_Some.
Qed.

(** ** Insertion keeps the slots well formed and ascending *)

Lemma stopped_at_equal_false v rest :
  stopped_at_equal CompareElementFcn (Some v) rest = false →
  (∀ q e after, rest = (q, e) :: after → CmpFcn e v = false) →
  ∀ q e after, rest = (q, e) :: after → CmpFcn v e = true.
Proof.
  intros Hst Hge q e after ->. simpl in Hst.
  rewrite compare_eqb, (Hge q e after eq_refl) in Hst. simpl in Hst.
  by destruct (CmpFcn v e).
Qed.

Lemma ascending_added (sl : list (positive * T)) v before rest p :
  (∀ a b c, CmpFcn a b = true → CmpFcn b c = true → CmpFcn a c = true) →
  scan CompareElementFcn (Some v) sl = (before, rest) →
  stopped_at_equal CompareElementFcn (Some v) rest = false →
  ascending sl.*2 → ascending (before ++ (p, v) :: rest).*2.
Proof.
  intros Htr Hs Hst Hasc. destruct (scan_spec _ _ _ _ Hs) as (-> & Hb & Hr).
  pose proof (stopped_at_equal_false _ _ Hst Hr) as Hgt.
  unfold ascending in *. rewrite fmap_app in *. simpl.
  apply StronglySorted_app in Hasc as (Hx & Hsb & Hsr).
  assert (Forall (λ b, CmpFcn v b = true) rest.*2) as Hv.
  { destruct rest as [|[q e] after]; [constructor|]. simpl in *.
    apply StronglySorted_cons in Hsr as [Hall _].
    pose proof (Hgt q e after eq_refl) as Hve.
    constructor; [done|]. eapply Forall_impl; [exact Hall|].
    simpl. eauto. }
  apply StronglySorted_app_2; [|done|by constructor].
  intros x1 x2 H1 [->|H2]%elem_of_cons; [|by apply Hx].
  apply list_elem_of_fmap in H1 as ([q e] & -> & Hin).
  by apply (proj1 (Forall_forall _ _) Hb _ Hin).
Qed.

Lemma wf_added (sl : list (positive * T)) v before rest n :
  sl = before ++ rest →
  NoDup sl.*1 → Forall (λ p, (p < n)%positive) sl.*1 →
  NoDup (before ++ (n, v) :: rest).*1
  ∧ Forall (λ p, (p < Pos.succ n)%positive) (before ++ (n, v) :: rest).*1.
Proof.
  intros -> Hnd Hlt. rewrite fmap_app in *. simpl.
  apply Forall_app in Hlt as [Hl1 Hl2].
  apply NoDup_app in Hnd as (Hn1 & Hn12 & Hn2).
  rewrite Forall_forall in Hl1, Hl2. split.
  - apply NoDup_app. split_and!; [done| |].
    + intros x Hx [->|Hx2]%elem_of_cons; [|by apply (Hn12 x)].
      specialize (Hl1 _ Hx). lia.
    + apply NoDup_cons. split; [|done]. intros Hx. specialize (Hl2 _ Hx). lia.
  - apply Forall_app. split; [|constructor; [lia|]];
      apply Forall_forall; intros x Hx;
      [specialize (Hl1 _ Hx) | specialize (Hl2 _ Hx)]; lia.
Qed.

Lemma set_insert_inv fuel w this sl v :
  (∀ a b c, CmpFcn a b = true → CmpFcn b c = true → CmpFcn a c = true) →
  set_inv w this sl → ascending sl.*2 →
  ∃ sl', set_inv (set_insert fuel this v w).2 this sl'
         ∧ ascending sl'.*2 ∧ length sl' ≤ S (length sl).
Proof.
  intros Htr Hinv Hasc. destruct (set_inv_handle _ _ _ Hinv) as (h & Ho & Hh).
  destruct Hinv as (_ & Hnd & Hlt).
  destruct (scan CompareElementFcn (Some v) sl) as [before rest] eqn:Hs.
  rewrite (set_insert_eq fuel w this h sl v before rest Ho Hh Hs).
  destruct (stopped_at_equal _ _ _) eqn:Hst; simpl.
  { exists sl. split_and!; [by apply (set_inv_intro _ _ h) | done | lia]. }
  assert (set_inv (refused w) this sl) as Href by by apply (set_inv_intro _ _ h).
  destruct (scan_spec _ _ _ _ Hs) as (E & _ & _).
  destruct (wf_added sl v before rest (next w) E Hnd Hlt) as [Hnd' Hlt'].
  assert (set_inv (added w h (before ++ (next w, v) :: rest)) this
                  (before ++ (next w, v) :: rest)) as Hadd.
  { apply (set_inv_intro _ _ h); [done | apply lookup_insert_eq | done | done]. }
  assert (length (before ++ (next w, v) :: rest) ≤ S (length sl)) as Hlen.
  { rewrite E, !length_app. simpl. lia. }
  pose proof (ascending_added sl v before rest (next w) Htr Hs Hst Hasc) as Hasc'.
  destruct (oracle w) as [|[] orc]; simpl; eauto 6.
Qed.

Lemma run_inserts_inv fuel this vs : ∀ w sl,
  (∀ a b c, CmpFcn a b = true → CmpFcn b c = true → CmpFcn a c = true) →
  set_inv w this sl → ascending sl.*2 →
  ∃ sl', set_inv (run_inserts fuel this vs w) this sl'
         ∧ ascending sl'.*2 ∧ length sl' ≤ length sl + length vs.
Proof.
  induction vs as [|v vs IH]; intros w sl Htr Hinv Hasc; simpl.
  - exists sl. split_and!; [done | done | lia].
  - destruct (set_insert_inv fuel w this sl v Htr Hinv Hasc) as (sl1 & H1 & A1 & L1).
    destruct (IH _ sl1 Htr H1 A1) as (sl2 & H2 & A2 & L2).
    exists sl2. split_and!; [done | done | lia].
Qed.

Lemma ascending_distinct l :
  ascending l →
  ∀ i j x y, i < j → l !! i = Some x → l !! j = Some y →
    CmpFcn x y = true
    ∧ CompareElementFcn (Some x) (Some y) ≠ 0%Z
    ∧ CompareElementFcn (Some y) (Some x) ≠ 0%Z.
Proof.
  induction 1 as [|a l Hs IH Hall]; intros i j x y Hij Hi Hj; [done|].
  destruct j as [|j]; [lia|]. simpl in Hj. destruct i as [|i]; simpl in Hi.
  - injection Hi as ->.
    assert (CmpFcn x y = true) as Hxy.
    { apply (proj1 (Forall_forall _ _) Hall). by eapply list_elem_of_lookup_2. }
    split; [done|]. rewrite !compare_zero_iff. split; intros [? ?]; congruence.
  - apply (IH i j); [lia | done | done].
Qed.

(** The state a successful default construction leaves. *)
Lemma set_ctor_inv w0 w1 this :
  set_ctor w0 = (Ok this, w1) → set_inv w1 this [].
Proof.
  unfold set_ctor, bind, call, modify, setCreate, alloc, fresh, store_m_CSet. simpl.
  destruct (oracle w0) as [|[] orc]; simpl; try done;
    intros [= <- <-];
    (apply (set_inv_intro _ _ (Pos.succ (next w0))); simpl;
     [ by rewrite lookup_alter_eq, lookup_insert_eq
     | apply lookup_insert_eq | constructor | constructor ]).
Qed.

(** ** The loop of [end()] and the freeing of slots *)

Lemma end_loop_null fuel w : ∀ it e,
  end_loop fuel w it = Ok e → m_Current e = None.
Proof.
  induction fuel as [|fuel IH]; intros it e; simpl;
    destruct (m_Current it) eqn:Hc; try done.
  - by intros [= <-].
  - apply IH.
  - by intros [= <-].
Qed.

Lemma end_loop_owner fuel w : ∀ it e,
  end_loop fuel w it = Ok e → m_Owner e = m_Owner it.
Proof.
  induction fuel as [|fuel IH]; intros it e; simpl;
    destruct (m_Current it) eqn:Hc; try done.
  - by intros [= <-].
  - intros He. by rewrite (IH _ _ He).
  - by intros [= <-].
Qed.

Lemma free_slots_eq (sl : list (positive * T)) : ∀ w,
  free_slots DestroyElementFcn sl w =
  World (csets w) (objs w) (next w) (oracle w) (live w - Z.of_nat (length sl)).
Proof.
  unfold free_slots. induction sl as [|[p e] sl IH]; intros w; simpl.
  - rewrite Z.sub_0_r. by rewrite world_eta.
  - rewrite IH. unfold with_live. simpl. f_equal. lia.
Qed.

(** ** [find] *)

Lemma find_const_loop_eq gas fuel this element w : ∀ it,
  find_const_loop gas fuel this element w it = find_loop gas fuel this element w it.
Proof.
  induction fuel as [|fuel IH]; intros it; simpl; [done|].
  destruct (set_end gas w this) as [e| | |]; simpl; [|reflexivity..].
  destruct (operator_ne it e); [|reflexivity].
  destruct (operator_deref w it) as [x| | |]; simpl; [|reflexivity..].
  destruct (T_eq x element); [reflexivity | apply IH].
Qed.

Lemma find_slot_Some element (sl : list (positive * T)) p :
  find_slot element sl = Some p →
  ∃ pre e rest, sl = pre ++ (p, e) :: rest ∧ T_eq e element = true
                ∧ Forall (λ s, T_eq s.2 element = false) pre.
Proof.
  induction sl as [|[q x] sl IH]; simpl; [done|].
  destruct (T_eq x element) eqn:Hx.
  - intros [= ->]. exists [], x, sl. split_and!; [done | done | constructor].
  - intros (pre & e & rest & -> & He & Hpre)%IH.
    exists ((q, x) :: pre), e, rest. split_and!; [done | done | by constructor].
Qed.

Lemma find_slot_None element (sl : list (positive * T)) :
  find_slot element sl = None ↔ ∀ e, e ∈ sl.*2 → T_eq e element = false.
Proof.
  induction sl as [|[q x] sl IH]; simpl.
  - split; [intros _ e He; by apply elem_of_nil in He | done].
  - destruct (T_eq x element) eqn:Hx.
    + split; [done|]. intros H. specialize (H x). rewrite Hx in H.
      discriminate H. left.
    + rewrite IH. split.
      * intros H e [->|He]%elem_of_cons; [done | by apply H].
      * intros H e He. apply H. by right.
Qed.

(** C3. [find(v)] walks the positions from [begin()] to [end()] and
    compares the elements with [v] by [==]. If some stored element [==] [v],
    it returns a position, namely the first one in iteration order whose
    element [==] [v], and dereferencing that position yields this element.
    If no stored element [==] [v], it throws [ElementNotFound]. The [const]
    overload gives the same result on every input. *)
Theorem find_match_or_ElementNotFound (w : world) (this : positive)
    (sl : list (positive * T)) (fuel : nat) (v : T) :
  set_inv w this sl →
  length sl < fuel →
  (∀ e, e ∈ sl.*2 → T_eq e v = true →
     ∃ p e' pre rest,
       set_find fuel this v w = Ok (ConstIterator this (Some p))
       ∧ operator_deref w (ConstIterator this (Some p)) = Ok e'
       ∧ T_eq e' v = true
       ∧ sl = pre ++ (p, e') :: rest
       ∧ Forall (λ s, T_eq s.2 v = false) pre)
  ∧ ((∀ e, e ∈ sl.*2 → T_eq e v = false) →
     set_find fuel this v w = Throw ElementNotFound)
  ∧ set_find_const fuel this v w = set_find fuel this v w.
Proof.
  intros (Hs & Hnd & _) Hf. rewrite (set_find_eq w this sl Hs Hnd fuel v Hf).
  split_and!.
  - intros e He Hev. destruct (find_slot v sl) as [p|] eqn:Hfs.
    + destruct (find_slot_Some _ _ _ Hfs) as (pre & e' & rest & E & He' & Hpre).
      exists p, e', pre, rest. split_and!; try done.
      by apply (deref_middle w this sl Hs Hnd pre p e' rest).
    + rewrite find_slot_None in Hfs. rewrite (Hfs e He) in Hev. done.
  - intros Hno. apply find_slot_None in Hno. by rewrite Hno.
  - unfold set_find_const. rewrite find_const_loop_eq.
    by apply (set_find_eq w this sl Hs Hnd fuel v Hf).
Qed.

(** ** [size] and [erase], case by case *)

Lemma set_size_eq w this sl :
  set_inv w this sl → set_size this w = Ok (Z.of_nat (length sl)).
Proof.
  intros Hinv. destruct (set_inv_handle _ _ _ Hinv) as (h & Ho & Hh).
  unfold set_size, setGetSize. by rewrite (m_CSet_eq _ _ _ Ho), slots_at_Some, Hh.
Qed.

(** [set::erase(T const&)], case by case. *)
Lemma set_erase_eq w this h sl v before rest :
  objs w !! this = Some (Some h) →
  csets w !! h = Some sl →
  scan CompareElementFcn (Some v) sl = (before, rest) →
  set_erase this v w =
  match rest with
  | (_, e) :: after =>
    if (CompareElementFcn (Some e) (Some v) =? 0)%Z then
      (Ok tt, World (<[h := before ++ after]> (csets w)) (objs w) (next w)
                    (oracle w) (Z.pred (live w)))
    else (Throw ElementNotFound, w)
  | [] => (Throw ElementNotFound, w)
  end.
Proof.
  intros Ho Hh Hs. unfold set_erase, bind, read, assert_, new_T, call. simpl.
  rewrite (m_CSet_eq _ _ _ Ho). simpl.
  rewrite (setRemove_eq (with_live Z.succ w) h sl v before rest Hh Hs).
  destruct rest as [|[q e] after]; simpl.
  - unfold with_live. simpl. by rewrite Z.pred_succ, world_eta.
  - destruct (CompareElementFcn (Some e) (Some v) =? 0)%Z; simpl;
      unfold with_live, with_csets; simpl; by rewrite Z.pred_succ, ?world_eta.
Qed.

(** ** Consequences of the strict total order *)

Section Order.

Hypothesis Hsto : strict_total_order.

Lemma compare_zero_eq e v :
  CompareElementFcn (Some e) (Some v) = 0%Z ↔ e = v.
Proof using Hsto.
  rewrite compare_zero_iff. split.
  - intros [H1 H2]. by apply (lt_total Hsto).
  - intros ->. split; apply (lt_irrefl Hsto).
Qed.

Lemma lt_ne e v : CmpFcn e v = true → e ≠ v ∧ v ≠ e.
Proof using Hsto.
  intros Hlt. split; intros ->; by rewrite (lt_irrefl Hsto) in Hlt.
Qed.

Lemma T_eq_ne e v : e ≠ v → T_eq e v = false.
Proof using Hsto.
  intros Hne. destruct (T_eq e v) eqn:E; [|done]. by apply (eq_spec Hsto) in E.
Qed.

Lemma T_eq_refl v : T_eq v v = true.
Proof using Hsto. by apply (eq_spec Hsto). Qed.

Lemma scan_hit (sl : list (positive * T)) v before rest :
  ascending sl.*2 →
  scan CompareElementFcn (Some v) sl = (before, rest) →
  v ∈ sl.*2 →
  ∃ q after, rest = (q, v) :: after.
Proof using Hsto.
  intros Hasc Hs Hv. destruct (scan_spec _ _ _ _ Hs) as (-> & Hb & Hr).
  rewrite fmap_app in Hv, Hasc. apply elem_of_app in Hv as [Hv|Hv].
  { apply list_elem_of_fmap in Hv as ([q e] & -> & Hin).
    apply (proj1 (Forall_forall _ _) Hb) in Hin. simpl in Hin.
    by rewrite (lt_irrefl Hsto) in Hin. }
  destruct rest as [|[q e] after]; [by apply elem_of_nil in Hv|].
  simpl in Hv. apply elem_of_cons in Hv as [->|Hv]; [by eauto|].
  apply StronglySorted_app_1_r in Hasc. simpl in Hasc.
  apply StronglySorted_cons in Hasc as [Hall _].
  apply (proj1 (Forall_forall _ _) Hall) in Hv.
  by rewrite (Hr q e after eq_refl) in Hv.
Qed.

Lemma scan_miss (sl : list (positive * T)) v before rest :
  scan CompareElementFcn (Some v) sl = (before, rest) →
  (∀ e, e ∈ sl.*2 → CompareElementFcn (Some e) (Some v) ≠ 0%Z) →
  stopped_at_equal CompareElementFcn (Some v) rest = false.
Proof using Hsto.
  intros Hs Hno. destruct (scan_spec _ _ _ _ Hs) as (-> & _ & _).
  destruct rest as [|[q e] after]; [done|]. simpl.
  apply Z.eqb_neq, Hno. rewrite fmap_app. apply elem_of_app. right. left.
Qed.

Lemma stopped_at_self q v after :
  stopped_at_equal CompareElementFcn (Some v) ((q, v) :: after) = true.
Proof using Hsto. simpl. by apply Z.eqb_eq, compare_zero_eq. Qed.

Lemma find_slot_at (before : list (positive * T)) p v rest :
  Forall (λ s, CmpFcn s.2 v = true) before →
  find_slot v (before ++ (p, v) :: rest) = Some p.
Proof using Hsto.
  induction 1 as [|[q e] before Hlt Hall IH]; simpl.
  - by rewrite T_eq_refl.
  - simpl in Hlt. rewrite (T_eq_ne e v); [done|]. by destruct (lt_ne e v Hlt).
Qed.

Lemma find_slot_gone (before after : list (positive * T)) v :
  Forall (λ s, CmpFcn s.2 v = true) before →
  Forall (λ x, CmpFcn v x = true) after.*2 →
  find_slot v (before ++ after) = None.
Proof using Hsto.
  intros Hb Ha. apply find_slot_None. intros e. rewrite fmap_app.
  intros [He|He]%elem_of_app.
  - apply list_elem_of_fmap in He as ([q x] & -> & Hin).
    apply (proj1 (Forall_forall _ _) Hb) in Hin. apply T_eq_ne.
    by destruct (lt_ne _ _ Hin).
  - apply (proj1 (Forall_forall _ _) Ha) in He. apply T_eq_ne.
    by destruct (lt_ne _ _ He).
Qed.

End Order.

(** ** [insert] *)

(** C2. [insert(v)] on a set whose comparison rule is a strict total
    order. If no stored element compares equal to [v] and the engine's
    allocation succeeds, [v] is inserted at a new position: the result is
    that position with the flag [true], the positions and elements stored
    before are kept, and the size grows by one. If a stored element
    compares equal to [v], nothing changes at all and the result is the
    position of that element with the flag [false]. In both cases the
    position is the one [find(v)] returns in the state after the engine's
    [setAdd]. *)
Theorem insert_new_or_existing :
  strict_total_order →
  ∀ (w : world) (this : positive) (sl : list (positive * T)) (fuel : nat) (v : T),
    set_inv w this sl →
    ascending sl.*2 →
    S (length sl) < fuel →
    ((∀ e, e ∈ sl.*2 → CompareElementFcn (Some e) (Some v) ≠ 0%Z) →
     head (oracle w) ≠ Some false →
     ∃ p w' sl',
       set_insert fuel this v w = (Ok (ConstIterator this (Some p), true), w')
       ∧ set_inv w' this sl'
       ∧ ascending sl'.*2
       ∧ (p ∉ sl.*1)
       ∧ (∀ s, s ∈ sl' ↔ s = (p, v) ∨ s ∈ sl)
       ∧ set_size this w' = Ok (Z.of_nat (length sl) + 1)%Z
       ∧ operator_deref w' (ConstIterator this (Some p)) = Ok v
       ∧ set_find fuel this v w' = Ok (ConstIterator this (Some p)))
    ∧ (∀ e, e ∈ sl.*2 → CompareElementFcn (Some e) (Some v) = 0%Z →
       ∃ p,
         set_insert fuel this v w = (Ok (ConstIterator this (Some p), false), w)
         ∧ (p, e) ∈ sl
         ∧ operator_deref w (ConstIterator this (Some p)) = Ok e
         ∧ set_find fuel this v w = Ok (ConstIterator this (Some p))).
Proof.
  intros Hsto w this sl fuel v Hinv Hasc Hf.
  destruct (set_inv_handle _ _ _ Hinv) as (h & Ho & Hh).
  destruct (scan CompareElementFcn (Some v) sl) as [before rest] eqn:Hs.
  pose proof (set_insert_eq fuel w this h sl v before rest Ho Hh Hs) as Hins.
  destruct (scan_spec _ _ _ _ Hs) as (E & Hb & Hr).
  destruct Hinv as (Hsl & Hnd & Hlt). split.
  - intros Hno Horc.
    rewrite (scan_miss Hsto sl v before rest Hs Hno) in Hins.
    set (sl' := before ++ (next w, v) :: rest) in *.
    set (w' := added w h sl') in *.
    assert (set_insert fuel this v w
            = (rbind (set_find fuel this v w') (λ it, Ok (it, true)), w')) as Hins'.
    { rewrite Hins. by destruct (oracle w) as [|[] orc]. }
    destruct (wf_added sl v before rest (next w) E Hnd Hlt) as [Hnd' Hlt'].
    assert (set_inv w' this sl') as Hinv'.
    { apply (set_inv_intro _ _ h); [done | apply lookup_insert_eq | done | done]. }
    assert (length sl' = S (length sl)) as Hlen.
    { unfold sl'. rewrite E, !length_app. simpl. lia. }
    destruct Hinv' as (Hsl' & _ & _).
    assert (set_find fuel this v w' = Ok (ConstIterator this (Some (next w)))) as Hfind.
    { rewrite (set_find_eq w' this sl' Hsl' Hnd' fuel v); [|lia].
      unfold sl'. by rewrite (find_slot_at Hsto). }
    exists (next w), w', sl'. split_and!.
    + by rewrite Hins', Hfind.
    + done.
    + apply (ascending_added sl v before rest (next w) (lt_trans Hsto) Hs);
        [by apply (scan_miss Hsto sl v before rest) | done].
    + intros Hin. apply (proj1 (Forall_forall _ _) Hlt) in Hin. lia.
    + intros s. unfold sl'. rewrite E, !elem_of_app, elem_of_cons.
      tauto.
    + rewrite (set_size_eq w' this sl'); [|done]. f_equal. lia.
    + by apply (deref_middle w' this sl' Hsl' Hnd' before (next w) v rest).
    + done.
  - intros e He Heq. apply (compare_zero_eq Hsto) in Heq as ->.
    destruct (scan_hit Hsto sl v before rest Hasc Hs He) as (q & after & ->).
    rewrite (stopped_at_self Hsto) in Hins.
    assert (set_find fuel this v w = Ok (ConstIterator this (Some q))) as Hfind.
    { rewrite (set_find_eq w this sl Hsl Hnd fuel v); [|lia].
      by rewrite E, (find_slot_at Hsto). }
    exists q. split_and!.
    + by rewrite Hins, Hfind.
    + rewrite E. apply elem_of_app. right. left.
    + by apply (deref_middle w this sl Hsl Hnd before q v after).
    + done.
Qed.

(** When the engine's allocation for a new element is refused, [insert]
    throws [Exception] and the set is what it was. *)
Lemma set_insert_out_of_memory :
  strict_total_order →
  ∀ (w : world) (this : positive) (sl : list (positive * T)) (fuel : nat) (v : T),
    set_inv w this sl →
    (∀ e, e ∈ sl.*2 → CompareElementFcn (Some e) (Some v) ≠ 0%Z) →
    head (oracle w) = Some false →
    set_insert fuel this v w = (Throw Exception, refused w)
    ∧ set_inv (refused w) this sl.
Proof.
  intros Hsto w this sl fuel v Hinv Hno Horc.
  destruct (set_inv_handle _ _ _ Hinv) as (h & Ho & Hh).
  destruct (scan CompareElementFcn (Some v) sl) as [before rest] eqn:Hs.
  rewrite (set_insert_eq fuel w this h sl v before rest Ho Hh Hs).
  rewrite (scan_miss Hsto sl v before rest Hs Hno).
  destruct Hinv as (_ & Hnd & Hlt).
  destruct (oracle w) as [|[] orc]; try done.
  split; [done|]. by apply (set_inv_intro _ _ h).
Qed.

(** ** [erase] *)

(** C4. [erase(v)] on a set whose comparison rule is a strict total order.
    If a stored element compares equal to [v], the call returns, the slot
    of that element is removed and the element freed (one [T] object less
    is alive), every other slot is kept, and [find(v)] then throws
    [ElementNotFound]. If no stored element compares equal to [v], the
    engine answers [SET_ITEM_DOES_NOT_EXIST], the call throws
    [ElementNotFound] and nothing has changed. *)
Theorem erase_value_or_ElementNotFound :
  strict_total_order →
  ∀ (w : world) (this : positive) (sl : list (positive * T)) (v : T),
    set_inv w this sl →
    ascending sl.*2 →
    (∀ e, e ∈ sl.*2 → CompareElementFcn (Some e) (Some v) = 0%Z →
     ∃ p w' sl',
       set_erase this v w = (Ok tt, w')
       ∧ set_inv w' this sl'
       ∧ ascending sl'.*2
       ∧ (p, e) ∈ sl
       ∧ (∀ s, s ∈ sl' ↔ s ∈ sl ∧ s ≠ (p, e))
       ∧ set_size this w' = Ok (Z.of_nat (length sl) - 1)%Z
       ∧ live w' = (live w - 1)%Z
       ∧ ∀ fuel, length sl ≤ fuel → set_find fuel this v w' = Throw ElementNotFound)
    ∧ ((∀ e, e ∈ sl.*2 → CompareElementFcn (Some e) (Some v) ≠ 0%Z) →
       (setRemove DestroyElementFcn CompareElementFcn (m_CSet w this) (Some v) w).1
         = SET_ITEM_DOES_NOT_EXIST
       ∧ set_erase this v w = (Throw ElementNotFound, w)).
Proof.
  intros Hsto w this sl v Hinv Hasc.
  destruct (set_inv_handle _ _ _ Hinv) as (h & Ho & Hh).
  destruct (scan CompareElementFcn (Some v) sl) as [before rest] eqn:Hs.
  pose proof (set_erase_eq w this h sl v before rest Ho Hh Hs) as Her.
  pose proof (setRemove_eq w h sl v before rest Hh Hs) as Hrm.
  destruct (scan_spec _ _ _ _ Hs) as (E & Hb & Hr).
  destruct Hinv as (Hsl & Hnd & Hlt). split.
  - intros e He Heq. apply (compare_zero_eq Hsto) in Heq as ->.
    destruct (scan_hit Hsto sl v before rest Hasc Hs He) as (q & after & ->).
    pose proof (stopped_at_self Hsto q v after) as Hst. simpl in Hst.
    rewrite Hst in Her.
    set (sl' := before ++ after) in *.
    set (w' := World (<[h:=sl']> (csets w)) (objs w) (next w) (oracle w)
                     (Z.pred (live w))) in *.
    assert (NoDup sl'.*1 ∧ Forall (λ p, (p < next w)%positive) sl'.*1) as [Hnd' Hlt'].
    { unfold sl'. rewrite E, !fmap_app in Hnd, Hlt. rewrite fmap_app. simpl in *.
      apply NoDup_app in Hnd as (Hn1 & Hn12 & [_ Hn2]%NoDup_cons).
      apply Forall_app in Hlt as [Hl1 [_ Hl2]%Forall_cons]. split.
      - apply NoDup_app. split_and!; [done| |done].
        intros x Hx Hx'. apply (Hn12 x Hx). by right.
      - by apply Forall_app. }
    assert (set_inv w' this sl') as Hinv'.
    { apply (set_inv_intro _ _ h); [done | apply lookup_insert_eq | done | done]. }
    unfold ascending in Hasc. rewrite E, fmap_app in Hasc. simpl in Hasc.
    apply StronglySorted_app in Hasc as (Hx & Hsb & [Hva Hsa]%StronglySorted_cons).
    exists q, w', sl'. split_and!.
    + done.
    + done.
    + unfold ascending, sl'. rewrite fmap_app. apply StronglySorted_app_2; [|done|done].
      intros x1 x2 H1 H2. apply Hx; [done | by right].
    + rewrite E. apply elem_of_app. right. left.
    + intros s. unfold sl'. rewrite E, !elem_of_app, elem_of_cons.
      assert (s ∈ before → s ≠ (q, v)) as N1.
      { intros Hin ->. apply (NoDup_middle before q v after); [by rewrite <- E|].
        apply list_elem_of_fmap. by exists (q, v). }
      assert (s ∈ after → s ≠ (q, v)) as N2.
      { intros Hin ->. rewrite E, fmap_app in Hnd. simpl in Hnd.
        apply NoDup_app in Hnd as (_ & _ & [Hq _]%NoDup_cons).
        apply Hq, list_elem_of_fmap. by exists (q, v). }
      tauto.
    + rewrite (set_size_eq w' this sl'); [|done]. f_equal.
      unfold sl'. rewrite E, !length_app. simpl. lia.
    + simpl. lia.
    + intros fuel Hfuel. destruct Hinv' as (Hsl' & _ & _).
      rewrite (set_find_eq w' this sl' Hsl' Hnd' fuel v).
      * unfold sl'. by rewrite (find_slot_gone Hsto).
      * unfold sl'. rewrite E, !length_app in *. simpl in Hfuel. lia.
  - intros Hno. pose proof (scan_miss Hsto sl v before rest Hs Hno) as Hst.
    rewrite (m_CSet_eq _ _ _ Ho), Hrm, Her.
    destruct rest as [|[q e] after]; [done|]. simpl in Hst. by rewrite Hst.
Qed.

(** C5. [erase(p)] dereferences [p] and erases by the value obtained. If
    dereferencing [p] yields no element, the call throws [InvalidIterator],
    not [ElementNotFound], and nothing has changed; this is the case for
    the past-the-end position [end()] and for a position that is no slot
    of the set. *)
Theorem erase_position_InvalidIterator (w : world) (this : positive) :
  (∀ iter v,
     setGetElement w (m_CSet w (m_Owner iter)) (m_Current iter) = Some v →
     operator_deref w iter = Ok v
     ∧ set_erase_it this iter w = set_erase this v w)
  ∧ (∀ iter,
     setGetElement w (m_CSet w (m_Owner iter)) (m_Current iter) = None →
     operator_deref w iter = Throw InvalidIterator
     ∧ set_erase_it this iter w = (Throw InvalidIterator, w))
  ∧ (∀ sl fuel,
     set_inv w this sl → length sl ≤ fuel →
     ∃ e, set_end fuel w this = Ok e
          ∧ set_erase_it this e w = (Throw InvalidIterator, w))
  ∧ (∀ sl p,
     set_inv w this sl → p ∉ sl.*1 →
     set_erase_it this (ConstIterator this (Some p)) w = (Throw InvalidIterator, w)).
Proof.
  assert (∀ iter,
    setGetElement w (m_CSet w (m_Owner iter)) (m_Current iter) = None →
    operator_deref w iter = Throw InvalidIterator
    ∧ set_erase_it this iter w = (Throw InvalidIterator, w)) as Hnone.
  { intros iter Hg. unfold set_erase_it, bind, readr, operator_deref. by rewrite Hg. }
  split_and!.
  - intros iter v Hg. unfold set_erase_it, bind, readr, operator_deref. by rewrite Hg.
  - done.
  - intros sl fuel (Hs & Hnd & _) Hf. exists (ConstIterator this None).
    split; [by apply (set_end_eq w this sl)|].
    apply Hnone. unfold setGetElement. simpl. by rewrite Hs.
  - intros sl p (Hs & _ & _) Hp. apply Hnone. unfold setGetElement. simpl.
    rewrite Hs. simpl. by apply slot_get_absent.
Qed.

(** ** [clear] *)

(** [set::clear] on an object that owns a live handle. *)
Lemma set_clear_eq w this h sl :
  objs w !! this = Some (Some h) →
  csets w !! h = Some sl →
  set_clear this w = (Ok tt, cleared w h sl).
Proof.
  intros Ho Hh. unfold set_clear, bind, read, assert_, call, ret, setClear.
  simpl. rewrite (m_CSet_eq _ _ _ Ho). simpl. rewrite Hh. simpl.
  by rewrite free_slots_eq.
Qed.

Lemma cleared_inv w this h sl :
  objs w !! this = Some (Some h) → set_inv (cleared w h sl) this [].
Proof.
  intros Ho. apply (set_inv_intro _ _ h); [done | apply lookup_insert_eq | constructor..].
Qed.

(** C8. After [clear()] on a set, [size()] returns 0 and [find(v)] throws
    [ElementNotFound] for every [v]; every element the set held has been
    freed. *)
Theorem clear_empties (w : world) (this h : positive) (sl : list (positive * T)) :
  objs w !! this = Some (Some h) →
  csets w !! h = Some sl →
  ∃ w',
    set_clear this w = (Ok tt, w')
    ∧ set_size this w' = Ok 0%Z
    ∧ (∀ fuel v, 0 < fuel → set_find fuel this v w' = Throw ElementNotFound)
    ∧ set_inv w' this []
    ∧ live w' = (live w - Z.of_nat (length sl))%Z.
Proof.
  intros Ho Hh. rewrite (set_clear_eq w this h sl Ho Hh). eexists. split; [reflexivity|].
  pose proof (cleared_inv w this h sl Ho) as Hinv.
  split_and!; [by rewrite (set_size_eq _ _ _ Hinv) | | done | done].
  intros fuel v Hfuel. destruct Hinv as (Hs & Hnd & _).
  by rewrite (set_find_eq _ this [] Hs Hnd fuel v Hfuel).
Qed.

(** ** Assignment to itself *)

(** C9. The assignment [s = s] returns at its guard: the whole memory,
    and with it the handle [s] owns, its slots and its elements, is what
    it was before. *)
Theorem self_assignment_is_noop (w : world) (this : positive) :
  set_assign this this w = (Ok this, w)
  ∧ m_CSet (set_assign this this w).2 this = m_CSet w this
  ∧ csets (set_assign this this w).2 = csets w.
Proof.
  assert (set_assign this this w = (Ok this, w)) as E.
  { unfold set_assign. by rewrite decide_True. }
  by rewrite E.
Qed.

(** ** Equality of positions *)

(** C10. [operator==] compares the slot locations only: two positions
    with the same location are equal whatever sets they belong to. For any
    two sets, [end()] returns for each of them, and the two past-the-end
    positions, each still naming its own owner, are equal. *)
Theorem iterator_equality_ignores_owner :
  (∀ it other, operator_eq it other = true ↔ m_Current it = m_Current other)
  ∧ (∀ owner1 owner2 current,
       operator_eq (ConstIterator owner1 current) (ConstIterator owner2 current) = true)
  ∧ (∀ (w1 w2 : world) s1 s2 fuel1 fuel2 e1 e2,
       set_end fuel1 w1 s1 = Ok e1 →
       set_end fuel2 w2 s2 = Ok e2 →
       m_Owner e1 = s1 ∧ m_Owner e2 = s2
       ∧ operator_eq e1 e2 = true ∧ operator_ne e1 e2 = false)
  ∧ (∀ (w1 w2 : world) s1 s2 sl1 sl2 fuel1 fuel2,
       set_inv w1 s1 sl1 → set_inv w2 s2 sl2 →
       length sl1 ≤ fuel1 → length sl2 ≤ fuel2 →
       ∃ e1 e2,
         set_end fuel1 w1 s1 = Ok e1 ∧ set_end fuel2 w2 s2 = Ok e2
         ∧ m_Owner e1 = s1 ∧ m_Owner e2 = s2
         ∧ operator_eq e1 e2 = true).
Proof.
  split_and!.
  - intros it other. unfold operator_eq. apply bool_decide_eq_true.
  - intros o1 o2 c. unfold operator_eq. by apply bool_decide_eq_true.
  - intros w1 w2 s1 s2 f1 f2 e1 e2 H1 H2. unfold set_end in *.
    pose proof (end_loop_owner _ _ _ _ H1) as O1.
    pose proof (end_loop_owner _ _ _ _ H2) as O2.
    apply end_loop_null in H1, H2. simpl in O1, O2.
    unfold operator_ne, operator_eq. rewrite H1, H2.
    by rewrite bool_decide_eq_true_2.
  - intros w1 w2 s1 s2 sl1 sl2 f1 f2 (Hs1 & Hn1 & _) (Hs2 & Hn2 & _) Hf1 Hf2.
    exists (ConstIterator s1 None), (ConstIterator s2 None).
    rewrite (set_end_eq w1 s1 sl1 Hs1 Hn1 f1 Hf1), (set_end_eq w2 s2 sl2 Hs2 Hn2 f2 Hf2).
    done.
Qed.

(** ** Changes of one set leave the other handles alone *)

Lemma same_but_refl s w : same_but s w w.
Proof. split_and!; [done | done | lia | done]. Qed.

Lemma same_but_live s w w' f g :
  same_but s (with_live f w) w' → same_but s w (with_live g w').
Proof. done. Qed.

Lemma same_but_insert w h sl sl' nxt orc l :
  csets w !! h = Some sl → (next w ≤ nxt)%positive →
  same_but (Some h) w (World (<[h := sl']> (csets w)) (objs w) nxt orc l).
Proof.
  intros Hh Hn. split_and!; simpl; [done | | done |].
  - intros h' Hne. apply lookup_insert_ne. congruence.
  - intros h'. destruct (decide (h = h')) as [<-|Hne].
    + by rewrite Hh.
    + by rewrite lookup_insert_ne.
Qed.

Lemma setAdd_frame s el w :
  same_but s w (setAdd CopyElementFcn CompareElementFcn s el w).2.
Proof.
  unfold setAdd. destruct (slots_at w s) as [sl|] eqn:Hs; [|apply same_but_refl].
  destruct (scan _ _ _) as [before rest].
  destruct (stopped_at_equal _ _ _); [apply same_but_refl|].
  unfold alloc. destruct (oracle w) as [|[] orc]; simpl;
    destruct el as [e|], s as [h|]; simpl;
    first
      [ by (split_and!; simpl; [done | done | lia | done])
      | by (unfold with_csets; simpl; apply (same_but_insert w h sl); simpl;
            [done | lia]) ].
Qed.

Lemma setRemove_frame s el w :
  same_but s w (setRemove DestroyElementFcn CompareElementFcn s el w).2.
Proof.
  unfold setRemove. destruct (slots_at w s) as [sl|] eqn:Hs; [|apply same_but_refl].
  destruct (scan _ _ _) as [before rest].
  destruct rest as [|[q e] after], s as [h|]; try apply same_but_refl.
  destruct (_ =? _)%Z; [|apply same_but_refl].
  unfold with_csets; simpl; apply (same_but_insert w h sl); simpl; [done | lia].
Qed.

Lemma setClear_frame s w :
  same_but s w (setClear DestroyElementFcn s w).2.
Proof.
  unfold setClear. destruct (slots_at w s) as [sl|] eqn:Hs, s as [h|];
    try apply same_but_refl.
  rewrite free_slots_eq. unfold with_csets; simpl.
  apply (same_but_insert w h sl); simpl; [done | lia].
Qed.

Lemma set_insert_world fuel this v w :
  (set_insert fuel this v w).2 =
  if is_null (m_CSet w this) then w
  else with_live Z.pred
         (setAdd CopyElementFcn CompareElementFcn (m_CSet w this) (Some v)
                 (with_live Z.succ w)).2.
Proof.
  unfold set_insert, bind, read, assert_, new_T, call, delete_T, modify, readr,
    ret, throw. simpl.
  destruct (m_CSet w this) as [h|]; simpl; [|done].
  destruct (setAdd _ _ _ _ _) as [res w1]. simpl.
  destruct res; simpl; try done;
    match goal with |- context [set_find ?f ?t ?x ?y] => by destruct (set_find f t x y) end.
Qed.

Lemma set_erase_world this v w :
  (set_erase this v w).2 =
  if is_null (m_CSet w this) then w
  else with_live Z.pred
         (setRemove DestroyElementFcn CompareElementFcn (m_CSet w this) (Some v)
                    (with_live Z.succ w)).2.
Proof.
  unfold set_erase, bind, read, assert_, new_T, call, delete_T, modify, throw. simpl.
  destruct (m_CSet w this) as [h|]; simpl; [|done].
  destruct (setRemove _ _ _ _ _) as [res w1]. simpl. by destruct res.
Qed.

Lemma mutate_frame fuel this m w :
  same_but (m_CSet w this) w (mutate fuel this m w).
Proof.
  assert (∀ v, same_but (m_CSet w this) w (set_erase this v w).2) as Herase.
  { intros v. rewrite set_erase_world.
    destruct (is_null _); [apply same_but_refl|].
    apply (same_but_live _ _ _ Z.succ). apply setRemove_frame. }
  destruct m as [v|v|iter|]; simpl.
  - rewrite set_insert_world. destruct (is_null _); [apply same_but_refl|].
    apply (same_but_live _ _ _ Z.succ). apply setAdd_frame.
  - apply Herase.
  - unfold set_erase_it, bind, readr.
    destruct (operator_deref w iter) as [v| | |]; try apply same_but_refl.
    apply Herase.
  - unfold set_clear, bind, read, assert_, call, ret. simpl.
    destruct (m_CSet w this) as [h|] eqn:Hm; simpl; [|apply same_but_refl].
    pose proof (setClear_frame (Some h) w) as Hc.
    by destruct (setClear DestroyElementFcn (Some h) w).
Qed.

Lemma run_mutations_frame fuel this ms : ∀ w,
  same_but (m_CSet w this) w (run_mutations fuel this ms w).
Proof.
  induction ms as [|m ms IH]; intros w; simpl; [apply same_but_refl|].
  destruct (mutate_frame fuel this m w) as (Ho & Hc & Hn & Hk).
  destruct (IH (mutate fuel this m w)) as (Ho' & Hc' & Hn' & Hk').
  assert (m_CSet (mutate fuel this m w) this = m_CSet w this) as Hm
    by (unfold m_CSet; by rewrite Ho).
  rewrite Hm in Hc'. split_and!.
  - by rewrite Ho'.
  - intros h' Hne. by rewrite Hc', Hc.
  - lia.
  - intros h' Hh'. by apply Hk, Hk'.
Qed.

(** ** What the queries depend on *)

Section Queries.

Variables (w w' : world) (this : positive).
Hypothesis Hm : m_CSet w' this = m_CSet w this.
Hypothesis Hs : slots_at w' (m_CSet w this) = slots_at w (m_CSet w this).

Lemma set_size_ext : set_size this w' = set_size this w.
Proof using Hm Hs. unfold set_size, setGetSize. by rewrite Hm, Hs. Qed.

Lemma set_begin_ext : set_begin w' this = set_begin w this.
Proof using Hm Hs. unfold set_begin, setGetFirst. by rewrite Hm, Hs. Qed.

Lemma operator_incr_ext it :
  m_Owner it = this → operator_incr w' it = operator_incr w it.
Proof using Hm Hs. intros Ho. unfold operator_incr, setGetNext. by rewrite Ho, Hm, Hs. Qed.

Lemma operator_deref_ext it :
  m_Owner it = this → operator_deref w' it = operator_deref w it.
Proof using Hm Hs. intros Ho. unfold operator_deref, setGetElement. by rewrite Ho, Hm, Hs. Qed.

Lemma end_loop_ext fuel : ∀ it,
  m_Owner it = this → end_loop fuel w' it = end_loop fuel w it.
Proof using Hm Hs.
  induction fuel as [|fuel IH]; intros it Ho; simpl; [done|].
  destruct (m_Current it); [|done].
  rewrite (operator_incr_ext it Ho). apply IH. by rewrite <- Ho.
Qed.

Lemma set_end_ext fuel : set_end fuel w' this = set_end fuel w this.
Proof using Hm Hs. unfold set_end. rewrite set_begin_ext. by apply end_loop_ext. Qed.

Lemma find_loop_ext gas element fuel : ∀ it,
  m_Owner it = this →
  find_loop gas fuel this element w' it = find_loop gas fuel this element w it.
Proof using Hm Hs.
  induction fuel as [|fuel IH]; intros it Ho; simpl; [done|].
  rewrite set_end_ext. destruct (set_end gas w this) as [e| | |]; simpl; [|done..].
  destruct (operator_ne it e); [|done].
  rewrite (operator_deref_ext it Ho).
  destruct (operator_deref w it) as [x| | |]; simpl; [|done..].
  destruct (T_eq x element); [done|].
  rewrite (operator_incr_ext it Ho). apply IH. by rewrite <- Ho.
Qed.

Lemma set_find_ext fuel element :
  set_find fuel this element w' = set_find fuel this element w.
Proof using Hm Hs. unfold set_find. rewrite set_begin_ext. by apply find_loop_ext. Qed.

Lemma traverse_loop_ext gas fuel : ∀ it,
  m_Owner it = this →
  traverse_loop gas fuel this w' it = traverse_loop gas fuel this w it.
Proof using Hm Hs.
  induction fuel as [|fuel IH]; intros it Ho; simpl; [done|].
  rewrite set_end_ext. destruct (set_end gas w this) as [e| | |]; simpl; [|done..].
  destruct (operator_ne it e); [|done].
  rewrite (operator_deref_ext it Ho).
  destruct (operator_deref w it) as [x| | |]; simpl; [|done..].
  rewrite (operator_incr_ext it Ho), IH; [done|]. by rewrite <- Ho.
Qed.

Lemma traverse_ext fuel : traverse fuel this w' = traverse fuel this w.
Proof using Hm Hs.
  unfold traverse, set_cbegin. rewrite set_begin_ext. by apply traverse_loop_ext.
Qed.

End Queries.

Lemma isolated_intro w a b :
  m_CSet w a ≠ m_CSet w b ∨ m_CSet w b = None →
  isolated w a b.
Proof.
  intros Hne fuel ms w'. destruct (run_mutations_frame fuel a ms w) as (Ho & Hc & _ & _).
  fold w' in Ho, Hc.
  assert (m_CSet w' b = m_CSet w b) as Hm by (unfold m_CSet; by rewrite Ho).
  assert (slots_at w' (m_CSet w b) = slots_at w (m_CSet w b)) as Hs.
  { destruct (m_CSet w b) as [hb|] eqn:Hb; [|done]. rewrite !slots_at_Some.
    apply Hc. destruct Hne as [Hne|Hne]; congruence. }
  split_and!.
  - by apply set_size_ext.
  - intros f v. by apply set_find_ext.
  - intros f. by apply traverse_ext.
Qed.

(** ** Copies *)

Lemma copy_slots_Some (sl : list (positive * T)) : ∀ w slc w',
  copy_slots CopyElementFcn DestroyElementFcn sl w = (Some slc, w') →
  slc.*2 = sl.*2
  ∧ csets w' = csets w
  ∧ objs w' = objs w
  ∧ (next w ≤ next w')%positive
  ∧ Forall (λ p, (next w ≤ p < next w')%positive) slc.*1
  ∧ NoDup slc.*1.
Proof.
  induction sl as [|[q e] sl IH]; intros w slc w'; simpl.
  - intros [= <- <-]. split_and!; first [done | lia | constructor].
  - unfold alloc. destruct (oracle w) as [|[] orc]; simpl; try done;
      (destruct (copy_slots _ _ sl _) as [[r|] w4] eqn:Hc; [|done]);
      intros [= <- <-];
      destruct (IH _ _ _ Hc) as (He & Hcs & Hob & Hle & Hall & Hnd);
      simpl in *;
      (split_and!;
        [ f_equal; exact He | done | done | lia
        | constructor; [lia|]; eapply Forall_impl; [exact Hall|]; simpl; lia
        | constructor; [|done];
          intros Hin; apply (proj1 (Forall_forall _ _) Hall) in Hin; lia ]).
Qed.

Lemma setCopy_Some s w hc w1 :
  setCopy CopyElementFcn DestroyElementFcn s w = (Some hc, w1) →
  ∃ sl slc,
    slots_at w s = Some sl
    ∧ hc = next w
    ∧ csets w1 = <[hc := slc]> (csets w)
    ∧ objs w1 = objs w
    ∧ slc.*2 = sl.*2
    ∧ (next w < next w1)%positive
    ∧ Forall (λ p, (next w < p < next w1)%positive) slc.*1
    ∧ NoDup slc.*1.
Proof.
  unfold setCopy. destruct (slots_at w s) as [sl|]; [|done].
  unfold alloc. destruct (oracle w) as [|[] orc]; simpl; try done;
    (destruct (copy_slots _ _ sl _) as [[slc|] w3] eqn:Hc; [|done]);
    intros [= <- <-];
    destruct (copy_slots_Some _ _ _ _ Hc) as (He & Hcs & Hob & Hle & Hall & Hnd);
    simpl in *; exists sl, slc;
    (split_and!;
      [ done | done | by rewrite Hcs | done | done | lia
      | eapply Forall_impl; [exact Hall|]; simpl; lia | done ]).
Qed.

Lemma setDestroy_effect s w :
  objs (setDestroy DestroyElementFcn s w) = objs w
  ∧ next (setDestroy DestroyElementFcn s w) = next w
  ∧ ∀ h, s ≠ Some h →
      csets (setDestroy DestroyElementFcn s w) !! h = csets w !! h.
Proof.
  unfold setDestroy. destruct s as [ho|]; [|done].
  destruct (csets w !! ho) as [sl|]; [|done].
  rewrite free_slots_eq. simpl. split_and!; [done | done |].
  intros h Hne. apply lookup_delete_ne. congruence.
Qed.

Lemma setDestroy_gone ho w :
  csets (setDestroy DestroyElementFcn (Some ho) w) !! ho = None.
Proof.
  unfold setDestroy. destruct (csets w !! ho) as [sl|] eqn:Hh; [|done].
  rewrite free_slots_eq. simpl. apply lookup_delete_eq.
Qed.

Lemma copy_slots_total (sl : list (positive * T)) : ∀ w,
  oracle w = [] →
  ∃ slc w', copy_slots CopyElementFcn DestroyElementFcn sl w = (Some slc, w')
            ∧ oracle w' = [].
Proof.
  induction sl as [|[q e] sl IH]; intros w Horc; simpl; [by eauto|].
  unfold alloc. rewrite Horc. simpl.
  edestruct IH as (r & w4 & Hc & Horc4); [|rewrite Hc; by eauto]. done.
Qed.

Lemma setCopy_total s w sl :
  oracle w = [] → slots_at w s = Some sl →
  ∃ hc w1, setCopy CopyElementFcn DestroyElementFcn s w = (Some hc, w1).
Proof.
  intros Horc Hs. unfold setCopy, alloc. rewrite Hs, Horc. simpl.
  edestruct (copy_slots_total sl) as (slc & w3 & Hc & _); [|rewrite Hc; by eauto].
  done.
Qed.

Lemma copy_slots_None (sl : list (positive * T)) : ∀ w w',
  copy_slots CopyElementFcn DestroyElementFcn sl w = (None, w') →
  csets w' = csets w ∧ objs w' = objs w ∧ (next w ≤ next w')%positive.
Proof.
  induction sl as [|[q e] sl IH]; intros w w'; simpl; [done|].
  unfold alloc. destruct (oracle w) as [|[] orc]; simpl;
    try (intros [= <-]; split_and!; simpl; [done | done | lia]);
    (destruct (copy_slots _ _ sl _) as [[r|] w4] eqn:Hc; [done|]);
    intros [= <-]; destruct (IH _ _ Hc) as (? & ? & ?); simpl in *;
    (split_and!; [done | done | lia]).
Qed.

Lemma setCopy_None s w w' :
  setCopy CopyElementFcn DestroyElementFcn s w = (None, w') →
  csets w' = csets w ∧ objs w' = objs w ∧ (next w ≤ next w')%positive.
Proof.
  unfold setCopy. destruct (slots_at w s) as [sl|];
    [|intros [= <-]; split_and!; [done | done | lia]].
  unfold alloc. destruct (oracle w) as [|[] orc]; simpl;
    try (intros [= <-]; split_and!; simpl; [done | done | lia]);
    (destruct (copy_slots _ _ sl _) as [[slc|] w3] eqn:Hc; [done|]);
    intros [= <-]; destruct (copy_slots_None _ _ _ Hc) as (? & ? & ?); simpl in *;
    (split_and!; [done | done | lia]).
Qed.

(** Every assignment between different objects that throws has destroyed
    the handle of its target and left the target with a [NULL] handle. *)
Lemma set_assign_throw dst src w (old : option positive) e w' :
  dst ≠ src →
  objs w !! dst = Some old →
  set_assign dst src w = (Throw e, w') →
  e = Exception
  ∧ objs w' !! dst = Some None
  ∧ (∀ ho, old = Some ho → csets w' !! ho = None)
  ∧ (∀ sl, ¬ set_inv w' dst sl)
  ∧ set_size dst w' = Abort.
Proof.
  intros Hne Hold. unfold set_assign. rewrite decide_False by done.
  unfold bind, call, modify, read, throw, ret. simpl.
  rewrite (m_CSet_eq _ _ _ Hold).
  destruct (setDestroy_effect old w) as (Hdo & _ & _).
  destruct (setCopy _ _ _ _) as [[hc|] w2] eqn:Hcopy; simpl; [done|].
  intros [= <- <-]. destruct (setCopy_None _ _ _ Hcopy) as (Hcs & Hob & _).
  assert (objs (store_m_CSet dst None w2) !! dst = Some None) as Hnull.
  { simpl. by rewrite Hob, Hdo, lookup_alter_eq, Hold. }
  split_and!; [done | done | | |].
  - intros ho ->. simpl. rewrite Hcs. apply setDestroy_gone.
  - intros sl (Hs & _). by rewrite (m_CSet_eq _ _ _ Hnull) in Hs.
  - unfold set_size. by rewrite (m_CSet_eq _ _ _ Hnull).
Qed.

(** What is needed of a state in which [cpy] was just made from [src]. *)
Lemma copied_intro (w w1 : world) src h sl cpy hc slc :
  set_inv w src sl →
  m_CSet w src = Some h →
  (h < next w)%positive →
  cpy ≠ src →
  objs w1 !! src = objs w !! src →
  objs w1 !! cpy = Some (Some hc) →
  hc = next w →
  csets w1 !! h = csets w !! h →
  csets w1 !! hc = Some slc →
  slc.*2 = sl.*2 →
  (next w < next w1)%positive →
  Forall (λ p, (next w < p < next w1)%positive) slc.*1 →
  NoDup slc.*1 →
  copied w1 src sl cpy.
Proof.
  intros (Hs & Hnd & Hlt) Hh Hfresh Hne Hosrc Hocpy -> Hch Hchc He Hnx Hall Hndc.
  assert (m_CSet w1 src = Some h) as Hm1 by (unfold m_CSet in *; by rewrite Hosrc).
  assert (m_CSet w1 cpy = Some (next w)) as Hm2 by by apply m_CSet_eq.
  assert (m_CSet w1 cpy ≠ m_CSet w1 src) as Hdiff.
  { rewrite Hm1, Hm2. intros [= E]. lia. }
  rewrite Forall_forall in Hlt, Hall.
  split_and!.
  - done.
  - done.
  - split_and!; [|done|].
    + rewrite Hm1, slots_at_Some, Hch. by rewrite Hh in Hs.
    + apply Forall_forall. intros p Hp. specialize (Hlt p Hp). lia.
  - exists slc. split_and!; [|done|].
    + split_and!; [by rewrite Hm2 | done |].
      apply Forall_forall. intros p Hp. specialize (Hall p Hp). lia.
    + intros p Hp Hp'. specialize (Hall p Hp). specialize (Hlt p Hp'). lia.
  - apply isolated_intro. left. congruence.
  - apply isolated_intro. by left.
Qed.

Lemma copy_slots_live (sl : list (positive * T)) : ∀ w res w',
  copy_slots CopyElementFcn DestroyElementFcn sl w = (res, w') →
  csets w' = csets w
  ∧ live w' = (live w + Z.of_nat (from_option length 0%nat res))%Z.
Proof.
  induction sl as [|[q e] sl IH]; intros w res w'; simpl.
  - intros [= <- <-]. simpl. split; [done | lia].
  - unfold alloc. destruct (oracle w) as [|[] orc]; simpl;
      try (intros [= <- <-]; simpl; split; [done | lia]);
      (destruct (copy_slots _ _ sl _) as [[r|] w4] eqn:Hc;
       destruct (IH _ _ _ Hc) as [Hcs Hl]; simpl in *;
       intros [= <- <-]; simpl; split; [done | lia | done | lia]).
Qed.

Lemma setCopy_live s w hc w1 sl :
  setCopy CopyElementFcn DestroyElementFcn s w = (Some hc, w1) →
  slots_at w s = Some sl →
  live w1 = (live w + Z.of_nat (length sl))%Z.
Proof.
  intros H Hs. unfold setCopy in H. rewrite Hs in H. unfold alloc in H.
  destruct (oracle w) as [|[] orc]; simpl in H; try done;
    (destruct (copy_slots _ _ sl _) as [[slc|] w3] eqn:Hc; [|done]);
    injection H as <- <-;
    destruct (copy_slots_live _ _ _ _ Hc) as [_ Hl];
    destruct (copy_slots_Some _ _ _ _ Hc) as (He & _);
    apply (f_equal length) in He; rewrite !length_fmap in He;
    simpl in *; lia.
Qed.

Lemma setDestroy_live s w :
  live (setDestroy DestroyElementFcn s w)
  = (live w - Z.of_nat (length (default [] (slots_at w s))))%Z.
Proof.
  unfold setDestroy, slots_at. destruct s as [h|]; simpl; [|lia].
  destruct (csets w !! h) as [sl|]; simpl; [|lia]. by rewrite free_slots_eq.
Qed.

(** The destructor of one of two sets that own different handles. *)
Lemma set_dtor_other w a b sla slb :
  a ≠ b → m_CSet w a ≠ m_CSet w b →
  set_inv w a sla → set_inv w b slb →
  ∃ w2, set_dtor a w = (Ok tt, w2)
        ∧ live w2 = (live w - Z.of_nat (length sla))%Z
        ∧ objs w2 !! a = None
        ∧ set_inv w2 b slb.
Proof.
  intros Hne Hdiff Hinva Hinvb.
  destruct (set_inv_handle _ _ _ Hinva) as (ha & Hoa & Hha).
  destruct (set_inv_handle _ _ _ Hinvb) as (hb & Hob & Hhb).
  rewrite (m_CSet_eq _ _ _ Hoa), (m_CSet_eq _ _ _ Hob) in Hdiff.
  destruct Hinvb as (_ & Hnd & Hlt).
  unfold set_dtor, bind, read, modify. simpl.
  rewrite (m_CSet_eq _ _ _ Hoa). unfold setDestroy. rewrite Hha, free_slots_eq.
  eexists. split; [reflexivity|]. simpl. split_and!; [done | apply lookup_delete_eq |].
  apply (set_inv_intro _ _ hb); simpl; [ | | done | done].
  - by rewrite lookup_delete_ne.
  - rewrite lookup_delete_ne; [done|]. congruence.
Qed.

Lemma copied_teardown w1 src sl cpy :
  copied w1 src sl cpy → separately_destroyed w1 src sl cpy.
Proof.
  intros (Hne & Hdiff & Hinv & (slc & Hinvc & He & _) & _ & _).
  assert (length slc = length sl) as Hlen.
  { apply (f_equal length) in He. by rewrite !length_fmap in He. }
  exists slc. split_and!; [done | done | |].
  - destruct (set_dtor_other w1 cpy src slc sl Hne Hdiff Hinvc Hinv)
      as (w2 & E & Hl & Ho & Hi).
    exists w2. split_and!; [done | lia | done | done].
  - destruct (set_dtor_other w1 src cpy sl slc) as (w2 & E & Hl & Ho & Hi);
      [done | done | done | done |].
    exists w2. by split_and!.
Qed.

(** C6. A set made from the set at [src] by copy construction, or
    assigned from it, is a full deep copy. It is another object that owns
    another handle with slots of its own, holding the same elements in the
    same order; handle and slots are new, and every element was copied by
    [CopyElementFcn], which makes a new [T] object equal to the original:
    the copy construction leaves as many more [T] objects alive as the
    source has elements, the assignment as many more as that, less those
    of the set the target held, which are freed with its handle. The two
    sets own their elements separately: the destructor of either frees
    its own elements only and leaves the other set complete. No sequence
    of [insert], [erase] and [clear] calls on the original then changes
    what [size], [find] or the iteration answer for the copy, and no such
    sequence on the copy changes what they answer for the original. When
    no allocation of the engine fails, the copy constructor returns, and
    so does the assignment to any other object that does not own the
    handle of [src]. *)
Theorem copy_is_isolated (w : world) (src h : positive) (sl : list (positive * T)) :
  world_wf w →
  set_inv w src sl →
  m_CSet w src = Some h →
  (∀ e w0,
     (CopyElementFcn (Some e) w0).1 = Some e
     ∧ live (CopyElementFcn (Some e) w0).2 = (live w0 + 1)%Z)
  ∧ (∀ cpy w1, set_cctor src w = (Ok cpy, w1) →
       copied w1 src sl cpy
       ∧ objs w !! cpy = None
       ∧ made_anew w w1 sl cpy
       ∧ live w1 = (live w + Z.of_nat (length sl))%Z
       ∧ separately_destroyed w1 src sl cpy)
  ∧ (∀ dst w1, dst ≠ src → is_Some (objs w !! dst) →
       set_assign dst src w = (Ok dst, w1) →
       copied w1 src sl dst
       ∧ made_anew w w1 sl dst
       ∧ live w1 = (live w
                    - Z.of_nat (length (default [] (slots_at w (m_CSet w dst))))
                    + Z.of_nat (length sl))%Z
       ∧ (∀ ho old, m_CSet w dst = Some ho → csets w !! ho = Some old →
            csets w1 !! ho = None)
       ∧ separately_destroyed w1 src sl dst)
  ∧ (oracle w = [] →
       (∃ cpy w1, set_cctor src w = (Ok cpy, w1))
       ∧ ∀ dst (old : option positive), dst ≠ src → objs w !! dst = Some old →
           old ≠ Some h → ∃ w1, set_assign dst src w = (Ok dst, w1)).
Proof.
  intros [Hwo Hwc] Hinv Hh.
  destruct (set_inv_handle _ _ _ Hinv) as (h' & Ho & Hc).
  rewrite (m_CSet_eq _ _ _ Ho) in Hh. injection Hh as ->.
  pose proof (Hwo _ _ Ho) as Hsrc. pose proof (Hwc _ _ Hc) as Hhlt.
  simpl in Hsrc, Hhlt.
  assert (∀ p, (next w ≤ p)%positive → objs w !! p = None ∧ csets w !! p = None)
    as Hfresh.
  { intros p Hp. split.
    - destruct (objs w !! p) as [x|] eqn:E; [|done].
      specialize (Hwo _ _ E). simpl in Hwo. lia.
    - destruct (csets w !! p) as [x|] eqn:E; [|done].
      specialize (Hwc _ _ E). simpl in Hwc. lia. }
  split_and!.
  - intros e w0. simpl. split; [done | lia].
  - intros cpy w1 Hcc.
    assert (copied w1 src sl cpy ∧ objs w !! cpy = None ∧ made_anew w w1 sl cpy
            ∧ live w1 = (live w + Z.of_nat (length sl))%Z) as (Hcp & Hnew & Hmade & Hl).
    { revert Hcc. unfold set_cctor, bind, call, modify, read. simpl.
      match goal with
      | |- context [setCopy _ _ (m_CSet ?x src) _] => set (w0 := x)
      end.
      assert (objs w0 !! src = Some (Some h)) as Ho0.
      { unfold w0. simpl. rewrite lookup_insert_ne; [done|lia]. }
      rewrite (m_CSet_eq _ _ _ Ho0).
      destruct (setCopy _ _ _ _) as [[hc|] w2] eqn:Hcopy; simpl; [|done].
      intros [= <- <-].
      assert (slots_at w0 (Some h) = Some sl) as Hs0'.
      { rewrite slots_at_Some. exact Hc. }
      pose proof (setCopy_live _ _ _ _ _ Hcopy Hs0') as Hlive.
      destruct (setCopy_Some _ _ _ _ Hcopy)
        as (sl0 & slc & Hs0 & -> & Hcs & Hob & He & Hnx & Hall & Hnd).
      rewrite slots_at_Some in Hs0. change (csets w0) with (csets w) in Hs0.
      rewrite Hc in Hs0. injection Hs0 as <-.
      assert (objs (store_m_CSet (next w) (Some (next w0)) w2) !! next w
              = Some (Some (next w0))) as Hocpy.
      { simpl. rewrite Hob. unfold w0. simpl.
        by rewrite lookup_alter_eq, lookup_insert_eq. }
      assert (csets (store_m_CSet (next w) (Some (next w0)) w2) !! next w0
              = Some slc) as Hccpy.
      { simpl. rewrite Hcs. apply lookup_insert_eq. }
      split_and!.
      - destruct Hinv as (Hs & Hnd' & Hlt).
        apply (copied_intro w0 _ src h sl (next w) (next w0) slc); try done.
        + apply (set_inv_intro _ _ h); [done | done | done |].
          eapply Forall_impl; [exact Hlt|]. unfold w0. simpl. lia.
        + by apply m_CSet_eq.
        + unfold w0. simpl. lia.
        + lia.
        + simpl. rewrite Hob. by rewrite lookup_alter_ne by lia.
        + simpl. rewrite Hcs. apply lookup_insert_ne. unfold w0. simpl. lia.
      - by apply Hfresh.
      - exists (next w0), slc. split_and!; [done | | done | done |].
        + apply Hfresh. unfold w0. simpl. lia.
        + eapply Forall_impl; [exact Hall|]. unfold w0. simpl. lia.
      - simpl. rewrite Hlive. unfold w0. simpl. done. }
    split_and!; [done | done | done | done | by apply copied_teardown].
  - intros dst w1 Hne [old Hold] Has.
    assert (copied w1 src sl dst ∧ made_anew w w1 sl dst
            ∧ live w1 = (live w
                         - Z.of_nat (length (default [] (slots_at w (m_CSet w dst))))
                         + Z.of_nat (length sl))%Z
            ∧ (∀ ho old', m_CSet w dst = Some ho → csets w !! ho = Some old' →
                 csets w1 !! ho = None)) as (Hcp & Hmade & Hl & Hgone).
    { revert Has. unfold set_assign. rewrite decide_False by done.
      unfold bind, call, modify, read. simpl.
      rewrite (m_CSet_eq _ _ _ Hold).
      destruct (setDestroy_effect old w) as (Hdo & Hdn & Hdc).
      pose proof (setDestroy_live old w) as Hdl.
      set (wd := setDestroy DestroyElementFcn old w) in *.
      assert (m_CSet wd src = Some h) as Hm.
      { apply m_CSet_eq. by rewrite Hdo. }
      rewrite Hm.
      destruct (setCopy _ _ _ _) as [[hc|] w2] eqn:Hcopy; simpl; [|done].
      intros [= <-].
      destruct (setCopy_Some _ _ _ _ Hcopy)
        as (sl0 & slc & Hs0 & -> & Hcs & Hob & He & Hnx & Hall & Hnd).
      pose proof (setCopy_live _ _ _ _ _ Hcopy Hs0) as Hlive.
      rewrite slots_at_Some in Hs0.
      assert (old ≠ Some h) as Hoh.
      { intros ->. unfold wd in Hs0. by rewrite setDestroy_gone in Hs0. }
      rewrite (Hdc h Hoh), Hc in Hs0. injection Hs0 as <-.
      rewrite Hdn in *.
      assert (objs (store_m_CSet dst (Some (next w)) w2) !! dst
              = Some (Some (next w))) as Hodst.
      { simpl. rewrite Hob, Hdo. by rewrite lookup_alter_eq, Hold. }
      assert (csets (store_m_CSet dst (Some (next w)) w2) !! next w = Some slc)
        as Hcdst.
      { simpl. rewrite Hcs. apply lookup_insert_eq. }
      split_and!.
      - apply (copied_intro w _ src h sl dst (next w) slc); simpl; try done.
        + by apply m_CSet_eq.
        + rewrite Hob, Hdo. by rewrite lookup_alter_ne.
        + rewrite Hcs, lookup_insert_ne by lia. by apply Hdc.
      - exists (next w), slc. split_and!; [done | | done | done |].
        + apply Hfresh. lia.
        + eapply Forall_impl; [exact Hall|]. simpl. lia.
      - simpl. rewrite Hlive, Hdl. done.
      - intros ho old' [= ->] Hlive_h. simpl. rewrite Hcs.
        pose proof (Hwc _ _ Hlive_h) as Hholt. simpl in Hholt.
        rewrite lookup_insert_ne by lia. unfold wd. apply setDestroy_gone. }
    split_and!; [done | done | done | done | by apply copied_teardown].
  - intros Horc. split.
    + unfold set_cctor, bind, call, modify, read. simpl.
      match goal with
      | |- context [setCopy _ _ (m_CSet ?x src) _] => set (w0 := x)
      end.
      assert (objs w0 !! src = Some (Some h)) as Ho0.
      { unfold w0. simpl. rewrite lookup_insert_ne; [done|lia]. }
      rewrite (m_CSet_eq _ _ _ Ho0).
      destruct (setCopy_total (Some h) w0 sl) as (hc & w2 & ->); [done | done |].
      simpl. by eauto.
    + intros dst old Hne Hold Hoh. unfold set_assign. rewrite decide_False by done.
      unfold bind, call, modify, read. simpl. rewrite (m_CSet_eq _ _ _ Hold).
      destruct (setDestroy_effect old w) as (Hdo & Hdn & Hdc).
      set (wd := setDestroy DestroyElementFcn old w) in *.
      assert (m_CSet wd src = Some h) as Hm by (apply m_CSet_eq; by rewrite Hdo).
      rewrite Hm.
      destruct (setCopy_total (Some h) wd sl) as (hc & w2 & ->).
      * unfold wd, setDestroy. destruct old as [ho|]; [|done].
        destruct (csets w !! ho); [|done]. by rewrite free_slots_eq.
      * rewrite slots_at_Some, (Hdc h Hoh). done.
      * simpl. by eauto.
Qed.

(** ** Every change keeps a set well formed *)

Lemma wf_removed (sl : list (positive * T)) before q e after n :
  sl = before ++ (q, e) :: after →
  NoDup sl.*1 → Forall (λ p, (p < n)%positive) sl.*1 → ascending sl.*2 →
  NoDup (before ++ after).*1
  ∧ Forall (λ p, (p < n)%positive) (before ++ after).*1
  ∧ ascending (before ++ after).*2.
Proof.
  intros -> Hnd Hlt Hasc. unfold ascending in *. rewrite !fmap_app in *. simpl in *.
  apply NoDup_app in Hnd as (Hn1 & Hn12 & [_ Hn2]%NoDup_cons).
  apply Forall_app in Hlt as [Hl1 [_ Hl2]%Forall_cons].
  apply StronglySorted_app in Hasc as (Hx & Hsb & [_ Hsa]%StronglySorted_cons).
  split_and!.
  - apply NoDup_app. split_and!; [done| |done].
    intros x Hx1 Hx2. apply (Hn12 x Hx1). by right.
  - by apply Forall_app.
  - apply StronglySorted_app_2; [|done|done].
    intros x1 x2 H1 H2. apply Hx; [done | by right].
Qed.

Lemma set_erase_inv w this sl v :
  set_inv w this sl → ascending sl.*2 →
  ∃ sl', set_inv (set_erase this v w).2 this sl' ∧ ascending sl'.*2
         ∧ length sl' ≤ length sl.
Proof.
  intros Hinv Hasc. destruct (set_inv_handle _ _ _ Hinv) as (h & Ho & Hh).
  destruct (scan CompareElementFcn (Some v) sl) as [before rest] eqn:Hs.
  rewrite (set_erase_eq w this h sl v before rest Ho Hh Hs).
  destruct (scan_spec _ _ _ _ Hs) as (E & _ & _).
  destruct rest as [|[q e] after]; simpl; [by exists sl|].
  destruct (_ =? _)%Z; simpl; [|by exists sl].
  destruct Hinv as (_ & Hnd & Hlt).
  destruct (wf_removed sl before q e after (next w) E Hnd Hlt Hasc) as (N & F & A).
  exists (before ++ after). split_and!; [|done|].
  - apply (set_inv_intro _ _ h); [done | apply lookup_insert_eq | done | done].
  - rewrite E, !length_app. simpl. lia.
Qed.

(** Whatever the outcome of a changing call on a well-formed ascending set,
    return or exception, the set is well formed and ascending afterwards,
    and has grown by one element at most. *)
Lemma mutate_inv fuel w this sl m :
  (∀ a b c, CmpFcn a b = true → CmpFcn b c = true → CmpFcn a c = true) →
  set_inv w this sl → ascending sl.*2 →
  ∃ sl', set_inv (mutate fuel this m w) this sl' ∧ ascending sl'.*2
         ∧ length sl' ≤ S (length sl).
Proof.
  intros Htr Hinv Hasc. destruct m as [v|v|iter|]; simpl.
  - by apply set_insert_inv.
  - destruct (set_erase_inv w this sl v Hinv Hasc) as (sl' & ? & ? & ?).
    exists sl'. split_and!; [done | done | lia].
  - unfold set_erase_it, bind, readr.
    destruct (operator_deref w iter) as [v| | |]; simpl;
      try (exists sl; split_and!; [done | done | lia]).
    destruct (set_erase_inv w this sl v Hinv Hasc) as (sl' & ? & ? & ?).
    exists sl'. split_and!; [done | done | lia].
  - destruct (set_inv_handle _ _ _ Hinv) as (h & Ho & Hh).
    rewrite (set_clear_eq w this h sl Ho Hh). simpl.
    exists []. split_and!; [by apply cleared_inv | constructor | simpl; lia].
Qed.

(** Hence every set obtained from a construction by a sequence of changing
    calls is well formed and ascending. *)
Lemma run_mutations_inv fuel this ms : ∀ w sl,
  (∀ a b c, CmpFcn a b = true → CmpFcn b c = true → CmpFcn a c = true) →
  set_inv w this sl → ascending sl.*2 →
  ∃ sl', set_inv (run_mutations fuel this ms w) this sl' ∧ ascending sl'.*2
         ∧ length sl' ≤ length sl + length ms.
Proof.
  induction ms as [|m ms IH]; intros w sl Htr Hinv Hasc; simpl.
  - exists sl. split_and!; [done | done | lia].
  - destruct (mutate_inv fuel w this sl m Htr Hinv Hasc) as (sl1 & H1 & A1 & L1).
    destruct (IH _ sl1 Htr H1 A1) as (sl2 & H2 & A2 & L2).
    exists sl2. split_and!; [done | done | lia].
Qed.

(** ** The invariant of the whole memory *)

Lemma m_CSet_Some w this h :
  m_CSet w this = Some h → objs w !! this = Some (Some h).
Proof.
  unfold m_CSet. destruct (objs w !! this) as [[h'|]|]; simpl; try done.
  by intros [= ->].
Qed.

(** A step keeps the invariant when it keeps the memory well formed and
    every object with a handle either is as before, its slots untouched, or
    owns a well-formed ascending set through a handle no other object
    has. *)
Lemma good_step w w' :
  good w → (next w ≤ next w')%positive → world_wf w' →
  (∀ o h, objs w' !! o = Some (Some h) →
     (objs w !! o = Some (Some h) ∧ csets w' !! h = csets w !! h)
     ∨ ((∃ sl, set_inv w' o sl ∧ ascending sl.*2)
        ∧ ∀ o2, objs w' !! o2 = Some (Some h) → o2 = o)) →
  good w'.
Proof.
  intros (Hwf & Hsets & Hex) Hn Hwf' Hcl. split_and!; [done| |].
  - intros o h Ho. destruct (Hcl o h Ho) as [[Ho0 Hc]|[Hnew _]]; [|done].
    destruct (Hsets o h Ho0) as (sl & Hinv & Hasc). exists sl. split; [|done].
    destruct (set_inv_handle _ _ _ Hinv) as (h' & Ho' & Hh').
    rewrite Ho0 in Ho'. injection Ho' as <-.
    destruct Hinv as (_ & Hnd & Hlt).
    apply (set_inv_intro _ _ h); [done | by rewrite Hc | done |].
    eapply Forall_impl; [exact Hlt|]. simpl. lia.
  - intros o1 o2 h H1 H2.
    destruct (Hcl o1 h H1) as [[Ho1 _]|[_ Hu1]]; [|symmetry; by apply Hu1].
    destruct (Hcl o2 h H2) as [[Ho2 _]|[_ Hu2]]; [by apply (Hex o1 o2 h) | by apply Hu2].
Qed.

Lemma good_handle w o h :
  good w → objs w !! o = Some (Some h) →
  (o < next w)%positive ∧ (h < next w)%positive
  ∧ ∃ sl, csets w !! h = Some sl ∧ set_inv w o sl ∧ ascending sl.*2.
Proof.
  intros ([Hwo Hwc] & Hsets & _) Ho.
  destruct (Hsets o h Ho) as (sl & Hinv & Hasc).
  destruct (set_inv_handle _ _ _ Hinv) as (h' & Ho' & Hh').
  rewrite Ho in Ho'. injection Ho' as <-.
  split_and!; [apply (Hwo _ _ Ho) | apply (Hwc _ _ Hh') | by exists sl].
Qed.

Lemma good_empty : good empty_world.
Proof.
  split_and!.
  - split; apply map_Forall_empty.
  - intros o h Ho. simpl in Ho. by rewrite lookup_empty in Ho.
  - intros o1 o2 h Ho. simpl in Ho. by rewrite lookup_empty in Ho.
Qed.

Lemma good_mutate fuel this m w :
  (∀ a b c, CmpFcn a b = true → CmpFcn b c = true → CmpFcn a c = true) →
  good w → good (mutate fuel this m w).
Proof.
  intros Htr Hgood. pose proof Hgood as ([Hwo Hwc] & Hsets & Hex).
  destruct (mutate_frame fuel this m w) as (Ho & Hc & Hn & Hk).
  apply (good_step w); [done | done | |].
  - split.
    + rewrite Ho. intros o s Hos. specialize (Hwo o s Hos). simpl in *. lia.
    + intros h sl Hh. destruct (Hk h) as [sl0 Hh0]; [by rewrite Hh|].
      specialize (Hwc h sl0 Hh0). simpl in *. lia.
  - intros o h Hoh. rewrite Ho in Hoh.
    destruct (decide (m_CSet w this = Some h)) as [Hm|Hm].
    + apply m_CSet_Some in Hm. assert (o = this) as -> by by apply (Hex o this h).
      right. split.
      * destruct (Hsets this h Hm) as (sl & Hinv & Hasc).
        destruct (mutate_inv fuel w this sl m Htr Hinv Hasc) as (sl' & ? & ? & _).
        by exists sl'.
      * intros o2 Ho2. rewrite Ho in Ho2. by apply (Hex o2 this h).
    + left. split; [done|]. by apply Hc.
Qed.

Lemma world_wf_step w w' :
  world_wf w → (next w ≤ next w')%positive →
  (∀ o (s : option positive), objs w' !! o = Some s →
     is_Some (objs w !! o) ∨ (o < next w')%positive) →
  (∀ h sl, csets w' !! h = Some sl →
     is_Some (csets w !! h) ∨ (h < next w')%positive) →
  world_wf w'.
Proof.
  intros [Hwo Hwc] Hn Ho Hc. split.
  - intros o s Hos. destruct (Ho o s Hos) as [[s0 H0]|H0]; [|done].
    specialize (Hwo o s0 H0). simpl in *. lia.
  - intros h sl Hh. destruct (Hc h sl Hh) as [[sl0 H0]|H0]; [|done].
    specialize (Hwc h sl0 H0). simpl in *. lia.
Qed.

Lemma lookup_constructed (m : gmap positive (option positive)) n
    (s : option positive) o (x : option positive) :
  alter (λ _, s) n (<[n := None]> m) !! o = Some x →
  (o = n ∧ x = s) ∨ (o ≠ n ∧ m !! o = Some x).
Proof.
  destruct (decide (o = n)) as [->|Hne].
  - rewrite lookup_alter_eq, lookup_insert_eq. simpl. intros [= <-]. by left.
  - rewrite lookup_alter_ne, lookup_insert_ne by done. by right.
Qed.

Lemma lookup_abandoned (m : gmap positive (option positive)) n
    (s : option positive) o (x : option positive) :
  delete n (alter (λ _, s) n (<[n := None]> m)) !! o = Some x →
  o ≠ n ∧ m !! o = Some x.
Proof.
  destruct (decide (o = n)) as [->|Hne].
  - by rewrite lookup_delete_eq.
  - rewrite lookup_delete_ne, lookup_alter_ne, lookup_insert_ne by done. done.
Qed.

Lemma lookup_assigned (m : gmap positive (option positive)) this
    (s : option positive) o (x : option positive) :
  alter (λ _, s) this m !! o = Some x →
  (o = this ∧ x = s) ∨ (o ≠ this ∧ m !! o = Some x).
Proof.
  destruct (decide (o = this)) as [->|Hne].
  - rewrite lookup_alter_eq. destruct (m !! this); simpl; [|done].
    intros [= <-]. by left.
  - rewrite lookup_alter_ne by done. by right.
Qed.

(** Objects may have gone or lost their handle, the handles are as they
    were. *)
Lemma good_same_sets w w' :
  good w → csets w' = csets w → (next w ≤ next w')%positive →
  (∀ o h, objs w' !! o = Some (Some h) → objs w !! o = Some (Some h)) →
  (∀ o (s : option positive), objs w' !! o = Some s → is_Some (objs w !! o)) →
  good w'.
Proof.
  intros Hgood Hc Hn Ho Hlive. pose proof Hgood as (Hwf & _ & _).
  apply (good_step w); [done | done | |].
  - apply (world_wf_step w); [done | done | |].
    + intros o s Hos. left. by apply (Hlive o s).
    + intros h sl Hh. left. rewrite Hc in Hh. by eexists.
  - intros o h Hoh. left. split; [by apply Ho | by rewrite Hc].
Qed.

(** A new object with a new handle that holds the slots [slc]. *)
Lemma good_new_object w w' n hc (slc : list (positive * T)) :
  good w →
  (next w ≤ n)%positive → (n < hc)%positive → (hc < next w')%positive →
  (∀ o (x : option positive), objs w' !! o = Some x →
     (o = n ∧ x = Some hc) ∨ (o ≠ n ∧ objs w !! o = Some x)) →
  objs w' !! n = Some (Some hc) →
  csets w' = <[hc := slc]> (csets w) →
  NoDup slc.*1 → Forall (λ p, (p < next w')%positive) slc.*1 → ascending slc.*2 →
  good w'.
Proof.
  intros Hgood Hn Hhc Hnx Hobjs Hnew Hc Hnd Hlt Hasc.
  pose proof Hgood as (Hwf & _ & _).
  assert (∀ o h, objs w !! o = Some (Some h) → h ≠ hc) as Hold.
  { intros o h Ho. destruct (good_handle w o h Hgood Ho) as (_ & Hh & _). lia. }
  apply (good_step w); [done | lia | |].
  - apply (world_wf_step w); [done | lia | |].
    + intros o x [[-> _]|[_ Ho]]%Hobjs; [right; lia | left; by eexists].
    + intros h sl Hh. rewrite Hc in Hh.
      apply lookup_insert_Some in Hh as [[<- _]|[_ Hh]]; [right; lia | left; by eexists].
  - intros o h Ho. destruct (Hobjs o _ Ho) as [[-> [= ->]]|[Hne Ho0]].
    + right. split.
      * exists slc. split; [|done].
        apply (set_inv_intro _ _ hc); [done | | done | done].
        rewrite Hc. apply lookup_insert_eq.
      * intros o2 Ho2. destruct (Hobjs o2 _ Ho2) as [[-> _]|[_ Ho2']]; [done|].
        by destruct (Hold _ _ Ho2').
    + left. split; [done|]. rewrite Hc. apply lookup_insert_ne.
      intros E. by apply (Hold _ _ Ho0).
Qed.

Lemma good_ctor w : good w → good (set_ctor w).2.
Proof.
  intros Hgood.
  unfold set_ctor, bind, call, modify, setCreate, alloc, fresh, store_m_CSet,
    throw, ret. simpl.
  assert (∀ w', csets w' = <[Pos.succ (next w) := []]> (csets w) →
                objs w' = alter (λ _, Some (Pos.succ (next w))) (next w)
                                (<[next w := None]> (objs w)) →
                next w' = Pos.succ (Pos.succ (next w)) → good w') as Hnew.
  { intros w' Hc Ho Hn.
    apply (good_new_object w w' (next w) (Pos.succ (next w)) []);
      [ done | lia | lia | lia | | | done | constructor | constructor | constructor ].
    - intros o x Hox. rewrite Ho in Hox. by apply lookup_constructed in Hox.
    - by rewrite Ho, lookup_alter_eq, lookup_insert_eq. }
  destruct (oracle w) as [|[] orc]; simpl; [by apply Hnew | by apply Hnew |].
  apply (good_same_sets w); simpl; [done | done | lia | |].
  - intros o h Ho. by apply lookup_abandoned in Ho as [_ Ho].
  - intros o x Ho. apply lookup_abandoned in Ho as [_ Ho]. by eexists.
Qed.

Lemma setDestroy_keys s w h :
  is_Some (csets (setDestroy DestroyElementFcn s w) !! h) → is_Some (csets w !! h).
Proof.
  unfold setDestroy. destruct s as [ho|]; [|done].
  destruct (csets w !! ho) as [sl|] eqn:Hh; [|done].
  rewrite free_slots_eq. simpl. intros [x Hx].
  apply lookup_delete_Some in Hx as [_ Hx]. by eexists.
Qed.

(** Destroying the handle of one object leaves the handles of the others. *)
Lemma destroy_keeps_others w this o h :
  good w → o ≠ this → objs w !! o = Some (Some h) →
  csets (setDestroy DestroyElementFcn (m_CSet w this) w) !! h = csets w !! h.
Proof.
  intros (_ & _ & Hex) Hne Ho.
  destruct (setDestroy_effect (m_CSet w this) w) as (_ & _ & Hdc). apply Hdc.
  intros E. apply m_CSet_Some in E. apply Hne. by apply (Hex o this h).
Qed.

Lemma good_cctor src w : good w → good (set_cctor src w).2.
Proof.
  intros Hgood. unfold set_cctor, bind, call, modify, read. simpl.
  match goal with
  | |- context [setCopy _ _ (m_CSet ?x src) _] => set (w0 := x)
  end.
  destruct (setCopy _ _ _ _) as [[hc|] w2] eqn:Hcopy; simpl.
  - destruct (setCopy_Some _ _ _ _ Hcopy)
      as (sl0 & slc & Hs0 & -> & Hcs & Hob & He & Hnx & Hall & Hnd).
    destruct (m_CSet w0 src) as [h|] eqn:Hm; [|done].
    apply m_CSet_Some in Hm. unfold w0 in Hm. simpl in Hm.
    apply lookup_insert_Some in Hm as [[_ [=]]|[Hne Hm]].
    destruct (good_handle w src h Hgood Hm) as (_ & _ & sl & Hh & _ & Hasc).
    rewrite slots_at_Some in Hs0. change (csets w0) with (csets w) in Hs0.
    rewrite Hh in Hs0. injection Hs0 as <-.
    apply (good_new_object w _ (next w) (next w0) slc); simpl;
      [ done | lia | unfold w0; simpl; lia | done | | | done | done | |].
    + intros o x Hox. rewrite Hob in Hox. by apply lookup_constructed in Hox.
    + rewrite Hob. unfold w0. simpl. by rewrite lookup_alter_eq, lookup_insert_eq.
    + eapply Forall_impl; [exact Hall|]. simpl. lia.
    + unfold ascending. by rewrite He.
  - destruct (setCopy_None _ _ _ Hcopy) as (Hcs & Hob & Hn).
    apply (good_same_sets w); simpl; [done | done | unfold w0 in Hn; simpl in Hn; lia | |].
    + intros o h Ho. rewrite Hob in Ho. by apply lookup_abandoned in Ho as [_ Ho].
    + intros o x Ho. rewrite Hob in Ho. apply lookup_abandoned in Ho as [_ Ho].
      by eexists.
Qed.

Lemma good_dtor this w : good w → good (set_dtor this w).2.
Proof.
  intros Hgood. pose proof Hgood as (Hwf & _ & _).
  unfold set_dtor, bind, modify, read. simpl.
  destruct (setDestroy_effect (m_CSet w this) w) as (Hdo & Hdn & _).
  apply (good_step w); simpl; [done | lia | |].
  - apply (world_wf_step w); simpl; [done | lia | |].
    + intros o x Hox. rewrite Hdo in Hox.
      apply lookup_delete_Some in Hox as [_ Hox]. left. by eexists.
    + intros h sl Hh. left. apply (setDestroy_keys (m_CSet w this)). by eexists.
  - intros o h Ho. rewrite Hdo in Ho. apply lookup_delete_Some in Ho as [Hne Ho].
    left. split; [done|].
    apply (destroy_keeps_others w this o h); [done | congruence | done].
Qed.

Lemma good_assign this src w : good w → good (set_assign this src w).2.
Proof.
  intros Hgood. pose proof Hgood as (Hwf & _ & _).
  unfold set_assign. destruct (decide (this = src)) as [->|Hne]; [done|].
  unfold bind, call, modify, read. simpl.
  destruct (setDestroy_effect (m_CSet w this) w) as (Hdo & Hdn & Hdc).
  set (wd := setDestroy DestroyElementFcn (m_CSet w this) w) in *.
  assert (∀ h sl, csets wd !! h = Some sl → is_Some (csets w !! h)) as Hkeys.
  { intros h sl Hh. apply (setDestroy_keys (m_CSet w this)). by eexists. }
  destruct (setCopy _ _ _ _) as [[hc|] w2] eqn:Hcopy; simpl.
  - destruct (setCopy_Some _ _ _ _ Hcopy)
      as (sl0 & slc & Hs0 & -> & Hcs & Hob & He & Hnx & Hall & Hnd).
    destruct (m_CSet wd src) as [h|] eqn:Hm; [|done].
    apply m_CSet_Some in Hm. rewrite Hdo in Hm.
    destruct (good_handle w src h Hgood Hm) as (_ & Hhlt & sl & Hh & _ & Hasc).
    rewrite slots_at_Some in Hs0. unfold wd in Hs0.
    rewrite (destroy_keeps_others w this src h Hgood) in Hs0 by done.
    rewrite Hh in Hs0. injection Hs0 as <-. fold wd in Hcs.
    rewrite Hdn in *.
    assert (∀ o h', objs w !! o = Some (Some h') → h' ≠ next w) as Hold.
    { intros o h' Ho. destruct (good_handle w o h' Hgood Ho) as (_ & ? & _). lia. }
    apply (good_step w); simpl; [done | lia | |].
    + apply (world_wf_step w); simpl; [done | lia | |].
      * intros o x Hox. rewrite Hob, Hdo in Hox. left.
        apply (lookup_alter_is_Some (λ _, Some (next w)) _ this o). by eexists.
      * intros h' sl' Hh'. rewrite Hcs in Hh'.
        apply lookup_insert_Some in Hh' as [[<- _]|[_ Hh']]; [right; lia|].
        left. by apply (Hkeys h' sl').
    + intros o h' Ho. rewrite Hob, Hdo in Ho. pose proof Ho as Ho'.
      apply lookup_assigned in Ho as [[-> [= ->]]|[Hno Ho]].
      * right. split.
        -- exists slc. split; [|unfold ascending; by rewrite He].
           apply (set_inv_intro _ _ (next w)); simpl.
           ++ by rewrite Hob, Hdo.
           ++ rewrite Hcs. apply lookup_insert_eq.
           ++ done.
           ++ eapply Forall_impl; [exact Hall|]. simpl. lia.
        -- intros o2 Ho2. rewrite Hob, Hdo in Ho2.
           apply lookup_assigned in Ho2 as [[-> _]|[_ Ho2]]; [done|].
           by destruct (Hold _ _ Ho2).
      * left. split; [done|]. rewrite Hcs, lookup_insert_ne.
        -- apply (destroy_keeps_others w this o h'); [done | congruence | done].
        -- intros E. by apply (Hold _ _ Ho).
  - destruct (setCopy_None _ _ _ Hcopy) as (Hcs & Hob & Hn).
    rewrite Hdn in Hn.
    apply (good_step w); simpl; [done | lia | |].
    + apply (world_wf_step w); simpl; [done | lia | |].
      * intros o x Hox. rewrite Hob, Hdo in Hox. left.
        apply (lookup_alter_is_Some (λ _, None) _ this o). by eexists.
      * intros h' sl' Hh'. rewrite Hcs in Hh'. left. by apply (Hkeys h' sl').
    + intros o h' Ho. rewrite Hob, Hdo in Ho.
      apply lookup_assigned in Ho as [[_ [=]]|[Hno Ho]].
      left. split; [done|]. rewrite Hcs.
      apply (destroy_keeps_others w this o h'); [done | congruence | done].
Qed.

(** Every memory a program reaches from the empty one by calls on sets
    satisfies the invariant: the sets it holds are well formed, ascending
    and exclusively owned. *)
Lemma reachable_good fuel cs :
  (∀ a b c, CmpFcn a b = true → CmpFcn b c = true → CmpFcn a c = true) →
  good (run fuel cs empty_world).
Proof.
  intros Htr. unfold run.
  assert (∀ w, good w → good (foldl (λ w' c, exec fuel c w') w cs)) as H.
  { induction cs as [|c cs IH]; intros w Hgood; simpl; [done|].
    apply IH. destruct c as [|src|this src|this|this m]; simpl.
    - by apply good_ctor.
    - by apply good_cctor.
    - by apply good_assign.
    - by apply good_dtor.
    - by apply good_mutate. }
  apply H, good_empty.
Qed.

(** ** The order of iteration *)

(** C1. For every sequence of [insert] calls on a newly constructed set
    (in particular for every sequence of calls that succeed), the iteration
    from [begin()] to [end()] ends and visits exactly the stored elements,
    in strictly ascending order under [CmpFcn]; no two visited elements
    compare equal. As the sequence is arbitrary, this holds after every
    call of it. It also holds after every sequence of [insert], [erase]
    and [clear] calls, and for every set in every memory that a program
    reaches from the empty one by constructing, copying, assigning,
    destroying and changing sets. The order predicate is assumed
    transitive, as the data model requires. *)
Theorem iteration_strictly_ascending :
  (∀ a b c, CmpFcn a b = true → CmpFcn b c = true → CmpFcn a c = true) →
  (∀ (w0 w1 : world) (this : positive) (fuel : nat),
     set_ctor w0 = (Ok this, w1) →
     (∀ vs : list T,
        length vs < fuel →
        let w := run_inserts fuel this vs w1 in
        ∃ sl, slots_at w (m_CSet w this) = Some sl
              ∧ traverse fuel this w = Ok sl.*2
              ∧ ascending sl.*2
              ∧ ∀ i j x y, i < j → sl.*2 !! i = Some x → sl.*2 !! j = Some y →
                  CmpFcn x y = true
                  ∧ CompareElementFcn (Some x) (Some y) ≠ 0%Z
                  ∧ CompareElementFcn (Some y) (Some x) ≠ 0%Z)
     ∧ (∀ ms : list mutation,
        length ms < fuel →
        let w := run_mutations fuel this ms w1 in
        ∃ sl, slots_at w (m_CSet w this) = Some sl
              ∧ traverse fuel this w = Ok sl.*2
              ∧ ascending sl.*2
              ∧ ∀ i j x y, i < j → sl.*2 !! i = Some x → sl.*2 !! j = Some y →
                  CmpFcn x y = true
                  ∧ CompareElementFcn (Some x) (Some y) ≠ 0%Z
                  ∧ CompareElementFcn (Some y) (Some x) ≠ 0%Z))
  ∧ (∀ (fuel : nat) (cs : list command) (this h : positive),
       let w := run fuel cs empty_world in
       objs w !! this = Some (Some h) →
       ∃ sl, slots_at w (m_CSet w this) = Some sl
             ∧ (∀ f, length sl < f → traverse f this w = Ok sl.*2)
             ∧ ascending sl.*2
             ∧ ∀ i j x y, i < j → sl.*2 !! i = Some x → sl.*2 !! j = Some y →
                 CmpFcn x y = true
                 ∧ CompareElementFcn (Some x) (Some y) ≠ 0%Z
                 ∧ CompareElementFcn (Some y) (Some x) ≠ 0%Z).
Proof.
  intros Htr. split.
  - intros w0 w1 this fuel Hctor.
    pose proof (set_ctor_inv _ _ _ Hctor) as Hinv.
    assert (ascending ([] : list (positive * T)).*2) as Hnil by constructor.
    split.
    + intros vs Hfuel w.
      destruct (run_inserts_inv fuel this vs w1 [] Htr Hinv Hnil)
        as (sl & (Hs & Hnd & Hlt) & Hasc & Hlen).
      simpl in Hlen. exists sl.
      split_and!; [done | | done | by apply ascending_distinct].
      apply traverse_eq; [done | done | lia].
    + intros ms Hfuel w.
      destruct (run_mutations_inv fuel this ms w1 [] Htr Hinv Hnil)
        as (sl & (Hs & Hnd & Hlt) & Hasc & Hlen).
      simpl in Hlen. exists sl.
      split_and!; [done | | done | by apply ascending_distinct].
      apply traverse_eq; [done | done | lia].
  - intros fuel cs this h w Ho.
    destruct (reachable_good fuel cs Htr) as (_ & Hsets & _).
    destruct (Hsets this h Ho) as (sl & (Hs & Hnd & Hlt) & Hasc).
    exists sl. split_and!; [done | | done | by apply ascending_distinct].
    intros f Hf. by apply traverse_eq.
Qed.

(** * Further properties of the adapter *)

(** ** The comparison trampoline *)

(** X1. For an order predicate that never holds both ways,
    [CompareElementFcn] is a three-way comparison: its result is -1, 0 or
    1, swapping the arguments negates it, it is negative exactly when the
    left element is less and positive exactly when the right one is. With a
    [NULL] argument the result is 0: [NULL] compares equal to everything. *)
Theorem CompareElementFcn_three_way :
  (∀ a b, CmpFcn a b = true → CmpFcn b a = false) →
  ∀ left right : SetElement,
    CompareElementFcn left right = (- CompareElementFcn right left)%Z
    ∧ (CompareElementFcn left right = (-1)%Z
       ∨ CompareElementFcn left right = 0%Z
       ∨ CompareElementFcn left right = 1%Z)
    ∧ (left = None ∨ right = None → CompareElementFcn left right = 0%Z)
    ∧ (∀ a b, left = Some a → right = Some b →
         ((CompareElementFcn left right < 0)%Z ↔ CmpFcn a b = true)
         ∧ ((0 < CompareElementFcn left right)%Z ↔ CmpFcn b a = true)
         ∧ (CompareElementFcn left right = 0%Z
            ↔ CmpFcn a b = false ∧ CmpFcn b a = false)).
Proof.
  intros Hasym left right. unfold CompareElementFcn.
  destruct left as [a|], right as [b|]; simpl;
    try (split_and!; [done | by right; left | done | by intros]).
  pose proof (Hasym a b) as Hab. pose proof (Hasym b a) as Hba.
  split_and!.
  - destruct (CmpFcn a b), (CmpFcn b a); try done. by specialize (Hab eq_refl).
  - destruct (CmpFcn a b), (CmpFcn b a); auto.
  - by intros [|].
  - intros a' b' [= <-] [= <-].
    destruct (CmpFcn a b) eqn:E1, (CmpFcn b a) eqn:E2;
      try (by specialize (Hab eq_refl));
      (split_and!; split; try done; try lia; by intros [? ?]).
Qed.

(** ** Construction *)

(** X2. The default constructor. When the engine's allocation succeeds it
    returns a new object that owns an empty set: [size()] is 0, [begin()]
    is the past-the-end position, [find] throws [ElementNotFound] for every
    value and the iteration visits nothing. When the allocation is refused
    it throws [Exception], and neither an object nor a handle has come to
    life. *)
Theorem new_set_is_empty (w : world) :
  (head (oracle w) ≠ Some false →
   ∃ w1,
     set_ctor w = (Ok (next w), w1)
     ∧ set_inv w1 (next w) []
     ∧ set_size (next w) w1 = Ok 0%Z
     ∧ set_begin w1 (next w) = ConstIterator (next w) None
     ∧ (∀ fuel, set_end fuel w1 (next w) = Ok (ConstIterator (next w) None))
     ∧ (∀ fuel v, 0 < fuel → set_find fuel (next w) v w1 = Throw ElementNotFound)
     ∧ (∀ fuel, 0 < fuel → traverse fuel (next w) w1 = Ok [])
     ∧ live w1 = live w)
  ∧ (head (oracle w) = Some false →
     ∃ w1,
       set_ctor w = (Throw Exception, w1)
       ∧ csets w1 = csets w
       ∧ live w1 = live w
       ∧ objs w1 !! next w = None
       ∧ ∀ o, o ≠ next w → objs w1 !! o = objs w !! o).
Proof.
  split.
  - intros Horc.
    assert (∃ w1, set_ctor w = (Ok (next w), w1) ∧ live w1 = live w) as (w1 & E & Hl).
    { unfold set_ctor, bind, call, modify, setCreate, alloc, fresh, store_m_CSet,
        throw, ret. simpl.
      destruct (oracle w) as [|[] orc]; simpl; try done; by eexists. }
    exists w1. pose proof (set_ctor_inv _ _ _ E) as Hinv.
    pose proof Hinv as (Hs & Hnd & _).
    split_and!; [done | done | | | | | | done].
    + by rewrite (set_size_eq _ _ _ Hinv).
    + by rewrite (begin_eq w1 (next w) [] Hs).
    + intros fuel. apply (set_end_eq w1 (next w) [] Hs Hnd). simpl. lia.
    + intros fuel v Hf. by rewrite (set_find_eq w1 (next w) [] Hs Hnd fuel v Hf).
    + intros fuel Hf. by rewrite (traverse_eq w1 (next w) [] Hs Hnd fuel Hf).
  - intros Horc.
    unfold set_ctor, bind, call, modify, setCreate, alloc, fresh, store_m_CSet,
      throw, ret. simpl.
    destruct (oracle w) as [|[] orc]; simpl; try done.
    eexists. split; [reflexivity|]. simpl. split_and!; [done | done | |].
    + apply lookup_delete_eq.
    + intros o Hne.
      by rewrite lookup_delete_ne, lookup_alter_ne, lookup_insert_ne.
Qed.

(** ** [size], [begin] and [end] *)

(** X3. On a set, [size()] is the number of elements that the iteration
    from [begin()] to [end()] visits, and [begin() == end()] holds exactly
    when [size()] is 0. [cbegin()] and [cend()] give what [begin()] and
    [end()] give. *)
Theorem size_counts_iteration (w : world) (this : positive)
    (sl : list (positive * T)) (fuel : nat) :
  set_inv w this sl →
  length sl < fuel →
  ∃ l e,
    traverse fuel this w = Ok l
    ∧ set_size this w = Ok (Z.of_nat (length l))
    ∧ set_end fuel w this = Ok e
    ∧ (operator_eq (set_begin w this) e = true ↔ set_size this w = Ok 0%Z)
    ∧ set_cbegin w this = set_begin w this
    ∧ set_cend fuel w this = set_end fuel w this.
Proof.
  intros Hinv Hf. pose proof Hinv as (Hs & Hnd & _).
  exists sl.*2, (ConstIterator this None).
  rewrite (traverse_eq w this sl Hs Hnd fuel Hf), (set_size_eq _ _ _ Hinv).
  rewrite (set_end_eq w this sl Hs Hnd fuel) by lia.
  rewrite (begin_eq w this sl Hs), length_fmap.
  split_and!; [done | done | done | | |].
  - unfold operator_eq. simpl. rewrite bool_decide_eq_true.
    destruct sl as [|[p x] sl']; simpl; split; intros H; try done; by inversion H.
  - unfold set_cbegin. by rewrite (begin_eq w this sl Hs).
  - unfold set_cend. apply (set_end_eq w this sl Hs Hnd fuel). lia.
Qed.

(** X4. Advancing a position of a set. From a slot that has a successor,
    [++] goes to that successor, whose element is strictly greater in an
    ascending set. From the last slot, from the past-the-end position and
    from a position that is no slot of the set, [++] gives the past-the-end
    position; dereferencing that position throws [InvalidIterator]. The
    postfix form returns the position it started from. *)
Theorem increment_walks_ascending (w : world) (this : positive)
    (sl : list (positive * T)) :
  set_inv w this sl →
  ascending sl.*2 →
  (∀ pre p x q y rest,
     sl = pre ++ (p, x) :: (q, y) :: rest →
     operator_incr w (ConstIterator this (Some p)) = ConstIterator this (Some q)
     ∧ operator_deref w (ConstIterator this (Some p)) = Ok x
     ∧ operator_deref w (ConstIterator this (Some q)) = Ok y
     ∧ CmpFcn x y = true)
  ∧ (∀ pre p x,
     sl = pre ++ [(p, x)] →
     operator_incr w (ConstIterator this (Some p)) = ConstIterator this None)
  ∧ operator_incr w (ConstIterator this None) = ConstIterator this None
  ∧ (∀ p, p ∉ sl.*1 →
     operator_incr w (ConstIterator this (Some p)) = ConstIterator this None)
  ∧ operator_deref w (ConstIterator this None) = Throw InvalidIterator
  ∧ (∀ it, operator_incr_post w it = (it, operator_incr w it)).
Proof.
  intros (Hs & Hnd & _) Hasc. split_and!.
  - intros pre p x q y rest E.
    rewrite (incr_middle w this sl Hs Hnd pre p x _ E).
    rewrite (deref_middle w this sl Hs Hnd pre p x _ E).
    rewrite (deref_middle w this sl Hs Hnd (pre ++ [(p, x)]) q y rest)
      by by rewrite <- app_assoc.
    split_and!; try done.
    unfold ascending in Hasc. rewrite E, fmap_app in Hasc. simpl in Hasc.
    apply StronglySorted_app_1_r, StronglySorted_cons in Hasc as [Hall _].
    by apply Forall_cons in Hall as [Hxy _].
  - intros pre p x E. by rewrite (incr_middle w this sl Hs Hnd pre p x [] E).
  - unfold operator_incr, setGetNext. simpl. by rewrite Hs.
  - intros p Hp. unfold operator_incr, setGetNext. simpl. rewrite Hs. simpl.
    by rewrite slot_next_absent.
  - unfold operator_deref, setGetElement. simpl. by rewrite Hs.
  - done.
Qed.

(** ** The iteration macro of the engine *)

(** X5. [SET_FOREACH] over the handle of a set ends and visits the slots
    of the set one by one, in their order, each with its element: the same
    elements in the same order as the iteration from [begin()] to [end()]
    of the adapter. Over [NULL] it visits nothing. *)
Theorem SET_FOREACH_visits_every_slot (w : world) (this : positive)
    (sl : list (positive * T)) (fuel : nat) :
  set_inv w this sl →
  length sl < fuel →
  SET_FOREACH fuel w (m_CSet w this) = Ok ((λ s, (s.1, Some s.2)) <$> sl)
  ∧ traverse fuel this w = Ok sl.*2
  ∧ SET_FOREACH fuel w None = Ok [].
Proof.
  intros (Hs & Hnd & _) Hf. split_and!.
  - unfold SET_FOREACH, setGetFirst. rewrite Hs. simpl.
    apply (SET_FOREACH_loop_suffix w (m_CSet w this) sl Hs Hnd sl []); [done | lia].
  - by apply traverse_eq.
  - by destruct fuel.
Qed.

(** ** An object whose handle is [NULL] *)

Lemma end_loop_at_end fuel w it :
  m_Current it = None → end_loop fuel w it = Ok it.
Proof. intros E. destruct fuel; simpl; by rewrite E. Qed.

(** X6. The member functions on an object whose [m_CSet] is [NULL], as a
    copy assignment that threw leaves it. [size()], [insert], [erase] and
    [clear] stop at their assertion and change nothing. [find] has no
    assertion: [begin()] and [end()] are both the past-the-end position, so
    [find] throws [ElementNotFound] and the iteration visits nothing. The
    destructor returns, and only the object is gone. *)
Theorem members_without_handle (w : world) (this : positive) :
  objs w !! this = Some None →
  set_size this w = Abort
  ∧ (∀ fuel v, set_insert fuel this v w = (Abort, w))
  ∧ (∀ v, set_erase this v w = (Abort, w))
  ∧ set_clear this w = (Abort, w)
  ∧ set_begin w this = ConstIterator this None
  ∧ (∀ fuel, set_end fuel w this = Ok (ConstIterator this None))
  ∧ (∀ fuel v, 0 < fuel → set_find fuel this v w = Throw ElementNotFound)
  ∧ (∀ fuel, 0 < fuel → traverse fuel this w = Ok [])
  ∧ set_dtor this w = (Ok tt, with_objs (delete this) w).
Proof.
  intros Ho. pose proof (m_CSet_eq _ _ _ Ho) as Hm.
  assert (set_begin w this = ConstIterator this None) as Hb.
  { unfold set_begin, setGetFirst. by rewrite Hm. }
  assert (∀ fuel, set_end fuel w this = Ok (ConstIterator this None)) as He.
  { intros fuel. unfold set_end. rewrite Hb. by apply end_loop_at_end. }
  split_and!.
  - unfold set_size. by rewrite Hm.
  - intros fuel v. unfold set_insert, bind, read, assert_. simpl. by rewrite Hm.
  - intros v. unfold set_erase, bind, read, assert_. simpl. by rewrite Hm.
  - unfold set_clear, bind, read, assert_. simpl. by rewrite Hm.
  - done.
  - done.
  - intros fuel v Hf. unfold set_find. rewrite Hb.
    destruct fuel as [|fuel]; [lia|]. simpl. by rewrite He.
  - intros fuel Hf. unfold traverse, set_cbegin. rewrite Hb.
    destruct fuel as [|fuel]; [lia|]. simpl. by rewrite He.
  - unfold set_dtor, bind, read, modify. simpl. by rewrite Hm.
Qed.

(** X7. A set whose handle is [NULL] cannot be copied, and assigning it
    damages the target. The copy constructor throws [Exception] and creates
    nothing. [operator=] does not look at the source before it destroys the
    handle of its target: it then throws [Exception], and the target is
    left with a [NULL] handle too, its former handle destroyed. *)
Theorem missing_handle_spreads (w : world) (src : positive) :
  m_CSet w src = None →
  (∃ w',
     set_cctor src w = (Throw Exception, w')
     ∧ csets w' = csets w
     ∧ live w' = live w
     ∧ objs w' !! next w = None
     ∧ ∀ o, o ≠ next w → objs w' !! o = objs w !! o)
  ∧ (∀ this (old : option positive),
       this ≠ src → objs w !! this = Some old →
       ∃ w',
         set_assign this src w = (Throw Exception, w')
         ∧ objs w' !! this = Some None
         ∧ (∀ h, old = Some h → csets w' !! h = None)
         ∧ ∀ o, o ≠ this → objs w' !! o = objs w !! o).
Proof.
  intros Hm. split.
  - unfold set_cctor, bind, call, modify, read, throw. simpl.
    match goal with
    | |- context [setCopy _ _ (m_CSet ?x src) _] => set (w0 := x)
    end.
    assert (m_CSet w0 src = None) as Hm0.
    { unfold m_CSet, w0. simpl. destruct (decide (src = next w)) as [->|Hne].
      - by rewrite lookup_insert_eq.
      - by rewrite lookup_insert_ne. }
    rewrite Hm0. unfold setCopy. simpl.
    eexists. split; [reflexivity|]. simpl. split_and!; [done | done | |].
    + apply lookup_delete_eq.
    + intros o Hne.
      by rewrite lookup_delete_ne, lookup_alter_ne, lookup_insert_ne.
  - intros this old Hne Hold. unfold set_assign. rewrite decide_False by done.
    unfold bind, call, modify, read, throw. simpl.
    rewrite (m_CSet_eq _ _ _ Hold).
    destruct (setDestroy_effect old w) as (Hdo & _ & _).
    assert (m_CSet (setDestroy DestroyElementFcn old w) src = None) as Hmd.
    { unfold m_CSet in *. by rewrite Hdo. }
    rewrite Hmd. unfold setCopy. simpl.
    eexists. split; [reflexivity|]. simpl. split_and!.
    + by rewrite Hdo, lookup_alter_eq, Hold.
    + intros h ->. apply setDestroy_gone.
    + intros o Ho. by rewrite Hdo, lookup_alter_ne.
Qed.

(** ** Destruction *)

(** X8. The destructor of a set frees every element the set holds and its
    handle, and the object is gone; the other objects, the other handles
    and their slots are what they were. *)
Theorem destructor_frees_the_set (w : world) (this h : positive)
    (sl : list (positive * T)) :
  objs w !! this = Some (Some h) →
  csets w !! h = Some sl →
  ∃ w',
    set_dtor this w = (Ok tt, w')
    ∧ objs w' = delete this (objs w)
    ∧ csets w' = delete h (csets w)
    ∧ live w' = (live w - Z.of_nat (length sl))%Z
    ∧ next w' = next w
    ∧ (∀ o, o ≠ this → objs w' !! o = objs w !! o)
    ∧ (∀ h', h' ≠ h → csets w' !! h' = csets w !! h').
Proof.
  intros Ho Hh. unfold set_dtor, bind, read, modify. simpl.
  rewrite (m_CSet_eq _ _ _ Ho). unfold setDestroy. rewrite Hh, free_slots_eq.
  eexists. split; [reflexivity|]. simpl. split_and!; try done.
  - intros o Hne. by rewrite lookup_delete_ne.
  - intros h' Hne. by rewrite lookup_delete_ne.
Qed.

(** X9. Constructing a set and destroying it at once leaves the objects,
    the handles and the number of live [T] objects as they were found. *)
Theorem construct_then_destroy (w : world) :
  world_wf w →
  head (oracle w) ≠ Some false →
  ∃ w1 w2,
    set_ctor w = (Ok (next w), w1)
    ∧ set_dtor (next w) w1 = (Ok tt, w2)
    ∧ objs w2 = objs w
    ∧ csets w2 = csets w
    ∧ live w2 = live w.
Proof.
  intros [Hwo Hwc] Horc.
  assert (objs w !! next w = None) as Hon.
  { destruct (objs w !! next w) as [x|] eqn:E; [|done].
    specialize (Hwo _ _ E). simpl in Hwo. lia. }
  assert (csets w !! Pos.succ (next w) = None) as Hcn.
  { destruct (csets w !! Pos.succ (next w)) as [x|] eqn:E; [|done].
    specialize (Hwc _ _ E). simpl in Hwc. lia. }
  assert (∀ orc,
    ∃ w2, set_dtor (next w)
            (World (<[Pos.succ (next w) := []]> (csets w))
                   (alter (λ _, Some (Pos.succ (next w))) (next w)
                          (<[next w := None]> (objs w)))
                   (Pos.succ (Pos.succ (next w))) orc (live w)) = (Ok tt, w2)
          ∧ objs w2 = objs w ∧ csets w2 = csets w ∧ live w2 = live w) as Hd.
  { intros orc. unfold set_dtor, bind, read, modify. simpl.
    unfold m_CSet. simpl. rewrite lookup_alter_eq, lookup_insert_eq. simpl.
    rewrite lookup_insert_eq. rewrite free_slots_eq. simpl.
    eexists. split; [reflexivity|]. simpl. split_and!.
    - by rewrite delete_alter_eq, delete_insert_eq, delete_id.
    - by rewrite delete_insert_eq, delete_id.
    - lia. }
  unfold set_ctor, bind, call, modify, setCreate, alloc, fresh, store_m_CSet,
    throw, ret. simpl.
  destruct (oracle w) as [|[] orc]; simpl; try done.
  - destruct (Hd []) as (w2 & E & ?). by eexists _, w2.
  - destruct (Hd orc) as (w2 & E & ?). by eexists _, w2.
Qed.

(** ** Compositions of [insert], [erase] and [find] *)

Lemma scan_app v (before r : list (positive * T)) :
  Forall (λ s, CmpFcn s.2 v = true) before →
  (∀ q e after, r = (q, e) :: after → CmpFcn e v = false) →
  scan CompareElementFcn (Some v) (before ++ r) = (before, r).
Proof.
  intros Hb Hr. induction Hb as [|[p e] before Hlt Hall IH]; simpl.
  - destruct r as [|[q e] after]; [done|]. simpl.
    by rewrite compare_lt, (Hr q e after eq_refl).
  - simpl in Hlt. by rewrite compare_lt, Hlt, IH.
Qed.

Section Compose.

Hypothesis Hsto : strict_total_order.

Lemma elem_of_or_not (v : T) (l : list T) : v ∈ l ∨ v ∉ l.
Proof using Hsto.
  induction l as [|x l [IH|IH]].
  - right. apply not_elem_of_nil.
  - left. by right.
  - destruct (T_eq x v) eqn:E.
    + apply (eq_spec Hsto) in E as ->. left. left.
    + right. intros [->|H]%elem_of_cons; [|done].
      by rewrite (T_eq_refl Hsto) in E.
Qed.

Lemma not_stored_ne (v : T) (l : list T) :
  v ∉ l → ∀ e, e ∈ l → CompareElementFcn (Some e) (Some v) ≠ 0%Z.
Proof using Hsto.
  intros Hv e He Hz. by apply (compare_zero_eq Hsto) in Hz as ->.
Qed.

Lemma ascending_NoDup (l : list T) : ascending l → NoDup l.
Proof using Hsto.
  induction 1 as [|a l Hs IH Hall]; constructor; [|done].
  intros Hin. apply (proj1 (Forall_forall _ _) Hall) in Hin.
  by rewrite (lt_irrefl Hsto) in Hin.
Qed.

Lemma scan_split (sl : list (positive * T)) v before rest :
  ascending sl.*2 →
  scan CompareElementFcn (Some v) sl = (before, rest) →
  sl = before ++ rest
  ∧ Forall (λ s, CmpFcn s.2 v = true) before
  ∧ (v ∉ sl.*2 → Forall (λ x, CmpFcn v x = true) rest.*2)
  ∧ (v ∈ sl.*2 → ∃ q after, rest = (q, v) :: after
                            ∧ Forall (λ x, CmpFcn v x = true) after.*2).
Proof using Hsto.
  intros Hasc0 Hs. destruct (scan_spec _ _ _ _ Hs) as (E & Hb & Hr).
  pose proof Hasc0 as Hasc. unfold ascending in Hasc. rewrite E, fmap_app in Hasc.
  apply StronglySorted_app_1_r in Hasc.
  split_and!; [done | done | |].
  - intros Hv.
    pose proof (scan_miss Hsto sl v before rest Hs (not_stored_ne v _ Hv)) as Hst.
    pose proof (stopped_at_equal_false _ _ Hst Hr) as Hgt.
    destruct rest as [|[q e] after]; [constructor|]. simpl in *.
    apply StronglySorted_cons in Hasc as [Hall _].
    pose proof (Hgt q e after eq_refl) as Hve.
    constructor; [done|]. eapply Forall_impl; [exact Hall|].
    intros x Hx. by apply (lt_trans Hsto v e x).
  - intros Hv.
    destruct (scan_hit Hsto sl v before rest Hasc0 Hs Hv) as (q & after & ->).
    exists q, after. split; [done|]. simpl in Hasc.
    by apply StronglySorted_cons in Hasc as [Hall _].
Qed.

(** [insert] of a value that is not stored, the allocation succeeding. *)
Lemma set_insert_new fuel w this sl v :
  set_inv w this sl → ascending sl.*2 → v ∉ sl.*2 →
  head (oracle w) ≠ Some false → S (length sl) < fuel →
  ∃ h before rest,
    objs w !! this = Some (Some h) ∧ csets w !! h = Some sl
    ∧ sl = before ++ rest
    ∧ Forall (λ s, CmpFcn s.2 v = true) before
    ∧ Forall (λ x, CmpFcn v x = true) rest.*2
    ∧ set_inv (added w h (before ++ (next w, v) :: rest)) this
              (before ++ (next w, v) :: rest)
    ∧ ascending (before ++ (next w, v) :: rest).*2
    ∧ set_find fuel this v (added w h (before ++ (next w, v) :: rest))
      = Ok (ConstIterator this (Some (next w)))
    ∧ set_insert fuel this v w
      = (Ok (ConstIterator this (Some (next w)), true),
         added w h (before ++ (next w, v) :: rest)).
Proof using Hsto.
  intros Hinv Hasc Hv Horc Hf.
  destruct (set_inv_handle _ _ _ Hinv) as (h & Ho & Hh).
  destruct (scan CompareElementFcn (Some v) sl) as [before rest] eqn:Hs.
  destruct (scan_split sl v before rest Hasc Hs) as (E & Hb & Hr & _).
  pose proof (scan_miss Hsto sl v before rest Hs (not_stored_ne v _ Hv)) as Hst.
  pose proof (set_insert_eq fuel w this h sl v before rest Ho Hh Hs) as Hins.
  rewrite Hst in Hins.
  pose proof (ascending_added sl v before rest (next w) (lt_trans Hsto) Hs Hst Hasc)
    as Hasc'.
  destruct Hinv as (Hsl & Hnd & Hlt).
  destruct (wf_added sl v before rest (next w) E Hnd Hlt) as [Hnd' Hlt'].
  set (sl' := before ++ (next w, v) :: rest) in *.
  assert (set_inv (added w h sl') this sl') as Hinv'.
  { apply (set_inv_intro _ _ h); [done | apply lookup_insert_eq | done | done]. }
  assert (set_find fuel this v (added w h sl')
          = Ok (ConstIterator this (Some (next w)))) as Hfind.
  { destruct Hinv' as (Hsl' & _ & _).
    rewrite (set_find_eq _ this sl' Hsl' Hnd' fuel v).
    - unfold sl'. by rewrite (find_slot_at Hsto).
    - unfold sl'. rewrite E, !length_app in *. simpl. lia. }
  exists h, before, rest.
  split_and!; [done | done | done | done | by apply Hr | done | done | done |].
  rewrite Hins. destruct (oracle w) as [|[] orc]; try done; simpl; by rewrite Hfind.
Qed.

(** [insert] of a value that is stored. *)
Lemma set_insert_old fuel w this sl v :
  set_inv w this sl → ascending sl.*2 → v ∈ sl.*2 → length sl < fuel →
  ∃ before q after,
    sl = before ++ (q, v) :: after
    ∧ Forall (λ s, CmpFcn s.2 v = true) before
    ∧ Forall (λ x, CmpFcn v x = true) after.*2
    ∧ set_find fuel this v w = Ok (ConstIterator this (Some q))
    ∧ set_insert fuel this v w = (Ok (ConstIterator this (Some q), false), w).
Proof using Hsto.
  intros Hinv Hasc Hv Hf.
  destruct (set_inv_handle _ _ _ Hinv) as (h & Ho & Hh).
  destruct (scan CompareElementFcn (Some v) sl) as [before rest] eqn:Hs.
  destruct (scan_split sl v before rest Hasc Hs) as (E & Hb & _ & Hr).
  destruct (Hr Hv) as (q & after & -> & Ha).
  pose proof (set_insert_eq fuel w this h sl v before _ Ho Hh Hs) as Hins.
  rewrite (stopped_at_self Hsto) in Hins.
  destruct Hinv as (Hsl & Hnd & Hlt).
  assert (set_find fuel this v w = Ok (ConstIterator this (Some q))) as Hfind.
  { rewrite (set_find_eq w this sl Hsl Hnd fuel v Hf).
    by rewrite E, (find_slot_at Hsto). }
  exists before, q, after. split_and!; [done | done | done | done |].
  by rewrite Hins, Hfind.
Qed.

(** [erase] of a value that is stored. *)
Lemma set_erase_old w this sl v :
  set_inv w this sl → ascending sl.*2 → v ∈ sl.*2 →
  ∃ h before q after,
    objs w !! this = Some (Some h) ∧ csets w !! h = Some sl
    ∧ sl = before ++ (q, v) :: after
    ∧ Forall (λ s, CmpFcn s.2 v = true) before
    ∧ Forall (λ x, CmpFcn v x = true) after.*2
    ∧ set_erase this v w
      = (Ok tt, World (<[h := before ++ after]> (csets w)) (objs w) (next w)
                       (oracle w) (Z.pred (live w))).
Proof using Hsto.
  intros Hinv Hasc Hv.
  destruct (set_inv_handle _ _ _ Hinv) as (h & Ho & Hh).
  destruct (scan CompareElementFcn (Some v) sl) as [before rest] eqn:Hs.
  destruct (scan_split sl v before rest Hasc Hs) as (E & Hb & _ & Hr).
  destruct (Hr Hv) as (q & after & -> & Ha).
  pose proof (set_erase_eq w this h sl v before _ Ho Hh Hs) as Her.
  pose proof (stopped_at_self Hsto q v after) as Hst. simpl in Hst, Her.
  rewrite Hst in Her.
  exists h, before, q, after. by split_and!.
Qed.

(** [erase] of a value that is not stored. *)
Lemma set_erase_new w this sl v :
  set_inv w this sl → v ∉ sl.*2 →
  set_erase this v w = (Throw ElementNotFound, w).
Proof using Hsto.
  intros Hinv Hv. destruct (set_inv_handle _ _ _ Hinv) as (h & Ho & Hh).
  destruct (scan CompareElementFcn (Some v) sl) as [before rest] eqn:Hs.
  rewrite (set_erase_eq w this h sl v before rest Ho Hh Hs).
  pose proof (scan_miss Hsto sl v before rest Hs (not_stored_ne v _ Hv)) as Hst.
  destruct rest as [|[q e] after]; [done|]. simpl in Hst. by rewrite Hst.
Qed.

Lemma not_between (before after : list (positive * T)) v :
  Forall (λ s, CmpFcn s.2 v = true) before →
  Forall (λ x, CmpFcn v x = true) after.*2 →
  v ∉ (before ++ after).*2.
Proof using Hsto.
  intros Hb Ha. rewrite fmap_app. intros [Hin|Hin]%elem_of_app.
  - apply list_elem_of_fmap in Hin as ([q x] & -> & Hin).
    apply (proj1 (Forall_forall _ _) Hb) in Hin. simpl in Hin.
    by rewrite (lt_irrefl Hsto) in Hin.
  - apply (proj1 (Forall_forall _ _) Ha) in Hin.
    by rewrite (lt_irrefl Hsto) in Hin.
Qed.

(** The memory of one [insert] whose allocation, if any, succeeds. *)
Lemma set_insert_elements fuel w this sl v :
  set_inv w this sl → ascending sl.*2 → oracle w = [] →
  ∃ sl', set_inv (set_insert fuel this v w).2 this sl'
         ∧ ascending sl'.*2
         ∧ oracle (set_insert fuel this v w).2 = []
         ∧ (∀ x, x ∈ sl'.*2 ↔ x = v ∨ x ∈ sl.*2)
         ∧ length sl' ≤ S (length sl).
Proof using Hsto.
  intros Hinv Hasc Horc.
  destruct (set_inv_handle _ _ _ Hinv) as (h & Ho & Hh).
  destruct (scan CompareElementFcn (Some v) sl) as [before rest] eqn:Hs.
  destruct (scan_split sl v before rest Hasc Hs) as (E & Hb & Hr & Hr').
  rewrite (set_insert_eq fuel w this h sl v before rest Ho Hh Hs).
  destruct (elem_of_or_not v sl.*2) as [Hv|Hv].
  - destruct (Hr' Hv) as (q & after & -> & _).
    rewrite (stopped_at_self Hsto). simpl. exists sl.
    split_and!; [done | done | done | | lia].
    intros x. split; [by right|]. by intros [->|?].
  - pose proof (scan_miss Hsto sl v before rest Hs (not_stored_ne v _ Hv)) as Hst.
    rewrite Hst, Horc. simpl.
    destruct Hinv as (Hsl & Hnd & Hlt).
    destruct (wf_added sl v before rest (next w) E Hnd Hlt) as [Hnd' Hlt'].
    exists (before ++ (next w, v) :: rest). split_and!.
    + apply (set_inv_intro _ _ h); [done | apply lookup_insert_eq | done | done].
    + by apply (ascending_added sl v before rest (next w) (lt_trans Hsto)).
    + by rewrite Horc.
    + intros x. rewrite E, !fmap_app. simpl. rewrite !elem_of_app, elem_of_cons.
      tauto.
    + rewrite E, !length_app. simpl. lia.
Qed.

Lemma run_inserts_elements fuel this vs : ∀ w sl,
  set_inv w this sl → ascending sl.*2 → oracle w = [] →
  ∃ sl', set_inv (run_inserts fuel this vs w) this sl'
         ∧ ascending sl'.*2
         ∧ (∀ x, x ∈ sl'.*2 ↔ x ∈ sl.*2 ∨ x ∈ vs)
         ∧ length sl' ≤ length sl + length vs.
Proof using Hsto.
  induction vs as [|v vs IH]; intros w sl Hinv Hasc Horc; simpl.
  - exists sl. split_and!; [done | done | | lia].
    intros x. rewrite elem_of_nil. tauto.
  - destruct (set_insert_elements fuel w this sl v Hinv Hasc Horc)
      as (sl1 & H1 & A1 & O1 & M1 & L1).
    destruct (IH _ sl1 H1 A1 O1) as (sl2 & H2 & A2 & M2 & L2).
    exists sl2. split_and!; [done | done | | lia].
    intros x. rewrite M2, M1, elem_of_cons. tauto.
Qed.

Lemma ascending_same_members (l1 l2 : list T) :
  ascending l1 → ascending l2 → (∀ x, x ∈ l1 ↔ x ∈ l2) → l1 = l2.
Proof using Hsto.
  intros A1 A2 Hm.
  assert (Transitive (λ a b : T, CmpFcn a b = true)) as Htr.
  { intros a b c. apply (lt_trans Hsto). }
  assert (AntiSymm (=) (λ a b : T, CmpFcn a b = true)) as Has.
  { intros a b Hab Hba. pose proof (lt_trans Hsto a b a Hab Hba) as Haa.
    by rewrite (lt_irrefl Hsto) in Haa. }
  apply (StronglySorted_unique (λ a b : T, CmpFcn a b = true)); [done | done |].
  apply NoDup_Permutation; [by apply ascending_NoDup | by apply ascending_NoDup | done].
Qed.

End Compose.

(** X10. Inserting a value that is not stored and erasing it again, by
    value or through the position [insert] returned, gives back the set as
    it was: the same slots at the same positions, and as many live [T]
    objects as before. *)
Theorem insert_then_erase_restores :
  strict_total_order →
  ∀ (w : world) (this : positive) (sl : list (positive * T)) (fuel : nat) (v : T),
    set_inv w this sl →
    ascending sl.*2 →
    v ∉ sl.*2 →
    head (oracle w) ≠ Some false →
    S (length sl) < fuel →
    ∃ it w1 w2,
      set_insert fuel this v w = (Ok (it, true), w1)
      ∧ set_erase this v w1 = (Ok tt, w2)
      ∧ set_erase_it this it w1 = (Ok tt, w2)
      ∧ set_inv w2 this sl
      ∧ csets w2 = csets w
      ∧ objs w2 = objs w
      ∧ live w2 = live w.
Proof.
  intros Hsto w this sl fuel v Hinv Hasc Hv Horc Hf.
  destruct (set_insert_new Hsto fuel w this sl v Hinv Hasc Hv Horc Hf)
    as (h & before & rest & Ho & Hh & E & Hb & Hr & Hinv1 & Hasc1 & Hfind & Hins).
  set (sl' := before ++ (next w, v) :: rest) in *.
  set (w1 := added w h sl') in *.
  assert (scan CompareElementFcn (Some v) sl' = (before, (next w, v) :: rest)) as Hs.
  { apply scan_app; [done|]. intros q e after [= <- <- <-]. apply (lt_irrefl Hsto). }
  pose proof (set_erase_eq w1 this h sl' v before _ Ho (lookup_insert_eq _ _ _) Hs)
    as Her.
  pose proof (stopped_at_self Hsto (next w) v rest) as Hst. simpl in Hst, Her.
  rewrite Hst in Her.
  eexists _, w1, _. split_and!; [exact Hins | exact Her | | | | |].
  - unfold set_erase_it, bind, readr.
    destruct Hinv1 as (Hsl1 & Hnd1 & _).
    by rewrite (deref_middle w1 this sl' Hsl1 Hnd1 before (next w) v rest).
  - destruct Hinv as (_ & Hnd & Hlt).
    apply (set_inv_intro _ _ h); simpl; [done | | done |].
    + rewrite lookup_insert_eq. by rewrite E.
    + eapply Forall_impl; [exact Hlt|]. simpl. lia.
  - simpl. rewrite insert_insert_eq, <- E. by apply insert_id.
  - done.
  - simpl. lia.
Qed.

(** X11. Inserting the same value a second time changes nothing: whenever
    [insert(v)] returns a position, with either flag, a second [insert(v)]
    returns the same position with the flag [false] and leaves the memory
    as the first call left it; the position holds [v] and is the one
    [find(v)] gives. The first call does return unless the engine's
    allocation is refused. *)
Theorem insert_twice_inserts_once :
  strict_total_order →
  ∀ (w : world) (this : positive) (sl : list (positive * T)) (fuel : nat) (v : T),
    set_inv w this sl →
    ascending sl.*2 →
    S (length sl) < fuel →
    (head (oracle w) ≠ Some false →
     ∃ it b w1, set_insert fuel this v w = (Ok (it, b), w1))
    ∧ (∀ it b w1,
         set_insert fuel this v w = (Ok (it, b), w1) →
         set_insert fuel this v w1 = (Ok (it, false), w1)
         ∧ operator_deref w1 it = Ok v
         ∧ set_find fuel this v w1 = Ok it).
Proof.
  intros Hsto w this sl fuel v Hinv Hasc Hf.
  destruct (elem_of_or_not Hsto v sl.*2) as [Hv|Hv].
  - destruct (set_insert_old Hsto fuel w this sl v Hinv Hasc Hv)
      as (before & q & after & E & Hb & Ha & Hfind & Hins); [lia|].
    split; [intros _; by eauto|].
    intros it b w1. rewrite Hins. intros [= <- <- <-].
    split_and!; [done | | done].
    destruct Hinv as (Hsl & Hnd & _).
    by apply (deref_middle w this sl Hsl Hnd before q v after).
  - assert (head (oracle w) = Some false ∨ head (oracle w) ≠ Some false) as [Horc|Horc].
    { destruct (oracle w) as [|[] orc]; simpl; auto. }
    { destruct (set_insert_out_of_memory Hsto w this sl fuel v Hinv
                  (not_stored_ne Hsto v _ Hv) Horc) as [Hins _].
      split; [done|]. intros it b w1. by rewrite Hins. }
    destruct (set_insert_new Hsto fuel w this sl v Hinv Hasc Hv Horc Hf)
      as (h & before & rest & Ho & Hh & E & Hb & Hr & Hinv1 & Hasc1 & Hfind & Hins).
    split; [intros _; by eauto|].
    intros it b w1. rewrite Hins. intros [= <- <- <-].
    set (sl' := before ++ (next w, v) :: rest) in *.
    destruct (set_insert_old Hsto fuel _ this sl' v Hinv1 Hasc1)
      as (before' & q & after' & E' & Hb' & Ha' & Hfind' & Hins').
    { unfold sl'. rewrite fmap_app. apply elem_of_app. right. left. }
    { unfold sl'. rewrite E, !length_app in *. simpl. lia. }
    rewrite Hfind in Hfind'. injection Hfind' as <-.
    split_and!; [done | | done].
    destruct Hinv1 as (Hsl1 & Hnd1 & _).
    by apply (deref_middle _ this sl' Hsl1 Hnd1 before (next w) v rest).
Qed.

(** X12. Erasing a stored value through the position [find] gives for it
    is erasing it by value: both calls return and leave the same memory,
    with one live [T] object less. Erasing the value once more throws
    [ElementNotFound] and changes nothing. *)
Theorem erase_found_position :
  strict_total_order →
  ∀ (w : world) (this : positive) (sl : list (positive * T)) (fuel : nat) (v : T),
    set_inv w this sl →
    ascending sl.*2 →
    v ∈ sl.*2 →
    length sl < fuel →
    ∃ it w',
      set_find fuel this v w = Ok it
      ∧ operator_deref w it = Ok v
      ∧ set_erase_it this it w = (Ok tt, w')
      ∧ set_erase this v w = (Ok tt, w')
      ∧ live w' = (live w - 1)%Z
      ∧ set_erase this v w' = (Throw ElementNotFound, w').
Proof.
  intros Hsto w this sl fuel v Hinv Hasc Hv Hf.
  destruct (set_erase_old Hsto w this sl v Hinv Hasc Hv)
    as (h & before & q & after & Ho & Hh & E & Hb & Ha & Her).
  pose proof Hinv as (Hsl & Hnd & Hlt).
  pose proof (deref_middle w this sl Hsl Hnd before q v after E) as Hd.
  eexists (ConstIterator this (Some q)), _.
  split_and!; [ | exact Hd | | exact Her | simpl; lia | ].
  - rewrite (set_find_eq w this sl Hsl Hnd fuel v Hf).
    by rewrite E, (find_slot_at Hsto).
  - unfold set_erase_it, bind, readr. by rewrite Hd.
  - destruct (wf_removed sl before q v after (next w) E Hnd Hlt Hasc) as (N & F & A).
    apply (set_erase_new Hsto _ this (before ++ after)).
    + apply (set_inv_intro _ _ h); [done | apply lookup_insert_eq | done | done].
    + by apply (not_between Hsto).
Qed.

(** X13. [insert] and [erase] leave the other elements where they are in
    the iteration. A value that is not stored is inserted between the
    elements less than it and the elements greater than it; erasing a
    stored value takes it out from between them, and inserting a stored
    value leaves the iteration as it is. Erasing a value that is not
    stored leaves the iteration as it is. *)
Theorem insert_and_erase_in_place :
  strict_total_order →
  ∀ (w : world) (this : positive) (sl : list (positive * T)) (fuel : nat) (v : T),
    set_inv w this sl →
    ascending sl.*2 →
    S (length sl) < fuel →
    (v ∉ sl.*2 →
     traverse fuel this (set_erase this v w).2 = traverse fuel this w
     ∧ (head (oracle w) ≠ Some false →
        ∃ l1 l2,
          traverse fuel this w = Ok (l1 ++ l2)
          ∧ Forall (λ x, CmpFcn x v = true) l1
          ∧ Forall (λ x, CmpFcn v x = true) l2
          ∧ traverse fuel this (set_insert fuel this v w).2 = Ok (l1 ++ v :: l2)))
    ∧ (v ∈ sl.*2 →
       ∃ l1 l2,
         traverse fuel this w = Ok (l1 ++ v :: l2)
         ∧ Forall (λ x, CmpFcn x v = true) l1
         ∧ Forall (λ x, CmpFcn v x = true) l2
         ∧ traverse fuel this (set_erase this v w).2 = Ok (l1 ++ l2)
         ∧ traverse fuel this (set_insert fuel this v w).2 = Ok (l1 ++ v :: l2)).
Proof.
  intros Hsto w this sl fuel v Hinv Hasc Hf.
  pose proof Hinv as (Hsl & Hnd & Hlt).
  pose proof (traverse_eq w this sl Hsl Hnd fuel) as Htr.
  split.
  - intros Hv. split; [by rewrite (set_erase_new Hsto w this sl v Hinv Hv)|].
    intros Horc.
    destruct (set_insert_new Hsto fuel w this sl v Hinv Hasc Hv Horc Hf)
      as (h & before & rest & Ho & Hh & E & Hb & Hr & Hinv1 & Hasc1 & Hfind & Hins).
    exists before.*2, rest.*2. rewrite Hins. simpl.
    destruct Hinv1 as (Hsl1 & Hnd1 & _).
    rewrite (traverse_eq _ this _ Hsl1 Hnd1 fuel), Htr by
      (rewrite E, ?length_app in *; simpl; lia).
    rewrite E, !fmap_app. split_and!; [done | by apply Forall_fmap | done | done].
  - intros Hv.
    destruct (set_erase_old Hsto w this sl v Hinv Hasc Hv)
      as (h & before & q & after & Ho & Hh & E & Hb & Ha & Her).
    destruct (set_insert_old Hsto fuel w this sl v Hinv Hasc Hv)
      as (before' & q' & after' & _ & _ & _ & _ & Hins); [lia|].
    exists before.*2, after.*2. rewrite Her, Hins. simpl.
    destruct (wf_removed sl before q v after (next w) E Hnd Hlt Hasc) as (N & F & A).
    assert (set_inv (World (<[h:=before ++ after]> (csets w)) (objs w) (next w)
                           (oracle w) (Z.pred (live w))) this (before ++ after))
      as (Hsl2 & Hnd2 & _).
    { apply (set_inv_intro _ _ h); [done | apply lookup_insert_eq | done | done]. }
    rewrite (traverse_eq _ this _ Hsl2 Hnd2 fuel), Htr by
      (rewrite E, ?length_app in *; simpl in *; lia).
    rewrite E, !fmap_app.
    split_and!; [done | by apply Forall_fmap | done | done | done].
Qed.

(** ** Sequences of [insert] calls *)

(** X14. A sequence of [insert] calls with no allocation refused builds
    the set of the inserted values: afterwards the iteration visits, in
    ascending order and each once, exactly the elements stored before and
    the values inserted, and [size()] is their number. *)
Theorem inserts_build_the_set :
  strict_total_order →
  ∀ (w : world) (this : positive) (sl : list (positive * T)) (fuel : nat)
    (vs : list T),
    set_inv w this sl →
    ascending sl.*2 →
    oracle w = [] →
    length sl + length vs < fuel →
    ∃ l,
      traverse fuel this (run_inserts fuel this vs w) = Ok l
      ∧ ascending l
      ∧ NoDup l
      ∧ (∀ x, x ∈ l ↔ x ∈ sl.*2 ∨ x ∈ vs)
      ∧ set_size this (run_inserts fuel this vs w) = Ok (Z.of_nat (length l)).
Proof.
  intros Hsto w this sl fuel vs Hinv Hasc Horc Hf.
  destruct (run_inserts_elements Hsto fuel this vs w sl Hinv Hasc Horc)
    as (sl' & Hinv' & Hasc' & Hm & Hl).
  pose proof Hinv' as (Hsl' & Hnd' & _).
  exists sl'.*2. split_and!; [ | done | by apply (ascending_NoDup Hsto) | done | ].
  - apply (traverse_eq _ this sl' Hsl' Hnd'). lia.
  - by rewrite (set_size_eq _ this sl' Hinv'), length_fmap.
Qed.

(** X15. The order of the [insert] calls and repetitions among them do
    not matter: two sequences of calls with the same values, on the same
    set and with no allocation refused, give the same iteration. *)
Theorem insertion_order_is_irrelevant :
  strict_total_order →
  ∀ (w : world) (this : positive) (sl : list (positive * T)) (fuel : nat)
    (vs vs' : list T),
    set_inv w this sl →
    ascending sl.*2 →
    oracle w = [] →
    length sl + length vs < fuel →
    length sl + length vs' < fuel →
    (∀ x, x ∈ vs ↔ x ∈ vs') →
    ∃ l,
      traverse fuel this (run_inserts fuel this vs w) = Ok l
      ∧ traverse fuel this (run_inserts fuel this vs' w) = Ok l.
Proof.
  intros Hsto w this sl fuel vs vs' Hinv Hasc Horc Hf Hf' Hsame.
  destruct (run_inserts_elements Hsto fuel this vs w sl Hinv Hasc Horc)
    as (sl1 & (Hs1 & Hn1 & _) & A1 & M1 & L1).
  destruct (run_inserts_elements Hsto fuel this vs' w sl Hinv Hasc Horc)
    as (sl2 & (Hs2 & Hn2 & _) & A2 & M2 & L2).
  exists sl1.*2. split.
  - apply (traverse_eq _ this sl1 Hs1 Hn1). lia.
  - rewrite (ascending_same_members Hsto sl1.*2 sl2.*2 A1 A2).
    + apply (traverse_eq _ this sl2 Hs2 Hn2). lia.
    + intros x. rewrite M1, M2, Hsame. tauto.
Qed.

(** ** The count of live [T] objects *)

















Lemma good_exec fuel c w :
  (∀ a b c, CmpFcn a b = true → CmpFcn b c = true → CmpFcn a c = true) →
  good w → good (exec fuel c w).
Proof.
  intros Htr Hgood. destruct c as [|src|this src|this|this m]; simpl.
  - by apply good_ctor.
  - by apply good_cctor.
  - by apply good_assign.
  - by apply good_dtor.
  - by apply good_mutate.
Qed.

Lemma good_run fuel cs : ∀ w,
  (∀ a b c, CmpFcn a b = true → CmpFcn b c = true → CmpFcn a c = true) →
  good w → good (run fuel cs w).
Proof.
  unfold run. induction cs as [|c cs IH]; intros w Htr Hgood; simpl; [done|].
  apply IH; [done|]. by apply good_exec.
Qed.




(** ** Calls on one object and the other objects *)





(** ** Positions and the set they are used on *)

(** X20. [erase(p)] does not ask whether the position [p] belongs to the
    set it is called on: it reads the value at [p] through the owner of
    [p] and erases that value from its own set. With a position of
    another set that holds [v], the call is [erase(v)]: if [v] is stored
    in the set erased from, it is removed there, and the set the position
    belongs to keeps its slots, the position still holding [v]; otherwise
    the call throws [ElementNotFound], not [InvalidIterator], and nothing
    has changed. *)
Theorem erase_takes_a_position_of_any_set :
  strict_total_order →
  ∀ (w : world) (a b : positive) (sla slb : list (positive * T))
    (p : positive) (v : T),
    set_inv w a sla →
    ascending sla.*2 →
    set_inv w b slb →
    m_CSet w a ≠ m_CSet w b →
    (p, v) ∈ slb →
    operator_deref w (ConstIterator b (Some p)) = Ok v
    ∧ set_erase_it a (ConstIterator b (Some p)) w = set_erase a v w
    ∧ (v ∈ sla.*2 →
       ∃ w' sla',
         set_erase_it a (ConstIterator b (Some p)) w = (Ok tt, w')
         ∧ set_inv w' a sla'
         ∧ (v ∉ sla'.*2)
         ∧ S (length sla') = length sla
         ∧ set_inv w' b slb
         ∧ operator_deref w' (ConstIterator b (Some p)) = Ok v)
    ∧ (v ∉ sla.*2 →
       set_erase_it a (ConstIterator b (Some p)) w = (Throw ElementNotFound, w)).
Proof.
  intros Hsto w a b sla slb p v Hinva Hasc Hinvb Hne Hp.
  pose proof Hinvb as (Hsb & Hndb & Hltb).
  apply list_elem_of_split in Hp as (pre & rest & Eb).
  pose proof (deref_middle w b slb Hsb Hndb pre p v rest Eb) as Hd.
  assert (set_erase_it a (ConstIterator b (Some p)) w = set_erase a v w) as Hit.
  { unfold set_erase_it, bind, readr. by rewrite Hd. }
  split_and!; [done | done | |].
  - intros Hv.
    destruct (set_erase_old Hsto w a sla v Hinva Hasc Hv)
      as (ha & before & q & after & Hoa & Hha & Ea & Hb & Ha & Her).
    destruct (set_inv_handle _ _ _ Hinvb) as (hb & Hob & Hhb).
    assert (ha ≠ hb) as Hh.
    { intros ->. apply Hne. by rewrite (m_CSet_eq _ _ _ Hoa), (m_CSet_eq _ _ _ Hob). }
    destruct Hinva as (_ & Hnda & Hlta).
    destruct (wf_removed sla before q v after (next w) Ea Hnda Hlta Hasc) as (N & F & A).
    rewrite Hit, Her. eexists _, (before ++ after).
    assert (set_inv (World (<[ha:=before ++ after]> (csets w)) (objs w) (next w)
                           (oracle w) (Z.pred (live w))) b slb) as Hinvb'.
    { apply (set_inv_intro _ _ hb); simpl; [done | | done | done].
      by rewrite lookup_insert_ne. }
    split_and!; [done | | by apply (not_between Hsto) | | done |].
    + apply (set_inv_intro _ _ ha); [done | apply lookup_insert_eq | done | done].
    + rewrite Ea, !length_app. simpl. lia.
    + destruct Hinvb' as (Hsb' & _ & _).
      by apply (deref_middle _ b slb Hsb' Hndb pre p v rest).
  - intros Hv. rewrite Hit. by apply (set_erase_new Hsto w a sla).
Qed.

(** X21. [begin()] of a set that is not empty is the position of its
    least element: dereferencing it gives an element that is less than
    every other element of the set. On an empty set dereferencing
    [begin()] throws [InvalidIterator]. *)
Theorem begin_is_the_least_element (w : world) (this : positive)
    (sl : list (positive * T)) :
  set_inv w this sl →
  ascending sl.*2 →
  (sl = [] → operator_deref w (set_begin w this) = Throw InvalidIterator)
  ∧ (sl ≠ [] →
     ∃ x, operator_deref w (set_begin w this) = Ok x
          ∧ x ∈ sl.*2
          ∧ ∀ i y, sl.*2 !! S i = Some y → CmpFcn x y = true).
Proof.
  intros (Hs & Hnd & _) Hasc. rewrite (begin_eq w this sl Hs). split.
  - intros ->. unfold operator_deref, setGetElement. simpl. by rewrite Hs.
  - intros Hne. destruct sl as [|[p x] rest]; [done|]. exists x.
    split_and!.
    + by apply (deref_middle w this _ Hs Hnd [] p x rest).
    + left.
    + intros i y Hy. simpl in Hy, Hasc. unfold ascending in Hasc.
      apply StronglySorted_cons in Hasc as [Hall _].
      apply (proj1 (Forall_forall _ _) Hall). by eapply list_elem_of_lookup_2.
Qed.

End SetCpp.

(** * The instance [mtm::set<int>] *)

Abbreviation int_world := (world (T := Z)).
Abbreviation int_insert := (set_insert Z.ltb Z.eqb).
Abbreviation int_find := (set_find Z.eqb).
Abbreviation int_erase := (set_erase Z.ltb).

Lemma int_strict_total_order : strict_total_order Z.ltb Z.eqb.
Proof. split; intros; lia. Qed.

Notation "x <- c ;; k" := (bind c (λ x, k))
  (at level 100, c at next level, right associativity).

(** The scenario of [set_test.cpp]: insert 2 and 1; find 1, 2 and 3; copy
    the set; find 2 in the copy, erase it there and look for it again;
    assign the copy to a third set. The result lists what the program
    observes, followed by the sizes of the three sets at the end. *)
Example set_test_scenario :
  (sett <- set_ctor ;;
   _ <- int_insert 9 sett 2%Z ;;
   _ <- int_insert 9 sett 1%Z ;;
   f1 <- read (λ w, rbind (int_find 9 sett 1%Z w) (operator_deref w)) ;;
   f2 <- read (λ w, rbind (int_find 9 sett 2%Z w) (operator_deref w)) ;;
   f3 <- read (λ w, rbind (int_find 9 sett 3%Z w) (operator_deref w)) ;;
   set2 <- set_cctor sett ;;
   g1 <- read (λ w, rbind (int_find 9 set2 2%Z w) (operator_deref w)) ;;
   _ <- int_erase set2 2%Z ;;
   g2 <- read (λ w, rbind (int_find 9 set2 2%Z w) (operator_deref w)) ;;
   set3 <- set_ctor ;;
   _ <- set_assign set3 set2 ;;
   n1 <- read (set_size sett) ;;
   n2 <- read (set_size set2) ;;
   n3 <- read (set_size set3) ;;
   ret ([f1; f2; f3; g1; g2], [n1; n2; n3])) (empty_world : int_world)
  = (Ok ([Ok 1%Z; Ok 2%Z; Throw ElementNotFound; Ok 2%Z; Throw ElementNotFound],
         [Ok 2%Z; Ok 1%Z; Ok 1%Z]),
     World {[2%positive := [(4%positive, 1%Z); (3%positive, 2%Z)];
             6%positive := [(7%positive, 1%Z)];
             11%positive := [(12%positive, 1%Z)]]}
           {[1%positive := Some 2%positive; 5%positive := Some 6%positive;
             9%positive := Some 11%positive]}
           13%positive [] 4%Z).
Proof. vm_compute. reflexivity. Qed.

(** ** A copy assignment whose copy fails *)

(** C7. Two sets are built, [{1}] at object 1 and [{2}] at object 4, and the
    engine's next allocation fails. The assignment of the second to the
    first then throws [Exception] after it destroyed the handle the target
    owned: the target is left with a [NULL] handle. It is neither the set it
    was nor a copy of the source, it is no well-formed set at all, and
    [size()] and [insert] on it stop at their assertion. The source is
    what it was. *)
Theorem failed_assignment_leaves_no_handle :
  let w : int_world :=
    World {[2%positive := [(3%positive, 1%Z)]; 5%positive := [(6%positive, 2%Z)]]}
          {[1%positive := Some 2%positive; 4%positive := Some 5%positive]}
          7%positive [false] 2%Z in
  let w' : int_world :=
    World {[5%positive := [(6%positive, 2%Z)]]}
          {[1%positive := None; 4%positive := Some 5%positive]}
          7%positive [] 1%Z in
  (s1 <- set_ctor ;; _ <- int_insert 9 s1 1%Z ;;
   s2 <- set_ctor ;; _ <- int_insert 9 s2 2%Z ;;
   ret (s1, s2)) (World ∅ ∅ 1%positive [true; true; true; true; false] 0%Z)
    = (Ok (1%positive, 4%positive), w)
  ∧ set_inv w 1%positive [(3%positive, 1%Z)]
  ∧ set_inv w 4%positive [(6%positive, 2%Z)]
  ∧ set_assign 1%positive 4%positive w = (Throw Exception, w')
  ∧ m_CSet w' 1%positive = None
  ∧ csets w' !! 2%positive = None
  ∧ (∀ sl, ¬ set_inv w' 1%positive sl)
  ∧ set_size 1%positive w' = Abort
  ∧ (int_insert 9 1%positive 1%Z w').1 = Abort
  ∧ set_inv w' 4%positive [(6%positive, 2%Z)].
Proof.
  split_and!; try compute_done.
  intros sl [Hs _]. vm_compute in Hs. discriminate Hs.
Qed.

(** ** The theorems at concrete sets *)

Lemma iteration_strictly_ascending_witness :
  let w1 : int_world := (set_ctor empty_world).2 in
  let w := run_inserts Z.ltb Z.eqb 4 1%positive [2; 1; 2]%Z w1 in
  let w' := run_mutations Z.ltb Z.eqb 4 1%positive
              [MInsert 2%Z; MInsert 1%Z; MErase 2%Z] w1 in
  let w'' : int_world :=
    run Z.ltb Z.eqb 4
        [Construct; Mutate 1%positive (MInsert 2%Z); Mutate 1%positive (MInsert 1%Z);
         CopyConstruct 1%positive; Mutate 1%positive (MErase 1%Z)]
        empty_world in
  (∀ a b c, Z.ltb a b = true → Z.ltb b c = true → Z.ltb a c = true)
  ∧ set_ctor (empty_world : int_world) = (Ok 1%positive, w1)
  ∧ length [2; 1; 2]%Z < 4
  ∧ objs w'' !! 5%positive = Some (Some 6%positive)
  ∧ (∃ sl, slots_at w (m_CSet w 1%positive) = Some sl
           ∧ traverse 4 1%positive w = Ok sl.*2
           ∧ ascending Z.ltb sl.*2
           ∧ ∀ i j x y, i < j → sl.*2 !! i = Some x → sl.*2 !! j = Some y →
               Z.ltb x y = true
               ∧ CompareElementFcn Z.ltb (Some x) (Some y) ≠ 0%Z
               ∧ CompareElementFcn Z.ltb (Some y) (Some x) ≠ 0%Z)
  ∧ (∃ sl, slots_at w' (m_CSet w' 1%positive) = Some sl
           ∧ traverse 4 1%positive w' = Ok sl.*2
           ∧ ascending Z.ltb sl.*2
           ∧ ∀ i j x y, i < j → sl.*2 !! i = Some x → sl.*2 !! j = Some y →
               Z.ltb x y = true
               ∧ CompareElementFcn Z.ltb (Some x) (Some y) ≠ 0%Z
               ∧ CompareElementFcn Z.ltb (Some y) (Some x) ≠ 0%Z)
  ∧ (∃ sl, slots_at w'' (m_CSet w'' 5%positive) = Some sl
           ∧ (∀ f, length sl < f → traverse f 5%positive w'' = Ok sl.*2)
           ∧ ascending Z.ltb sl.*2
           ∧ ∀ i j x y, i < j → sl.*2 !! i = Some x → sl.*2 !! j = Some y →
               Z.ltb x y = true
               ∧ CompareElementFcn Z.ltb (Some x) (Some y) ≠ 0%Z
               ∧ CompareElementFcn Z.ltb (Some y) (Some x) ≠ 0%Z).
Proof.
  intros w1 w w' w''.
  assert (∀ a b c, Z.ltb a b = true → Z.ltb b c = true → Z.ltb a c = true) as Htr
    by (intros a b c; lia).
  assert (set_ctor (empty_world : int_world) = (Ok 1%positive, w1)) as Hctor
    by reflexivity.
  assert (length [2; 1; 2]%Z < 4) as Hlen by (simpl; lia).
  assert (objs w'' !! 5%positive = Some (Some 6%positive)) as Hobj by reflexivity.
  destruct (iteration_strictly_ascending Z.ltb Z.eqb Htr) as (Hone & Hall).
  destruct (Hone empty_world w1 1%positive 4 Hctor) as (Hinserts & Hmutations).
  refine (conj Htr (conj Hctor (conj Hlen (conj Hobj (conj _ (conj _ _)))))).
  - exact (Hinserts [2; 1; 2]%Z Hlen).
  - apply (Hmutations [MInsert 2%Z; MInsert 1%Z; MErase 2%Z]). simpl. lia.
  - exact (Hall 4 _ 5%positive 6%positive Hobj).
Defined.

Lemma insert_new_or_existing_witness :
  let w : int_world :=
    World {[2%positive := [(3%positive, 1%Z)]]} {[1%positive := Some 2%positive]}
          4%positive [] 1%Z in
  let sl := [(3%positive, 1%Z)] in
  strict_total_order Z.ltb Z.eqb
  ∧ set_inv w 1%positive sl
  ∧ ascending Z.ltb sl.*2
  ∧ S (length sl) < 5
  ∧ (∃ p w' sl',
       int_insert 5 1%positive 2%Z w = (Ok (ConstIterator 1%positive (Some p), true), w')
       ∧ set_inv w' 1%positive sl'
       ∧ ascending Z.ltb sl'.*2
       ∧ (p ∉ sl.*1)
       ∧ (∀ s, s ∈ sl' ↔ s = (p, 2%Z) ∨ s ∈ sl)
       ∧ set_size 1%positive w' = Ok (Z.of_nat (length sl) + 1)%Z
       ∧ operator_deref w' (ConstIterator 1%positive (Some p)) = Ok 2%Z
       ∧ int_find 5 1%positive 2%Z w' = Ok (ConstIterator 1%positive (Some p)))
  ∧ (∃ p,
       int_insert 5 1%positive 1%Z w = (Ok (ConstIterator 1%positive (Some p), false), w)
       ∧ (p, 1%Z) ∈ sl
       ∧ operator_deref w (ConstIterator 1%positive (Some p)) = Ok 1%Z
       ∧ int_find 5 1%positive 1%Z w = Ok (ConstIterator 1%positive (Some p))).
Proof.
  intros w sl.
  assert (set_inv w 1%positive sl) as Hinv by (split_and!; compute_done).
  assert (ascending Z.ltb sl.*2) as Hasc by compute_done.
  assert (S (length sl) < 5) as Hlen by (simpl; lia).
  destruct (insert_new_or_existing Z.ltb Z.eqb int_strict_total_order
              w 1%positive sl 5 2%Z Hinv Hasc Hlen) as (Hnew & _).
  destruct (insert_new_or_existing Z.ltb Z.eqb int_strict_total_order
              w 1%positive sl 5 1%Z Hinv Hasc Hlen) as (_ & Hexisting).
  split_and!; [exact int_strict_total_order | exact Hinv | exact Hasc | exact Hlen | |].
  - apply Hnew.
    + intros e He. apply list_elem_of_singleton in He as ->. compute_done.
    + compute_done.
  - apply (Hexisting 1%Z); compute_done.
Defined.

Lemma find_match_or_ElementNotFound_witness :
  let w : int_world :=
    World {[2%positive := [(4%positive, 1%Z); (3%positive, 2%Z)]]}
          {[1%positive := Some 2%positive]} 5%positive [] 2%Z in
  let sl := [(4%positive, 1%Z); (3%positive, 2%Z)] in
  set_inv w 1%positive sl
  ∧ length sl < 3
  ∧ (∃ p e' pre rest,
       int_find 3 1%positive 2%Z w = Ok (ConstIterator 1%positive (Some p))
       ∧ operator_deref w (ConstIterator 1%positive (Some p)) = Ok e'
       ∧ Z.eqb e' 2%Z = true
       ∧ sl = pre ++ (p, e') :: rest
       ∧ Forall (λ s, Z.eqb s.2 2%Z = false) pre)
  ∧ int_find 3 1%positive 3%Z w = Throw ElementNotFound
  ∧ set_find_const Z.eqb 3 1%positive 2%Z w = int_find 3 1%positive 2%Z w.
Proof.
  intros w sl.
  assert (set_inv w 1%positive sl) as Hinv by (split_and!; compute_done).
  assert (length sl < 3) as Hlen by (simpl; lia).
  destruct (find_match_or_ElementNotFound Z.eqb w 1%positive sl 3 2%Z Hinv Hlen)
    as (Hfound & _ & Hconst).
  destruct (find_match_or_ElementNotFound Z.eqb w 1%positive sl 3 3%Z Hinv Hlen)
    as (_ & Hnone & _).
  split_and!; [exact Hinv | exact Hlen | | | exact Hconst].
  - apply (Hfound 2%Z); compute_done.
  - apply Hnone. intros e He. simpl in He.
    apply elem_of_cons in He as [->|He]; [reflexivity|].
    apply list_elem_of_singleton in He as ->. reflexivity.
Defined.

Lemma erase_value_or_ElementNotFound_witness :
  let w : int_world :=
    World {[2%positive := [(4%positive, 1%Z); (3%positive, 2%Z)]]}
          {[1%positive := Some 2%positive]} 5%positive [] 2%Z in
  let sl := [(4%positive, 1%Z); (3%positive, 2%Z)] in
  strict_total_order Z.ltb Z.eqb
  ∧ set_inv w 1%positive sl
  ∧ ascending Z.ltb sl.*2
  ∧ (∃ p w' sl',
       int_erase 1%positive 2%Z w = (Ok tt, w')
       ∧ set_inv w' 1%positive sl'
       ∧ ascending Z.ltb sl'.*2
       ∧ (p, 2%Z) ∈ sl
       ∧ (∀ s, s ∈ sl' ↔ s ∈ sl ∧ s ≠ (p, 2%Z))
       ∧ set_size 1%positive w' = Ok (Z.of_nat (length sl) - 1)%Z
       ∧ live w' = (live w - 1)%Z
       ∧ ∀ fuel, length sl ≤ fuel → int_find fuel 1%positive 2%Z w' = Throw ElementNotFound)
  ∧ (setRemove DestroyElementFcn (CompareElementFcn Z.ltb) (m_CSet w 1%positive)
               (Some 3%Z) w).1 = SET_ITEM_DOES_NOT_EXIST
  ∧ int_erase 1%positive 3%Z w = (Throw ElementNotFound, w).
Proof.
  intros w sl.
  assert (set_inv w 1%positive sl) as Hinv by (split_and!; compute_done).
  assert (ascending Z.ltb sl.*2) as Hasc by compute_done.
  assert (∀ e, e ∈ sl.*2 → CompareElementFcn Z.ltb (Some e) (Some 3%Z) ≠ 0%Z) as Hno.
  { intros e He. simpl in He.
    apply elem_of_cons in He as [->|He]; [compute_done|].
    apply list_elem_of_singleton in He as ->. compute_done. }
  destruct (erase_value_or_ElementNotFound Z.ltb Z.eqb int_strict_total_order
              w 1%positive sl 2%Z Hinv Hasc) as (Hpresent & _).
  destruct (erase_value_or_ElementNotFound Z.ltb Z.eqb int_strict_total_order
              w 1%positive sl 3%Z Hinv Hasc) as (_ & Habsent).
  destruct (Habsent Hno) as (Hcode & Hthrow).
  split_and!; [exact int_strict_total_order | exact Hinv | exact Hasc
              | | exact Hcode | exact Hthrow].
  apply (Hpresent 2%Z); compute_done.
Defined.

Lemma erase_position_InvalidIterator_witness :
  let w : int_world :=
    World {[2%positive := [(4%positive, 1%Z); (3%positive, 2%Z)]]}
          {[1%positive := Some 2%positive]} 5%positive [] 2%Z in
  let sl := [(4%positive, 1%Z); (3%positive, 2%Z)] in
  let first := ConstIterator 1%positive (Some 4%positive) in
  let past := ConstIterator 1%positive None in
  let stale := ConstIterator 1%positive (Some 9%positive) in
  setGetElement w (m_CSet w 1%positive) (Some 4%positive) = Some 1%Z
  ∧ set_end 2 w 1%positive = Ok past
  ∧ set_inv w 1%positive sl
  ∧ (9%positive ∉ sl.*1)
  ∧ set_erase_it Z.ltb 1%positive first w = int_erase 1%positive 1%Z w
  ∧ set_erase_it Z.ltb 1%positive past w = (Throw InvalidIterator, w)
  ∧ set_erase_it Z.ltb 1%positive stale w = (Throw InvalidIterator, w).
Proof.
  intros w sl first past stale.
  assert (setGetElement w (m_CSet w (m_Owner first)) (m_Current first) = Some 1%Z)
    as Hfirst by reflexivity.
  assert (set_end 2 w 1%positive = Ok past) as Hpast by reflexivity.
  assert (set_inv w 1%positive sl) as Hinv by (split_and!; compute_done).
  assert (9%positive ∉ sl.*1) as Hstale by compute_done.
  destruct (erase_position_InvalidIterator Z.ltb w 1%positive)
    as (Hvalue & _ & Hend & Hforeign).
  split_and!; [exact Hfirst | exact Hpast | exact Hinv | exact Hstale | | |].
  - exact (proj2 (Hvalue first 1%Z Hfirst)).
  - destruct (Hend sl 2 Hinv) as (e & He & Herase); [simpl; lia|].
    rewrite Hpast in He. injection He as <-. exact Herase.
  - exact (Hforeign sl 9%positive Hinv Hstale).
Defined.

Lemma copy_is_isolated_witness :
  let w : int_world :=
    World {[2%positive := [(4%positive, 1%Z); (3%positive, 2%Z)];
            6%positive := [(7%positive, 9%Z)]]}
          {[1%positive := Some 2%positive; 5%positive := Some 6%positive]}
          8%positive [] 3%Z in
  let sl := [(4%positive, 1%Z); (3%positive, 2%Z)] in
  let wc := (set_cctor 1%positive w).2 in
  let wa := (set_assign 5%positive 1%positive w).2 in
  world_wf w
  ∧ set_inv w 1%positive sl
  ∧ m_CSet w 1%positive = Some 2%positive
  ∧ set_cctor 1%positive w = (Ok 8%positive, wc)
  ∧ (copied Z.ltb Z.eqb wc 1%positive sl 8%positive
     ∧ objs w !! 8%positive = None
     ∧ made_anew w wc sl 8%positive
     ∧ live wc = 5%Z
     ∧ separately_destroyed wc 1%positive sl 8%positive)
  ∧ 5%positive ≠ 1%positive
  ∧ is_Some (objs w !! 5%positive)
  ∧ set_assign 5%positive 1%positive w = (Ok 5%positive, wa)
  ∧ (copied Z.ltb Z.eqb wa 1%positive sl 5%positive
     ∧ made_anew w wa sl 5%positive
     ∧ live wa = 4%Z
     ∧ csets wa !! 6%positive = None
     ∧ separately_destroyed wa 1%positive sl 5%positive)
  ∧ oracle w = []
  ∧ (∃ cpy w1, set_cctor 1%positive w = (Ok cpy, w1))
  ∧ (∃ w1, set_assign 5%positive 1%positive w = (Ok 5%positive, w1)).
Proof.
  intros w sl wc wa.
  assert (world_wf w) as Hwf by compute_done.
  assert (set_inv w 1%positive sl) as Hinv by (split_and!; compute_done).
  assert (m_CSet w 1%positive = Some 2%positive) as Hm by reflexivity.
  assert (set_cctor 1%positive w = (Ok 8%positive, wc)) as Hcc by reflexivity.
  assert (5%positive ≠ 1%positive) as Hne by lia.
  assert (is_Some (objs w !! 5%positive)) as Hdst by compute_done.
  assert (set_assign 5%positive 1%positive w = (Ok 5%positive, wa)) as Has
    by reflexivity.
  assert (oracle w = []) as Horc by reflexivity.
  destruct (copy_is_isolated Z.ltb Z.eqb w 1%positive 2%positive sl Hwf Hinv Hm)
    as (_ & Hctor & Hassign & Htotal).
  destruct (Htotal Horc) as (Hctor_total & Hassign_total).
  destruct (Hctor 8%positive wc Hcc) as (C1 & C2 & C3 & C4 & C5).
  destruct (Hassign 5%positive wa Hne Hdst Has) as (A1 & A2 & A3 & A4 & A5).
  refine (conj Hwf (conj Hinv (conj Hm (conj Hcc (conj _ (conj Hne (conj Hdst
           (conj Has (conj _ (conj Horc (conj Hctor_total _))))))))))).
  - exact (conj C1 (conj C2 (conj C3 (conj C4 C5)))).
  - refine (conj A1 (conj A2 (conj A3 (conj _ A5)))).
    exact (A4 6%positive [(7%positive, 9%Z)] eq_refl eq_refl).
  - apply (Hassign_total 5%positive (Some 6%positive) Hne); [reflexivity | compute_done].
Defined.

Lemma clear_empties_witness :
  let w : int_world :=
    World {[2%positive := [(4%positive, 1%Z); (3%positive, 2%Z)]]}
          {[1%positive := Some 2%positive]} 5%positive [] 2%Z in
  objs w !! 1%positive = Some (Some 2%positive)
  ∧ csets w !! 2%positive = Some [(4%positive, 1%Z); (3%positive, 2%Z)]
  ∧ ∃ w',
      set_clear 1%positive w = (Ok tt, w')
      ∧ set_size 1%positive w' = Ok 0%Z
      ∧ (∀ fuel v, 0 < fuel → int_find fuel 1%positive v w' = Throw ElementNotFound)
      ∧ set_inv w' 1%positive []
      ∧ live w' = (live w - Z.of_nat 2)%Z.
Proof.
  intros w.
  assert (objs w !! 1%positive = Some (Some 2%positive)) as Ho by reflexivity.
  assert (csets w !! 2%positive = Some [(4%positive, 1%Z); (3%positive, 2%Z)])
    as Hh by reflexivity.
  split_and!; [exact Ho | exact Hh |].
  exact (clear_empties Z.eqb w 1%positive 2%positive _ Ho Hh).
Defined.

Lemma iterator_equality_ignores_owner_witness :
  let w : int_world :=
    World {[2%positive := [(4%positive, 1%Z); (3%positive, 2%Z)]; 6%positive := []]}
          {[1%positive := Some 2%positive; 5%positive := Some 6%positive]}
          7%positive [] 2%Z in
  let e1 := ConstIterator 1%positive None in
  let e2 := ConstIterator 5%positive None in
  set_end 2 w 1%positive = Ok e1
  ∧ set_end 0 w 5%positive = Ok e2
  ∧ set_inv w 1%positive [(4%positive, 1%Z); (3%positive, 2%Z)]
  ∧ set_inv w 5%positive []
  ∧ (m_Owner e1 = 1%positive ∧ m_Owner e2 = 5%positive
     ∧ operator_eq e1 e2 = true ∧ operator_ne e1 e2 = false)
  ∧ (∃ e1' e2',
       set_end 2 w 1%positive = Ok e1' ∧ set_end 0 w 5%positive = Ok e2'
       ∧ m_Owner e1' = 1%positive ∧ m_Owner e2' = 5%positive
       ∧ operator_eq e1' e2' = true).
Proof.
  intros w e1 e2.
  assert (set_end 2 w 1%positive = Ok e1) as H1 by reflexivity.
  assert (set_end 0 w 5%positive = Ok e2) as H2 by reflexivity.
  assert (set_inv w 1%positive [(4%positive, 1%Z); (3%positive, 2%Z)]) as I1
    by (split_and!; compute_done).
  assert (set_inv w 5%positive []) as I2 by (split_and!; compute_done).
  destruct (iterator_equality_ignores_owner (T := Z)) as (_ & _ & Hends & Htotal).
  refine (conj H1 (conj H2 (conj I1 (conj I2 (conj _ _))))).
  - exact (Hends w w 1%positive 5%positive 2 0 e1 e2 H1 H2).
  - apply (Htotal w w 1%positive 5%positive _ _ 2 0 I1 I2); simpl; lia.
Defined.

(** ** Outside the assumption on the comparison rule *)

(** When [CmpFcn] treats two values that differ under [==] as equal, the
    strict total order assumed above is absent. With [a / 10 < b / 10] on
    [int], inserting 12 into [{11}] is answered [SET_ITEM_ALREADY_EXISTS] by
    the engine, and the [find(12)] that is to locate the existing element
    throws [ElementNotFound]. *)
Example insert_equivalent_but_not_equal :
  let cmp := λ a b : Z, (a / 10 <? b / 10)%Z in
  let w : int_world :=
    World {[2%positive := [(3%positive, 11%Z)]]} {[1%positive := Some 2%positive]}
          4%positive [] 1%Z in
  (setAdd CopyElementFcn (CompareElementFcn cmp) (Some 2%positive) (Some 12%Z) w).1
    = SET_ITEM_ALREADY_EXISTS
  ∧ set_insert cmp Z.eqb 5 1%positive 12%Z w = (Throw ElementNotFound, w)
  ∧ ¬ strict_total_order cmp Z.eqb.
Proof.
  split_and!; [reflexivity | reflexivity |].
  intros H. pose proof (lt_total _ _ H 11%Z 12%Z eq_refl eq_refl) as E. discriminate E.
Qed.

(** ** The further properties at concrete sets *)

Lemma CompareElementFcn_three_way_witness :
  (∀ a b, Z.ltb a b = true → Z.ltb b a = false)
  ∧ CompareElementFcn Z.ltb (Some 1%Z) (Some 2%Z)
    = (- CompareElementFcn Z.ltb (Some 2%Z) (Some 1%Z))%Z
  ∧ ((CompareElementFcn Z.ltb (Some 1%Z) (Some 2%Z) < 0)%Z ↔ Z.ltb 1 2 = true)
  ∧ ((0 < CompareElementFcn Z.ltb (Some 1%Z) (Some 2%Z))%Z ↔ Z.ltb 2 1 = true)
  ∧ (CompareElementFcn Z.ltb (Some 1%Z) (Some 2%Z) = 0%Z
     ↔ Z.ltb 1 2 = false ∧ Z.ltb 2 1 = false).
Proof.
  assert (∀ a b, Z.ltb a b = true → Z.ltb b a = false) as Hasym
    by (intros a b; lia).
  destruct (CompareElementFcn_three_way Z.ltb Hasym (Some 1%Z) (Some 2%Z))
    as (Hneg & _ & _ & Hsign).
  destruct (Hsign 1%Z 2%Z eq_refl eq_refl) as (Hlt & Hgt & Heq).
  exact (conj Hasym (conj Hneg (conj Hlt (conj Hgt Heq)))).
Defined.

Lemma new_set_is_empty_witness :
  let w : int_world := empty_world in
  let wf : int_world := World ∅ ∅ 1%positive [false] 0%Z in
  head (oracle w) ≠ Some false
  ∧ head (oracle wf) = Some false
  ∧ (∃ w1, set_ctor w = (Ok 1%positive, w1)
           ∧ set_inv w1 1%positive []
           ∧ set_size 1%positive w1 = Ok 0%Z
           ∧ ∀ fuel v, 0 < fuel → int_find fuel 1%positive v w1 = Throw ElementNotFound)
  ∧ (∃ w1, set_ctor wf = (Throw Exception, w1)
           ∧ csets w1 = csets wf
           ∧ objs w1 !! 1%positive = None).
Proof.
  intros w wf.
  assert (head (oracle w) ≠ Some false) as H1 by compute_done.
  assert (head (oracle wf) = Some false) as H2 by reflexivity.
  destruct (new_set_is_empty Z.eqb w) as [Hok _].
  destruct (new_set_is_empty Z.eqb wf) as [_ Hfail].
  destruct (Hok H1) as (w1 & E & Hinv & Hsz & _ & _ & Hfind & _ & _).
  destruct (Hfail H2) as (w1' & E' & Hc & _ & Ho & _).
  refine (conj H1 (conj H2 (conj _ _))).
  - exists w1. exact (conj E (conj Hinv (conj Hsz Hfind))).
  - exists w1'. exact (conj E' (conj Hc Ho)).
Defined.

Lemma size_counts_iteration_witness :
  let w : int_world :=
    World {[2%positive := [(4%positive, 1%Z); (3%positive, 2%Z)]]}
          {[1%positive := Some 2%positive]} 5%positive [] 2%Z in
  let sl := [(4%positive, 1%Z); (3%positive, 2%Z)] in
  set_inv w 1%positive sl
  ∧ length sl < 3
  ∧ ∃ l e,
      traverse 3 1%positive w = Ok l
      ∧ set_size 1%positive w = Ok (Z.of_nat (length l))
      ∧ set_end 3 w 1%positive = Ok e
      ∧ (operator_eq (set_begin w 1%positive) e = true
         ↔ set_size 1%positive w = Ok 0%Z)
      ∧ set_cbegin w 1%positive = set_begin w 1%positive
      ∧ set_cend 3 w 1%positive = set_end 3 w 1%positive.
Proof.
  intros w sl.
  assert (set_inv w 1%positive sl) as Hinv by (split_and!; compute_done).
  assert (length sl < 3) as Hlen by (simpl; lia).
  exact (conj Hinv (conj Hlen (size_counts_iteration w 1%positive sl 3 Hinv Hlen))).
Defined.

Lemma increment_walks_ascending_witness :
  let w : int_world :=
    World {[2%positive := [(4%positive, 1%Z); (3%positive, 2%Z)]]}
          {[1%positive := Some 2%positive]} 5%positive [] 2%Z in
  let sl := [(4%positive, 1%Z); (3%positive, 2%Z)] in
  set_inv w 1%positive sl
  ∧ ascending Z.ltb sl.*2
  ∧ (operator_incr w (ConstIterator 1%positive (Some 4%positive))
       = ConstIterator 1%positive (Some 3%positive)
     ∧ operator_deref w (ConstIterator 1%positive (Some 4%positive)) = Ok 1%Z
     ∧ operator_deref w (ConstIterator 1%positive (Some 3%positive)) = Ok 2%Z
     ∧ Z.ltb 1 2 = true)
  ∧ operator_incr w (ConstIterator 1%positive (Some 3%positive))
      = ConstIterator 1%positive None
  ∧ operator_incr w (ConstIterator 1%positive (Some 9%positive))
      = ConstIterator 1%positive None.
Proof.
  intros w sl.
  assert (set_inv w 1%positive sl) as Hinv by (split_and!; compute_done).
  assert (ascending Z.ltb sl.*2) as Hasc by compute_done.
  destruct (increment_walks_ascending Z.ltb w 1%positive sl Hinv Hasc)
    as (Hnext & Hlast & _ & Hnone & _).
  refine (conj Hinv (conj Hasc (conj _ (conj _ _)))).
  - exact (Hnext [] 4%positive 1%Z 3%positive 2%Z [] eq_refl).
  - exact (Hlast [(4%positive, 1%Z)] 3%positive 2%Z eq_refl).
  - apply Hnone. compute_done.
Defined.

Lemma SET_FOREACH_visits_every_slot_witness :
  let w : int_world :=
    World {[2%positive := [(4%positive, 1%Z); (3%positive, 2%Z)]]}
          {[1%positive := Some 2%positive]} 5%positive [] 2%Z in
  let sl := [(4%positive, 1%Z); (3%positive, 2%Z)] in
  set_inv w 1%positive sl
  ∧ length sl < 3
  ∧ SET_FOREACH 3 w (m_CSet w 1%positive)
    = Ok [(4%positive, Some 1%Z); (3%positive, Some 2%Z)]
  ∧ traverse 3 1%positive w = Ok [1%Z; 2%Z]
  ∧ SET_FOREACH 3 w None = Ok [].
Proof.
  intros w sl.
  assert (set_inv w 1%positive sl) as Hinv by (split_and!; compute_done).
  assert (length sl < 3) as Hlen by (simpl; lia).
  exact (conj Hinv (conj Hlen
           (SET_FOREACH_visits_every_slot w 1%positive sl 3 Hinv Hlen))).
Defined.

Lemma members_without_handle_witness :
  let w : int_world := World ∅ {[1%positive := None]} 2%positive [] 0%Z in
  objs w !! 1%positive = Some None
  ∧ set_size 1%positive w = Abort
  ∧ int_insert 3 1%positive 5%Z w = (Abort, w)
  ∧ int_erase 1%positive 5%Z w = (Abort, w)
  ∧ set_clear 1%positive w = (Abort, w)
  ∧ int_find 3 1%positive 5%Z w = Throw ElementNotFound
  ∧ traverse 3 1%positive w = Ok []
  ∧ set_dtor 1%positive w = (Ok tt, with_objs (delete 1%positive) w).
Proof.
  intros w.
  assert (objs w !! 1%positive = Some None) as Ho by reflexivity.
  destruct (members_without_handle Z.ltb Z.eqb w 1%positive Ho)
    as (Hsz & Hins & Her & Hcl & _ & _ & Hfind & Htr & Hd).
  refine (conj Ho (conj Hsz (conj (Hins 3 5%Z) (conj (Her 5%Z) (conj Hcl
           (conj (Hfind 3 5%Z _) (conj (Htr 3 _) Hd))))))); lia.
Defined.

Lemma missing_handle_spreads_witness :
  let w : int_world :=
    World {[4%positive := [(5%positive, 7%Z)]]}
          {[1%positive := None; 3%positive := Some 4%positive]}
          6%positive [] 1%Z in
  m_CSet w 1%positive = None
  ∧ 3%positive ≠ 1%positive
  ∧ objs w !! 3%positive = Some (Some 4%positive)
  ∧ (∃ w', set_cctor 1%positive w = (Throw Exception, w')
           ∧ csets w' = csets w
           ∧ live w' = live w)
  ∧ (∃ w', set_assign 3%positive 1%positive w = (Throw Exception, w')
           ∧ objs w' !! 3%positive = Some None
           ∧ csets w' !! 4%positive = None).
Proof.
  intros w.
  assert (m_CSet w 1%positive = None) as Hm by reflexivity.
  assert (3%positive ≠ 1%positive) as Hne by compute_done.
  assert (objs w !! 3%positive = Some (Some 4%positive)) as Ho by reflexivity.
  destruct (missing_handle_spreads w 1%positive Hm) as [Hcopy Hassign].
  destruct Hcopy as (w1 & E1 & Hc1 & Hl1 & _).
  destruct (Hassign 3%positive (Some 4%positive) Hne Ho) as (w2 & E2 & Ho2 & Hgone & _).
  refine (conj Hm (conj Hne (conj Ho (conj _ _)))).
  - exists w1. exact (conj E1 (conj Hc1 Hl1)).
  - exists w2. exact (conj E2 (conj Ho2 (Hgone 4%positive eq_refl))).
Defined.

Lemma destructor_frees_the_set_witness :
  let w : int_world :=
    World {[2%positive := [(4%positive, 1%Z); (3%positive, 2%Z)]]}
          {[1%positive := Some 2%positive]} 5%positive [] 2%Z in
  objs w !! 1%positive = Some (Some 2%positive)
  ∧ csets w !! 2%positive = Some [(4%positive, 1%Z); (3%positive, 2%Z)]
  ∧ ∃ w', set_dtor 1%positive w = (Ok tt, w')
          ∧ objs w' = delete 1%positive (objs w)
          ∧ csets w' = delete 2%positive (csets w)
          ∧ live w' = 0%Z.
Proof.
  intros w.
  assert (objs w !! 1%positive = Some (Some 2%positive)) as Ho by reflexivity.
  assert (csets w !! 2%positive = Some [(4%positive, 1%Z); (3%positive, 2%Z)]) as Hh
    by reflexivity.
  destruct (destructor_frees_the_set w 1%positive 2%positive _ Ho Hh)
    as (w' & E & Hobjs & Hcsets & Hlive & _).
  refine (conj Ho (conj Hh _)). exists w'.
  exact (conj E (conj Hobjs (conj Hcsets Hlive))).
Defined.

Lemma construct_then_destroy_witness :
  let w : int_world :=
    World {[2%positive := [(4%positive, 1%Z); (3%positive, 2%Z)]]}
          {[1%positive := Some 2%positive]} 5%positive [] 2%Z in
  world_wf w
  ∧ head (oracle w) ≠ Some false
  ∧ ∃ w1 w2, set_ctor w = (Ok 5%positive, w1)
             ∧ set_dtor 5%positive w1 = (Ok tt, w2)
             ∧ objs w2 = objs w ∧ csets w2 = csets w ∧ live w2 = live w.
Proof.
  intros w.
  assert (world_wf w) as Hwf by (split; compute_done).
  assert (head (oracle w) ≠ Some false) as Horc by compute_done.
  exact (conj Hwf (conj Horc (construct_then_destroy w Hwf Horc))).
Defined.

Lemma insert_then_erase_restores_witness :
  let w : int_world :=
    World {[2%positive := [(4%positive, 1%Z); (3%positive, 2%Z)]]}
          {[1%positive := Some 2%positive]} 5%positive [] 2%Z in
  let sl := [(4%positive, 1%Z); (3%positive, 2%Z)] in
  strict_total_order Z.ltb Z.eqb
  ∧ set_inv w 1%positive sl
  ∧ ascending Z.ltb sl.*2
  ∧ (3%Z ∉ sl.*2)
  ∧ head (oracle w) ≠ Some false
  ∧ S (length sl) < 4
  ∧ ∃ it w1 w2,
      int_insert 4 1%positive 3%Z w = (Ok (it, true), w1)
      ∧ int_erase 1%positive 3%Z w1 = (Ok tt, w2)
      ∧ set_erase_it Z.ltb 1%positive it w1 = (Ok tt, w2)
      ∧ set_inv w2 1%positive sl
      ∧ csets w2 = csets w
      ∧ objs w2 = objs w
      ∧ live w2 = live w.
Proof.
  intros w sl.
  assert (set_inv w 1%positive sl) as Hinv by (split_and!; compute_done).
  assert (ascending Z.ltb sl.*2) as Hasc by compute_done.
  assert (3%Z ∉ sl.*2) as Hv by compute_done.
  assert (head (oracle w) ≠ Some false) as Horc by compute_done.
  assert (S (length sl) < 4) as Hlen by (simpl; lia).
  exact (conj int_strict_total_order (conj Hinv (conj Hasc (conj Hv (conj Horc
           (conj Hlen
              (insert_then_erase_restores Z.ltb Z.eqb int_strict_total_order
                 w 1%positive sl 4 3%Z Hinv Hasc Hv Horc Hlen))))))).
Defined.

Lemma insert_twice_inserts_once_witness :
  let w : int_world :=
    World {[2%positive := [(4%positive, 1%Z); (3%positive, 2%Z)]]}
          {[1%positive := Some 2%positive]} 5%positive [] 2%Z in
  let sl := [(4%positive, 1%Z); (3%positive, 2%Z)] in
  strict_total_order Z.ltb Z.eqb
  ∧ set_inv w 1%positive sl
  ∧ ascending Z.ltb sl.*2
  ∧ S (length sl) < 4
  ∧ head (oracle w) ≠ Some false
  ∧ ∃ it b w1,
      int_insert 4 1%positive 3%Z w = (Ok (it, b), w1)
      ∧ int_insert 4 1%positive 3%Z w1 = (Ok (it, false), w1)
      ∧ operator_deref w1 it = Ok 3%Z
      ∧ int_find 4 1%positive 3%Z w1 = Ok it.
Proof.
  intros w sl.
  assert (set_inv w 1%positive sl) as Hinv by (split_and!; compute_done).
  assert (ascending Z.ltb sl.*2) as Hasc by compute_done.
  assert (S (length sl) < 4) as Hlen by (simpl; lia).
  assert (head (oracle w) ≠ Some false) as Horc by compute_done.
  destruct (insert_twice_inserts_once Z.ltb Z.eqb int_strict_total_order
              w 1%positive sl 4 3%Z Hinv Hasc Hlen) as [Hret Htwice].
  destruct (Hret Horc) as (it & b & w1 & E).
  refine (conj int_strict_total_order (conj Hinv (conj Hasc (conj Hlen
           (conj Horc _))))).
  exists it, b, w1. exact (conj E (Htwice it b w1 E)).
Defined.

Lemma erase_found_position_witness :
  let w : int_world :=
    World {[2%positive := [(4%positive, 1%Z); (3%positive, 2%Z)]]}
          {[1%positive := Some 2%positive]} 5%positive [] 2%Z in
  let sl := [(4%positive, 1%Z); (3%positive, 2%Z)] in
  strict_total_order Z.ltb Z.eqb
  ∧ set_inv w 1%positive sl
  ∧ ascending Z.ltb sl.*2
  ∧ 2%Z ∈ sl.*2
  ∧ length sl < 3
  ∧ ∃ it w',
      int_find 3 1%positive 2%Z w = Ok it
      ∧ operator_deref w it = Ok 2%Z
      ∧ set_erase_it Z.ltb 1%positive it w = (Ok tt, w')
      ∧ int_erase 1%positive 2%Z w = (Ok tt, w')
      ∧ live w' = (live w - 1)%Z
      ∧ int_erase 1%positive 2%Z w' = (Throw ElementNotFound, w').
Proof.
  intros w sl.
  assert (set_inv w 1%positive sl) as Hinv by (split_and!; compute_done).
  assert (ascending Z.ltb sl.*2) as Hasc by compute_done.
  assert (2%Z ∈ sl.*2) as Hv by compute_done.
  assert (length sl < 3) as Hlen by (simpl; lia).
  exact (conj int_strict_total_order (conj Hinv (conj Hasc (conj Hv (conj Hlen
           (erase_found_position Z.ltb Z.eqb int_strict_total_order
              w 1%positive sl 3 2%Z Hinv Hasc Hv Hlen)))))).
Defined.

Lemma insert_and_erase_in_place_witness :
  let w : int_world :=
    World {[2%positive := [(4%positive, 1%Z); (3%positive, 3%Z)]]}
          {[1%positive := Some 2%positive]} 5%positive [] 2%Z in
  let sl := [(4%positive, 1%Z); (3%positive, 3%Z)] in
  strict_total_order Z.ltb Z.eqb
  ∧ set_inv w 1%positive sl
  ∧ ascending Z.ltb sl.*2
  ∧ S (length sl) < 4
  ∧ (2%Z ∉ sl.*2)
  ∧ head (oracle w) ≠ Some false
  ∧ 3%Z ∈ sl.*2
  ∧ traverse 4 1%positive (int_erase 1%positive 2%Z w).2 = traverse 4 1%positive w
  ∧ (∃ l1 l2,
       traverse 4 1%positive w = Ok (l1 ++ l2)
       ∧ Forall (λ x, Z.ltb x 2 = true) l1
       ∧ Forall (λ x, Z.ltb 2 x = true) l2
       ∧ traverse 4 1%positive (int_insert 4 1%positive 2%Z w).2
         = Ok (l1 ++ 2%Z :: l2))
  ∧ (∃ l1 l2,
       traverse 4 1%positive w = Ok (l1 ++ 3%Z :: l2)
       ∧ Forall (λ x, Z.ltb x 3 = true) l1
       ∧ Forall (λ x, Z.ltb 3 x = true) l2
       ∧ traverse 4 1%positive (int_erase 1%positive 3%Z w).2 = Ok (l1 ++ l2)
       ∧ traverse 4 1%positive (int_insert 4 1%positive 3%Z w).2
         = Ok (l1 ++ 3%Z :: l2)).
Proof.
  intros w sl.
  assert (set_inv w 1%positive sl) as Hinv by (split_and!; compute_done).
  assert (ascending Z.ltb sl.*2) as Hasc by compute_done.
  assert (S (length sl) < 4) as Hlen by (simpl; lia).
  assert (2%Z ∉ sl.*2) as Hnew by compute_done.
  assert (head (oracle w) ≠ Some false) as Horc by compute_done.
  assert (3%Z ∈ sl.*2) as Hold by compute_done.
  destruct (insert_and_erase_in_place Z.ltb Z.eqb int_strict_total_order
              w 1%positive sl 4 2%Z Hinv Hasc Hlen) as [Habsent _].
  destruct (insert_and_erase_in_place Z.ltb Z.eqb int_strict_total_order
              w 1%positive sl 4 3%Z Hinv Hasc Hlen) as [_ Hpresent].
  destruct (Habsent Hnew) as [Herase Hinsert].
  exact (conj int_strict_total_order (conj Hinv (conj Hasc (conj Hlen (conj Hnew
           (conj Horc (conj Hold (conj Herase (conj (Hinsert Horc)
              (Hpresent Hold)))))))))).
Defined.

Lemma inserts_build_the_set_witness :
  let w : int_world := (set_ctor empty_world).2 in
  let vs := [2; 1; 2]%Z in
  strict_total_order Z.ltb Z.eqb
  ∧ set_inv w 1%positive []
  ∧ ascending Z.ltb []
  ∧ oracle w = []
  ∧ 0 + length vs < 4
  ∧ ∃ l,
      traverse 4 1%positive (run_inserts Z.ltb Z.eqb 4 1%positive vs w) = Ok l
      ∧ ascending Z.ltb l
      ∧ NoDup l
      ∧ (∀ x, x ∈ l ↔ x ∈ [] ∨ x ∈ vs)
      ∧ set_size 1%positive (run_inserts Z.ltb Z.eqb 4 1%positive vs w)
        = Ok (Z.of_nat (length l)).
Proof.
  intros w vs.
  assert (set_inv w 1%positive []) as Hinv by (split_and!; compute_done).
  assert (ascending Z.ltb ([] : list (positive * Z)).*2) as Hasc by compute_done.
  assert (oracle w = []) as Horc by reflexivity.
  assert (length ([] : list (positive * Z)) + length vs < 4) as Hlen
    by (simpl; lia).
  exact (conj int_strict_total_order (conj Hinv (conj Hasc (conj Horc (conj Hlen
           (inserts_build_the_set Z.ltb Z.eqb int_strict_total_order
              w 1%positive [] 4 vs Hinv Hasc Horc Hlen)))))).
Defined.

Lemma insertion_order_is_irrelevant_witness :
  let w : int_world := (set_ctor empty_world).2 in
  let vs := [2; 1; 2]%Z in
  let vs' := [1; 2]%Z in
  strict_total_order Z.ltb Z.eqb
  ∧ set_inv w 1%positive []
  ∧ ascending Z.ltb []
  ∧ oracle w = []
  ∧ 0 + length vs < 4
  ∧ 0 + length vs' < 4
  ∧ (∀ x, x ∈ vs ↔ x ∈ vs')
  ∧ ∃ l,
      traverse 4 1%positive (run_inserts Z.ltb Z.eqb 4 1%positive vs w) = Ok l
      ∧ traverse 4 1%positive (run_inserts Z.ltb Z.eqb 4 1%positive vs' w) = Ok l.
Proof.
  intros w vs vs'.
  assert (set_inv w 1%positive []) as Hinv by (split_and!; compute_done).
  assert (ascending Z.ltb ([] : list (positive * Z)).*2) as Hasc by compute_done.
  assert (oracle w = []) as Horc by reflexivity.
  assert (length ([] : list (positive * Z)) + length vs < 4) as Hlen
    by (simpl; lia).
  assert (length ([] : list (positive * Z)) + length vs' < 4) as Hlen'
    by (simpl; lia).
  assert (∀ x, x ∈ vs ↔ x ∈ vs') as Hsame.
  { intros x. unfold vs, vs'. rewrite !elem_of_cons. tauto. }
  exact (conj int_strict_total_order (conj Hinv (conj Hasc (conj Horc (conj Hlen
           (conj Hlen' (conj Hsame
              (insertion_order_is_irrelevant Z.ltb Z.eqb int_strict_total_order
                 w 1%positive [] 4 vs vs' Hinv Hasc Horc Hlen Hlen' Hsame)))))))).
Defined.




Lemma erase_takes_a_position_of_any_set_witness :
  let w : int_world :=
    World {[2%positive := [(3%positive, 2%Z)];
            5%positive := [(6%positive, 2%Z); (7%positive, 5%Z)]]}
          {[1%positive := Some 2%positive; 4%positive := Some 5%positive]}
          8%positive [] 3%Z in
  let sla := [(3%positive, 2%Z)] in
  let slb := [(6%positive, 2%Z); (7%positive, 5%Z)] in
  strict_total_order Z.ltb Z.eqb
  ∧ set_inv w 1%positive sla
  ∧ ascending Z.ltb sla.*2
  ∧ set_inv w 4%positive slb
  ∧ m_CSet w 1%positive ≠ m_CSet w 4%positive
  ∧ (6%positive, 2%Z) ∈ slb
  ∧ (7%positive, 5%Z) ∈ slb
  ∧ 2%Z ∈ sla.*2
  ∧ (5%Z ∉ sla.*2)
  ∧ (∃ w' sla',
       set_erase_it Z.ltb 1%positive (ConstIterator 4%positive (Some 6%positive)) w
         = (Ok tt, w')
       ∧ set_inv w' 1%positive sla'
       ∧ (2%Z ∉ sla'.*2)
       ∧ S (length sla') = length sla
       ∧ set_inv w' 4%positive slb
       ∧ operator_deref w' (ConstIterator 4%positive (Some 6%positive)) = Ok 2%Z)
  ∧ set_erase_it Z.ltb 1%positive (ConstIterator 4%positive (Some 7%positive)) w
    = (Throw ElementNotFound, w).
Proof.
  intros w sla slb.
  assert (set_inv w 1%positive sla) as Hinva by (split_and!; compute_done).
  assert (ascending Z.ltb sla.*2) as Hasc by compute_done.
  assert (set_inv w 4%positive slb) as Hinvb by (split_and!; compute_done).
  assert (m_CSet w 1%positive ≠ m_CSet w 4%positive) as Hne by compute_done.
  assert ((6%positive, 2%Z) ∈ slb) as Hp by compute_done.
  assert ((7%positive, 5%Z) ∈ slb) as Hp' by compute_done.
  assert (2%Z ∈ sla.*2) as Hin by compute_done.
  assert (5%Z ∉ sla.*2) as Hout by compute_done.
  destruct (erase_takes_a_position_of_any_set Z.ltb Z.eqb int_strict_total_order
              w 1%positive 4%positive sla slb 6%positive 2%Z
              Hinva Hasc Hinvb Hne Hp) as (_ & _ & Hstored & _).
  destruct (erase_takes_a_position_of_any_set Z.ltb Z.eqb int_strict_total_order
              w 1%positive 4%positive sla slb 7%positive 5%Z
              Hinva Hasc Hinvb Hne Hp') as (_ & _ & _ & Habsent).
  exact (conj int_strict_total_order (conj Hinva (conj Hasc (conj Hinvb (conj Hne
           (conj Hp (conj Hp' (conj Hin (conj Hout
              (conj (Hstored Hin) (Habsent Hout))))))))))).
Defined.

Lemma begin_is_the_least_element_witness :
  let w : int_world :=
    World {[2%positive := [(4%positive, 1%Z); (3%positive, 2%Z)];
            6%positive := []]}
          {[1%positive := Some 2%positive; 5%positive := Some 6%positive]}
          7%positive [] 2%Z in
  let sl := [(4%positive, 1%Z); (3%positive, 2%Z)] in
  set_inv w 1%positive sl
  ∧ ascending Z.ltb sl.*2
  ∧ sl ≠ []
  ∧ set_inv w 5%positive []
  ∧ (∃ x, operator_deref w (set_begin w 1%positive) = Ok x
          ∧ x ∈ sl.*2
          ∧ ∀ i y, sl.*2 !! S i = Some y → Z.ltb x y = true)
  ∧ operator_deref w (set_begin w 5%positive) = Throw InvalidIterator.
Proof.
  intros w sl.
  assert (set_inv w 1%positive sl) as Hinv by (split_and!; compute_done).
  assert (ascending Z.ltb sl.*2) as Hasc by compute_done.
  assert (sl ≠ []) as Hne by discriminate.
  assert (set_inv w 5%positive []) as Hinv' by (split_and!; compute_done).
  assert (ascending Z.ltb ([] : list (positive * Z)).*2) as Hasc' by compute_done.
  destruct (begin_is_the_least_element Z.ltb w 1%positive sl Hinv Hasc) as [_ Hleast].
  destruct (begin_is_the_least_element Z.ltb w 5%positive [] Hinv' Hasc') as [Hempty _].
  exact (conj Hinv (conj Hasc (conj Hne (conj Hinv' (conj (Hleast Hne)
           (Hempty eq_refl)))))).
Defined.
